(** * sled-mailbox: the radar signal pipeline, embedded and verified

    Shallow embedding of the frame decoders, the report-frame extractor, the
    baseline update, the trigger state machine, the direction pairers, the
    classifier, the counters and the parameter endpoints of

      - [rd03e_reader.py] / [rd03e_wave_single.py]  (byte-at-a-time scanner),
      - [rd03e_two_sensor_counter.py]               (buffered reader, guarded pairing loop),
      - [rd03e_scope.py]                            (report frames, trigger, pairing, classifier,
                                                     counters, /state and /ld2410/<side>/cfg).

    Conventions.  Bytes are [Byte.byte].  Python [int]s are [Z].  Python
    [float]s (timestamps, energies, thresholds) are exact rationals [Q]:
    the code only adds, subtracts, multiplies, divides and compares them.
    Rounding to binary64 is modelled where the code cuts an integer out
    of a float or where a conversion to float can raise (module
    [Binary64]).  [time.time()] is an explicit argument
    [now].  Python dictionaries with a fixed set of keys are records; the
    JSON-facing dictionaries of the HTTP endpoints are [gmap string json]. *)

From Stdlib Require Import ZArith QArith Qround Qabs Qreduction Lia Lqa Bool List.
From Stdlib Require Import Init.Byte Qpower.
From stdpp Require Import base option list strings gmap fin_maps.
Import ListNotations.

Local Open Scope Z_scope.

(** ** Small shared helpers *)

(** Boolean comparisons on rationals, as Python's [<=] and [<] on floats. *)
Definition Qleb (x y : Q) : bool := Qle_bool x y.
Definition Qltb (x y : Q) : bool := negb (Qle_bool y x).

(** Python's [abs], [max] on floats.  [max(a, b)] returns [b] only when
    [b > a]. *)
Definition Qabs' (x : Q) : Q := if Qltb x 0 then Qopp x else x.
Definition Qmax' (x y : Q) : Q := if Qltb x y then y else x.

(** Python's [int(x)] on a float: truncation toward zero. *)
Definition Qtrunc (x : Q) : Z :=
  if Qltb x 0 then Qceiling x else Qfloor x.

(** ** Binary64 rounding

    Python's [float] is IEEE 754 binary64 with round-to-nearest, ties to
    even.  [b64 q] is the float that a correctly rounded operation with
    exact result [q] returns. *)

Module Binary64.
Local Open Scope Q_scope.

Definition pow2 (e : Z) : Q := 2 ^ e.

(** [floor(log2 |q|)] for [q <> 0]: the difference of the bit lengths
    of numerator and denominator, corrected by one comparison. *)
Definition ilog2 (q : Q) : Z :=
  let l := (Z.log2 (Z.abs (Qnum q)) - Z.log2 (Z.pos (Qden q)))%Z in
  if Qle_bool (pow2 l) (Qabs q) then l else (l - 1)%Z.

(** The nearest integer, ties to the even one. *)
Definition round_half_even (t : Q) : Z :=
  let f := Qfloor t in
  match Qcompare (t - inject_Z f) (1#2) with
  | Lt => f
  | Gt => (f + 1)%Z
  | Eq => if Z.even f then f else (f + 1)%Z
  end.

(** The exponent of the last place of the binary64 numbers around [q]:
    53 significant bits, smallest exponent [-1074]. *)
Definition ulp_exp (q : Q) : Z := Z.max (ilog2 q - 52) (-1074).

(** The binary64 number nearest to [q] (ties to even); [None] when the
    result is beyond the largest finite number (the float is [inf]). *)
Definition b64 (q : Q) : option Q :=
  if Qeq_bool q 0 then Some 0
  else
    let e := ulp_exp q in
    let r := Qred (inject_Z (round_half_even (q / pow2 e)) * pow2 e) in
    if Qle_bool (pow2 1024) (Qabs r) then None else Some r.

(** [int((1-alpha)*md + alpha*d)] for a float [alpha] and integers [md]
    and [d]: every operation rounds to binary64, [int] cuts toward zero;
    [None] when an intermediate float is infinite or NaN, so that
    [float(...)] or [int(...)] raises. *)
Definition fl_dist (alpha : Q) (md d : Z) : option Z :=
  match b64 alpha, b64 (inject_Z md), b64 (inject_Z d) with
  | Some a0, Some m, Some x =>
      match b64 (1 - a0) with
      | Some a1 =>
          match b64 (a1 * m), b64 (a0 * x) with
          | Some p1, Some p2 =>
              match b64 (p1 + p2) with
              | Some s => Some (Qtrunc s)
              | None => None
              end
          | _, _ => None
          end
      | None => None
      end
  | _, _, _ => None
  end.


(** [(gap_cm / 100.0) / abs(rb - ra)] as the classifier's floats
    compute it. *)
Definition fl_speed (gap_cm ra rb : Q) : option Q :=
  g ← b64 gap_cm; a ← b64 ra; b ← b64 rb;
  d ← b64 (Qabs (b - a)); h ← b64 (g / 100); b64 (h / d).

End Binary64.

(** ** The simple frame shape [AA AA <id> <val> 00 55 55] *)

Module SimpleShape.

(** One [on_frame(cur_id, cur_val)] / [handle(cid, val)] call. *)
Record frame := Frame { fid : byte; fval : byte }.

(** The wire image of a frame. *)
Definition encode (f : frame) : list byte :=
  [xaa; xaa; fid f; fval f; x00; x55; x55].

(** [loop_frames] in rd03e_reader.py and [RD03EReader.run] in
    rd03e_wave_single.py keep three locals: [state], [cur_id], [cur_val]. *)
Record scanner := Scanner { state : nat; cur_id : byte; cur_val : byte }.

Definition idle : scanner := Scanner 0 x00 x00.

(** One turn of the [while True] loop with a byte [x] read.  The second
    component is the [on_frame] call made in this turn, if any. *)
Definition step (s : scanner) (x : byte) : scanner * option frame :=
  match state s with
  | 0%nat => (Scanner (if Byte.eqb x xaa then 1 else 0) (cur_id s) (cur_val s), None)
  | 1%nat => (Scanner (if Byte.eqb x xaa then 2
                       else (if Byte.eqb x xaa then 1 else 0))
                      (cur_id s) (cur_val s), None)
  | 2%nat => (Scanner 3 x (cur_val s), None)
  | 3%nat => (Scanner 4 (cur_id s) x, None)
  | 4%nat => (Scanner (if Byte.eqb x x00 then 5 else 0) (cur_id s) (cur_val s), None)
  | 5%nat => (Scanner (if Byte.eqb x x55 then 6 else 0) (cur_id s) (cur_val s), None)
  | 6%nat => (Scanner 0 (cur_id s) (cur_val s),
              if Byte.eqb x x55 then Some (Frame (cur_id s) (cur_val s)) else None)
  | _ => (s, None)
  end.

(** The loop over a finite stretch of the stream; read timeouts ([not b])
    deliver nothing and are skipped by the code. *)
Fixpoint run (s : scanner) (bs : list byte) : scanner * list frame :=
  match bs with
  | [] => (s, [])
  | x :: bs' =>
      let '(s1, o) := step s x in
      let '(s2, fs) := run s1 bs' in
      (s2, match o with Some f => f :: fs | None => fs end)
  end.

(** All [on_frame] calls made while reading [bs] from the start. *)
Definition decode (bs : list byte) : list frame := snd (run idle bs).

(** [handle]: [if fid != USE_ID: return]; only frames of the wanted id
    become samples. *)
Definition samples (want_id : byte) (fs : list frame) : list frame :=
  filter (fun f => Byte.eqb (fid f) want_id = true) fs.

(** A stream made of garbage runs, each followed by one frame, and a
    final garbage run. *)
Fixpoint stream (segs : list (list byte * frame)) (tail : list byte) : list byte :=
  match segs with
  | [] => tail
  | (g, f) :: segs' => g ++ encode f ++ stream segs' tail
  end.

(** A garbage run that the scanner crosses without leaving [idle] for
    good: no two adjacent [AA] bytes and no [AA] as its last byte. *)
Fixpoint calm (g : list byte) : bool :=
  match g with
  | [] => true
  | x :: g' =>
      if Byte.eqb x xaa then
        match g' with
        | [] => false
        | y :: g'' => negb (Byte.eqb y xaa) && calm g''
        end
      else calm g'
  end.

End SimpleShape.

(** ** Searching a byte buffer: [bytes.find] *)

Module Bytes.

Fixpoint starts_with (pat buf : list byte) : bool :=
  match pat, buf with
  | [], _ => true
  | p :: pat', b :: buf' => Byte.eqb p b && starts_with pat' buf'
  | _ :: _, [] => false
  end.

(** [buf.find(pat)]: the lowest index at which [pat] occurs, [None] for
    Python's [-1]. *)
Fixpoint find (pat buf : list byte) : option nat :=
  if starts_with pat buf then Some 0%nat
  else match buf with
       | [] => None
       | _ :: buf' => S <$> find pat buf'
       end.

(** [buf.find(pat, start)]. *)
Definition find_from (pat buf : list byte) (start : nat) : option nat :=
  (fun i => (start + i)%nat) <$> find pat (drop start buf).

(** [pat] occurs in [buf] at index [i]. *)
Definition occurs_at (pat : list byte) (i : nat) (buf : list byte) : Prop :=
  starts_with pat (drop i buf) = true.

End Bytes.

(** ** The buffered reader of rd03e_two_sensor_counter.py *)

Module BufferedReader.
Import Bytes.

Definition SYNC : list byte := [xaa; xaa].

(** The inner [while True] of [RD03EReader.run]: returns the values
    stored into [self.value] (one per accepted frame, oldest first) and
    the buffer left for the next read.  Each turn that does not leave the
    loop deletes seven bytes or more, so [fuel = len(buf)] turns are
    never used up; [None] stands for running out of fuel. *)
Fixpoint drain (fuel : nat) (want_id : byte) (buf : list byte)
  : option (list byte * list byte) :=
  match find SYNC buf with
  | None => Some ([], drop (length buf - 1) buf)          (* buf[:] = buf[-1:] *)
  | Some i =>
      if (length buf - i <? 7)%nat then
        Some ([], if (0 <? i)%nat then drop i buf else buf)
      else
        match fuel with
        | O => None
        | S fuel' =>
            let frame := take 7 (drop i buf) in
            let buf' := drop (i + 7) buf in
            match frame with
            | [f0; f1; f2; f3; _; f5; f6] =>
                let ok := Byte.eqb f0 xaa && Byte.eqb f1 xaa
                          && Byte.eqb f5 x55 && Byte.eqb f6 x55 in
                match drain fuel' want_id buf' with
                | None => None
                | Some (vs, rest) =>
                    Some (if ok && Byte.eqb f2 want_id then f3 :: vs else vs, rest)
                end
            | _ => drain fuel' want_id buf'
            end
        end
  end.

(** One outer turn: [buf.extend(data)] and the inner loop. *)
Definition feed (want_id : byte) (buf data : list byte)
  : option (list byte * list byte) :=
  drain (length (buf ++ data)) want_id (buf ++ data).

End BufferedReader.

(** ** Report frames [F4 F3 F2 F1 ... F8 F7 F6 F5] *)

Module Report.
Import Bytes.

Definition HDR_RPT : list byte := [xf4; xf3; xf2; xf1].
Definition FTR_RPT : list byte := [xf8; xf7; xf6; xf5].

(** [extract_report_frames]: the [while True] loop on the mutable
    [bytearray], as a function from the buffer to the frames appended
    (in order) and the buffer left behind.  A turn that extracts a frame
    deletes at least eight bytes; [None] stands for running out of fuel. *)
Fixpoint extract_loop (fuel : nat) (buf : list byte)
  : option (list (list byte) * list byte) :=
  match find HDR_RPT buf with
  | None =>
      Some ([], if (4096 <? length buf)%nat
                then drop (length buf - 64) buf      (* del buf[:-64] *)
                else buf)
  | Some start =>
      let buf1 := if (0 <? start)%nat then drop start buf else buf in
      match find_from FTR_RPT buf1 4 with
      | None => Some ([], buf1)
      | Some e =>
          let e' := (e + length FTR_RPT)%nat in
          match fuel with
          | O => None
          | S fuel' =>
              match extract_loop fuel' (drop e' buf1) with
              | None => None
              | Some (frames, rest) => Some (take e' buf1 :: frames, rest)
              end
          end
      end
  end.

Definition extract_report_frames (buf : list byte)
  : option (list (list byte) * list byte) :=
  extract_loop (length buf) buf.

(** The dataclass [Ld2410Report]. *)
Record Ld2410Report := Ld2410 {
  move_energy : Z;
  move_dist_cm : option Z;
  still_energy : Z;
  still_dist_cm : option Z
}.

Definition byte_to_Z (b : byte) : Z := Z.of_N (Byte.to_N b).

(** [_u16le(b, i)] on the two bytes at [i] and [i+1]. *)
Definition u16le (lo hi : byte) : Z :=
  Z.lor (byte_to_Z lo) (Z.shiftl (byte_to_Z hi) 8).

(** [_energy8]. *)
Definition energy8 (x : byte) : Z := Z.land (byte_to_Z x) 0x7F.

Definition is_subtype (b : byte) : bool :=
  existsb (Byte.eqb b) [x02; x03; x82; x83; xd2; xda; xca; xea].

(** The [for i in range(len(body))] scan of [decode_report_frame], on the
    suffix [body[i:]]. *)
Fixpoint scan_body (body : list byte) : option Ld2410Report :=
  match body with
  | [] => None
  | x :: tl =>
      if Byte.eqb x xaa then
        let grp := match tl with
                   | y :: tl' => if is_subtype y then tl' else tl
                   | [] => tl
                   end in
        match grp with
        | d1l :: d1h :: b1 :: d2l :: d2h :: b2 :: _ =>
            let d1 := u16le d1l d1h in let e1 := energy8 b1 in
            let d2 := u16le d2l d2h in let e2 := energy8 b2 in
            if (0 <=? d1) && (d1 <=? 6000) && (0 <=? d2) && (d2 <=? 6000)
               && (0 <=? e1) && (e1 <=? 100) && (0 <=? e2) && (e2 <=? 100)
            then Some (Ld2410 e1 (Some d1) e2 (Some d2))
            else scan_body tl
        | _ => scan_body tl
        end
      else scan_body tl
  end.

Definition ends_with (suf buf : list byte) : bool :=
  starts_with (rev suf) (rev buf).

Definition decode_report_frame (frame : list byte) : option Ld2410Report :=
  if negb (starts_with HDR_RPT frame && ends_with FTR_RPT frame) then None
  else
    let body := take (length frame - length HDR_RPT - length FTR_RPT)
                     (drop (length HDR_RPT) frame) in
    if (length body <? 8)%nat then None else scan_body body.

End Report.

(** ** rd03e_two_sensor_counter.py: burst detector and guarded pairing loop *)

Module Counter.
Local Open Scope Q_scope.

Inductive sensor := SA | SB.

(** The dataclass [BurstEvent]. *)
Record BurstEvent := Burst {
  ev_sensor : sensor;
  start_t : Q;
  peak_t : Q;
  peak_amp : Q;
  peak_val : Z;
  peak_sign : Z;
  end_t : Q
}.

(** The fields of [BurstDetector]. *)
Record BurstDetector := Detector {
  name : sensor;
  alpha : Q;
  trig_on : Q;
  trig_off : Q;
  minsep : Q;
  det_refractory : Q;
  mu : option Q;
  in_burst : bool;
  d_start_t : Q;
  d_peak_t : Q;
  d_peak_amp : Q;
  d_peak_val : Z;
  d_peak_sign : Z;
  last_emit_t : Q
}.

(** [BurstDetector.update(val, ts)]: the new detector and the returned
    triple [(event or None, delta, mu)]. *)
Definition update (d : BurstDetector) (val : Z) (ts : Q)
  : BurstDetector * (option BurstEvent * Q * Q) :=
  let v := inject_Z val in
  let mu' := match mu d with
             | None => v
             | Some m => (1 - alpha d) * m + alpha d * v
             end in
  let delta := v - mu' in
  let mag := Qabs' delta in
  let sign := if Qleb 0 delta then 1%Z else (-1)%Z in
  if negb (in_burst d) then
    if Qleb (trig_on d) mag && Qleb (det_refractory d) (ts - last_emit_t d) then
      (Detector (name d) (alpha d) (trig_on d) (trig_off d) (minsep d) (det_refractory d)
                (Some mu') true ts ts mag val sign (last_emit_t d),
       (None, delta, mu'))
    else
      (Detector (name d) (alpha d) (trig_on d) (trig_off d) (minsep d) (det_refractory d)
                (Some mu') (in_burst d) (d_start_t d) (d_peak_t d) (d_peak_amp d)
                (d_peak_val d) (d_peak_sign d) (last_emit_t d),
       (None, delta, mu'))
  else
    let up := Qltb (d_peak_amp d) mag in
    let p_amp := if up then mag else d_peak_amp d in
    let p_t := if up then ts else d_peak_t d in
    let p_val := if up then val else d_peak_val d in
    let p_sign := if up then sign else d_peak_sign d in
    if Qltb mag (trig_off d) && Qleb (minsep d) (ts - d_start_t d) then
      (Detector (name d) (alpha d) (trig_on d) (trig_off d) (minsep d) (det_refractory d)
                (Some mu') false (d_start_t d) ts 0 p_val p_sign ts,
       (Some (Burst (name d) (d_start_t d) p_t p_amp p_val p_sign ts), delta, mu'))
    else
      (Detector (name d) (alpha d) (trig_on d) (trig_off d) (minsep d) (det_refractory d)
                (Some mu') true (d_start_t d) p_t p_amp p_val p_sign (last_emit_t d),
       (None, delta, mu')).

(** The command-line arguments the pairing loop reads. *)
Inductive pair_mode := ModeStart | ModePeak.

Record Args := MkArgs {
  pair : Q;          (* --pair *)
  refract : Q;       (* --refract *)
  mode : pair_mode;  (* --pair-mode *)
  min_dt : Q;        (* --min-dt *)
  amp_ratio : Q      (* --amp-ratio *)
}.

Inductive direction := A_to_B | B_to_A.

(** What the loop records for an accepted crossing (the [CROSS] row). *)
Record Crossing := Cross {
  c_direction : direction;
  c_lead : BurstEvent;
  c_lag : BurstEvent;
  c_dt : Q;
  c_time : Q
}.

(** The locals of [main] the loop mutates, queues apart. *)
Record Totals := MkTotals {
  inbound : Z;
  outbound : Z;
  last_cross_t : Q
}.

Definition edge_time (args : Args) (e : BurstEvent) : Q :=
  match mode args with ModeStart => start_t e | ModePeak => peak_t e end.

Inductive pop := PopA | PopB | PopBoth.

(** One turn of [while qA and qB] on the queue heads [a] and [b]: which
    queue heads are popped, the new totals and the crossing accepted in
    this turn, if any. *)
Definition turn (args : Args) (tot : Totals) (a b : BurstEvent)
  : pop * Totals * option Crossing :=
  let tA := edge_time args a in
  let tB := edge_time args b in
  let dt_ab := Qabs' (tA - tB) in
  if Qltb (pair args) dt_ab then
    (if Qltb tA tB then PopA else PopB, tot, None)
  else if Qltb dt_ab (min_dt args) then
    (PopBoth, tot, None)
  else
    let '(lead, lag, dir, amp_ok) :=
      if Qltb tA tB
      then (a, b, A_to_B, Qleb (amp_ratio args * peak_amp b) (peak_amp a))
      else (b, a, B_to_A, Qleb (amp_ratio args * peak_amp a) (peak_amp b)) in
    if negb amp_ok then
      (PopBoth, tot, None)
    else
      let t_cross := Qmax' (peak_t a) (peak_t b) in
      if Qltb (t_cross - last_cross_t tot) (refract args) then
        (if Qltb (peak_t a) (peak_t b) then PopA else PopB, tot, None)
      else
        (PopBoth,
         match dir with
         | A_to_B => MkTotals (inbound tot + 1)%Z (outbound tot) t_cross
         | B_to_A => MkTotals (inbound tot) (outbound tot + 1)%Z t_cross
         end,
         Some (Cross dir lead lag dt_ab t_cross)).

(** The whole [while qA and qB] loop: the queues and totals it leaves and
    the crossings it accepted, oldest first.  Every turn pops a head, so
    the recursion is structural on the two queues. *)
Fixpoint pairing (args : Args) (qA : list BurstEvent)
  : list BurstEvent -> Totals ->
    list BurstEvent * list BurstEvent * Totals * list Crossing :=
  fix pairing_B (qB : list BurstEvent) (tot : Totals) :=
    match qA, qB with
    | a :: qA', b :: qB' =>
        let '(p, tot', c) := turn args tot a b in
        let '(rA, rB, tot'', cs) :=
          match p with
          | PopA => pairing args qA' qB tot'
          | PopB => pairing_B qB' tot'
          | PopBoth => pairing args qA' qB' tot'
          end in
        (rA, rB, tot'', match c with Some x => x :: cs | None => cs end)
    | _, _ => (qA, qB, tot, [])
    end.

(** What the 5 ms tick of [main] works on. *)
Record Main := MkMain {
  detA : BurstDetector;
  detB : BurstDetector;
  queueA : list BurstEvent;   (* qA *)
  queueB : list BurstEvent;   (* qB *)
  totals : Totals
}.

(** One detector update of the tick: skipped while the reader has no
    sample yet ([last_ts] still [0.0]); a finished burst is appended to
    the sensor's queue. *)
Definition feed_detector (d : BurstDetector) (q : list BurstEvent)
           (value : Z) (last_ts : Q) : BurstDetector * list BurstEvent :=
  if Qeq_bool last_ts 0 then (d, q)
  else
    let '(d', (ev, _, _)) := update d value last_ts in
    (d', match ev with Some e => q ++ [e] | None => q end).

(** One turn of the [while True] in [main], given what the two readers
    hold ([value], [last_ts]): both detectors, then the pairing loop. *)
Definition tick (args : Args) (rdA rdB : Z * Q) (m : Main) : Main * list Crossing :=
  let '(dA, qA1) := feed_detector (detA m) (queueA m) (fst rdA) (snd rdA) in
  let '(dB, qB1) := feed_detector (detB m) (queueB m) (fst rdB) (snd rdB) in
  let '(qA2, qB2, tot, cs) := pairing args qA1 qB1 (totals m) in
  (MkMain dA dB qA2 qB2 tot, cs).

(** The time gap the loop computes for two queue heads. *)
Definition gap (args : Args) (a b : BurstEvent) : Q :=
  Qabs' (edge_time args a - edge_time args b).

(** Lead and lag of a candidate: the edge with the earlier time leads. *)
Definition lead_lag (args : Args) (a b : BurstEvent) : BurstEvent * BurstEvent :=
  if Qltb (edge_time args a) (edge_time args b) then (a, b) else (b, a).

(** The amplitude guard on a candidate. *)
Definition amp_guard (args : Args) (a b : BurstEvent) : Prop :=
  amp_ratio args * peak_amp (snd (lead_lag args a b))
  <= peak_amp (fst (lead_lag args a b)).

(** Sample arguments and bursts for the examples: the spec's window and
    minimum gap, [refract = 1.0], [amp_ratio] 1 and 2. *)
Definition demo_args : Args := MkArgs (8#10) 1 ModeStart (1#10) 1.
Definition demo_a : BurstEvent := Burst SA 10 10 9 40 1 11.
Definition demo_b_close : BurstEvent := Burst SB (1005#100) (1005#100) 5 30 1 11.
Definition demo_b : BurstEvent := Burst SB (105#10) (105#10) 5 30 1 11.

Definition demo_a2 : BurstEvent := Burst SA (102#10) (102#10) 9 40 1 11.
Definition demo_b2 : BurstEvent := Burst SB (107#10) (107#10) 5 30 1 12.

End Counter.

(** ** rd03e_scope.py: shared state, direction pairing, classifier, counters *)

Module Scope.
Local Open Scope Q_scope.

Inductive side := A | B.

Definition side_eqb (x y : side) : bool :=
  match x, y with A, A | B, B => true | _, _ => false end.

(** [STATE["trig_mode"]]: anything but ["level"] takes the spike path. *)
Inductive trig_mode_t := ModeLevel | ModeSpike.

(** [STATE["trig_source"]]; [SrcOther] is any string outside the four
    documented ones. *)
Inductive trig_source_t := SrcMoving | SrcStill | SrcEither | SrcBoth | SrcOther.

(** The tunable entries of [STATE] the pipeline reads.  [min_energy] is
    an integer setting (default [5], read through [int(...)] by the
    reader loop); the others are read through [float(...)]. *)
Record Params := MkParams {
  ld_alpha : Q;
  min_energy : Z;
  pair : Q;
  minsep : Q;
  refract : Q;
  trigA : Q; trigB : Q;
  hysA : Q; hysB : Q;
  holdA : Q; holdB : Q;
  trig_source : trig_source_t;
  trigA_still : option Q; trigB_still : option Q;
  hysA_still : option Q; hysB_still : option Q;
  holdA_still : option Q; holdB_still : option Q;
  trig_mode : trig_mode_t;
  k_sigma : Q;
  sigma_floor : Q;
  dz_min : Q;
  presence_se_min : Q;
  wave_cm : Q;
  sensor_gap_cm : Q;
  veh_speed_min_mps : Q;
  veh_peak_me_min : Q;
  veh_min_duration : Q
}.

(** The defaults written in the [STATE] literal. *)
Definition default_params : Params :=
  MkParams (15#100) 5 (80#100) (25#100) 1
           35 35 5 5 (30#100) (30#100)
           SrcMoving None None None None None None
           ModeSpike 2 6 5 25 15 (762#100) (8#10) 40 (10#100).

(** [STATE["a_ld"]] / [STATE["b_ld"]]: the latest raw sample. *)
Record Ld := MkLd {
  ld_move_energy : Z;
  ld_move_dist : option Z;
  ld_still_energy : Z;
  ld_still_dist : option Z
}.

(** [STATE["a_ld_s"]] / [STATE["b_ld_s"]]: the smoothed values. *)
Record LdS := MkLdS {
  s_move_energy : Q;
  s_move_dist : option Z;
  s_still_energy : Q;
  s_still_dist : option Z
}.

Inductive direction := A2B | B2A.
Inductive class := Car | Other.

(** [STATE["last_event"]]. *)
Record LastEvent := MkEvent {
  e_dir : option direction;
  e_t : option Q;
  e_dt : option Q;
  e_speed_mps : option Q;
  e_peak_me_A : option Q;
  e_peak_me_B : option Q;
  e_min_dist_A : option Z;
  e_min_dist_B : option Z;
  e_duration_s : option Q;
  e_class : option class
}.

(** The four counters and the retained event. *)
Record Counts := MkCounts {
  count_A2B : Z;
  count_B2A : Z;
  count_total : Z;
  count_other : Z;
  last_event : option LastEvent
}.

Record State := MkState {
  params : Params;
  a_ld : Ld; b_ld : Ld;
  a_ld_s : LdS; b_ld_s : LdS;
  ta : bool; tb : bool;
  counts : Counts
}.

Definition blank_event : LastEvent :=
  MkEvent None None None None None None None None None None.

Definition initial_counts : Counts := MkCounts 0 0 0 0 (Some blank_event).

Definition initial_state : State :=
  MkState default_params
          (MkLd 0 None 0 None) (MkLd 0 None 0 None)
          (MkLdS 0 None 0 None) (MkLdS 0 None 0 None)
          false false initial_counts.

Definition set_counts (c : Counts) (st : State) : State :=
  MkState (params st) (a_ld st) (b_ld st) (a_ld_s st) (b_ld_s st) (ta st) (tb st) c.

(** A change of the tunable entries (they never touch the counters). *)
Definition set_params (p : Params) (st : State) : State :=
  MkState p (a_ld st) (b_ld st) (a_ld_s st) (b_ld_s st) (ta st) (tb st) (counts st).

(** [counts_reset]: the POST handler of [/counts/reset]. *)
Definition counts_reset (st : State) : State :=
  set_counts (MkCounts 0 0 0 0 None) st.

(** [ENG_HIST[side]]: the sampled histories the classifier looks back
    into ([me]: smoothed move energy, [md]: smoothed move distance). *)
Record Hist := MkHist { me : list Q; md : list (option Z) }.
Record EngHist := MkEngHist { hist_A : Hist; hist_B : Hist }.

(** The module-level dictionary [DIR]; the key ["rise_ts"] is created on
    first use. *)
Record Dir := MkDir {
  pending : option side;
  ts : Q;
  refract_until : Q;
  last : option direction;
  last_ts : Q;
  rise_ts : option (option Q * option Q)
}.

Definition initial_dir : Dir := MkDir None 0 0 None 0 None.

(** Python truthiness of an optional float: [None] and [0.0] are false. *)
Definition truthy (x : option Q) : bool :=
  match x with None => false | Some q => negb (Qeq_bool q 0) end.

(** [x or 0.0]. *)
Definition or_zero (x : option Q) : Q :=
  match x with Some q => if Qeq_bool q 0 then 0 else q | None => 0 end.

(** [lst[-n:]]. *)
Definition last_n {T} (n : nat) (l : list T) : list T :=
  drop (length l - n) l.

(** [max(me) if me else None], [min(md_vals) if md_vals else None]. *)
Definition max_list (l : list Q) : option Q :=
  match l with [] => None | x :: l' => Some (fold_left Qmax' l' x) end.

Definition min_list (l : list Z) : option Z :=
  match l with [] => None | x :: l' => Some (fold_left Z.min l' x) end.

(** The helper [feat(side_key)] with [samples = max(1, int(2.5 / 0.5)) = 5]. *)
Definition feat (h : Hist) : option Q * option Z :=
  let me5 := last_n 5 (me h) in
  let md5 := last_n 5 (md h) in
  (max_list me5, min_list (omap id md5)).

(** The classifier inside [_emit_dir_edge], from [ra = DIR["rise_ts"].get("A")]
    to [cls]: the event stored in [STATE["last_event"]]. *)
Definition classify (p : Params) (eh : EngHist) (evt : direction) (now : Q)
           (ra rb : option Q) : LastEvent :=
  let dt := if truthy ra && truthy rb
            then match ra, rb with
                 | Some a, Some b => Some (Qabs' (b - a))
                 | _, _ => None
                 end
            else None in
  let gap_cm := sensor_gap_cm p in
  let speed_mps :=
    match dt with
    | Some d => if truthy dt && Qltb (1#1000) d
                then Some ((gap_cm / 100) / d) else None
    | None => None
    end in
  let '(peak_me_A, min_dist_A) := feat (hist_A eh) in
  let '(peak_me_B, min_dist_B) := feat (hist_B eh) in
  let duration_s := Qmax' (holdA p) (holdB p) in
  let v_min := veh_speed_min_mps p in
  let me_min := veh_peak_me_min p in
  let peak_me_both := Qmax' (or_zero peak_me_A) (or_zero peak_me_B) in
  let duration_ok := Qleb (veh_min_duration p) duration_s in
  let cls := if Qleb v_min (or_zero speed_mps) && Qleb me_min peak_me_both && duration_ok
             then Car else Other in
  MkEvent (Some evt) (Some now) dt speed_mps peak_me_A peak_me_B
          min_dist_A min_dist_B (Some duration_s) (Some cls).

(** The counter updates that follow the classification. *)
Definition count_event (evt : direction) (cls : class) (ev : LastEvent) (c : Counts) : Counts :=
  let c1 := match evt with
            | A2B => MkCounts (count_A2B c + 1)%Z (count_B2A c) (count_total c) (count_other c) (last_event c)
            | B2A => MkCounts (count_A2B c) (count_B2A c + 1)%Z (count_total c) (count_other c) (last_event c)
            end in
  let c2 := match cls with
            | Car => MkCounts (count_A2B c1) (count_B2A c1) (count_total c1 + 1)%Z (count_other c1) (last_event c1)
            | Other => MkCounts (count_A2B c1) (count_B2A c1) (count_total c1) (count_other c1 + 1)%Z (last_event c1)
            end in
  MkCounts (count_A2B c2) (count_B2A c2) (count_total c2) (count_other c2) (Some ev).

Definition set_rise (s : side) (now : Q) (r : option (option Q * option Q))
  : option Q * option Q :=
  let '(ra, rb) := match r with Some x => x | None => (None, None) end in
  match s with A => (Some now, rb) | B => (ra, Some now) end.

(** [SerialReader._emit_dir_edge] of the reader named [s], called at
    time [now]: the reader's [last_emit_ts], [DIR] and [STATE] after the
    call. *)
Definition emit_dir_edge (s : side) (now : Q) (eh : EngHist)
           (last_emit_ts : Q) (d : Dir) (st : State) : Q * Dir * State :=
  if Qltb (now - last_emit_ts) (5#100) then (last_emit_ts, d, st)
  else
    let p := params st in
    if Qltb now (refract_until d) then (now, d, st)
    else
      let rise := set_rise s now (rise_ts d) in
      match pending d with
      | None =>
          (now, MkDir (Some s) now (refract_until d) (last d) (last_ts d) (Some rise), st)
      | Some pend =>
          if negb (side_eqb pend s) && Qleb (now - ts d) (pair p) then
            if Qleb (minsep p) (now - last_ts d) then
              let evt := match pend with A => A2B | B => B2A end in
              let ev := classify p eh evt now (fst rise) (snd rise) in
              let cls := match e_class ev with Some Car => Car | _ => Other end in
              (now,
               MkDir None 0 (now + refract p) (Some evt) now (Some rise),
               set_counts (count_event evt cls ev (counts st)) st)
            else
              (now, MkDir None 0 (refract_until d) (last d) (last_ts d) (Some rise), st)
          else
            (now, MkDir (Some s) now (refract_until d) (last d) (last_ts d) (Some rise), st)
      end.

(** The states [DIR] and [STATE] can be in after any run of rising
    edges (from either reader, at any time, with any history and any
    debounce stamp), counter resets and changes of the tunables,
    starting from the module's literals. *)
Inductive reachable : Dir -> State -> Prop :=
| reach_init : reachable initial_dir initial_state
| reach_edge s now eh le d st :
    reachable d st ->
    reachable (snd (fst (emit_dir_edge s now eh le d st)))
              (snd (emit_dir_edge s now eh le d st))
| reach_reset d st :
    reachable d st -> reachable d (counts_reset st)
| reach_params p d st :
    reachable d st -> reachable d (set_params p st).



(** The four counters balance. *)
Definition balanced (c : Counts) : Prop :=
  (count_A2B c + count_B2A c = count_total c + count_other c)%Z.

(** The spec's bench figures: sensors 56 cm apart, the other
    thresholds as in the [STATE] literal. *)
Definition demo_params : Params :=
  MkParams (15#100) 5 (80#100) (25#100) 1
           35 35 5 5 (30#100) (30#100)
           SrcMoving None None None None None None
           ModeSpike 2 6 5 25 15 56 (8#10) 40 (10#100).

Definition strong_hist : EngHist :=
  MkEngHist (MkHist [10; 50; 20] [Some 120%Z; None; Some 90%Z]) (MkHist [5] []).
Definition weak_hist : EngHist :=
  MkEngHist (MkHist [10; 30; 20] [Some 120%Z; None; Some 90%Z]) (MkHist [5] []).

(** An A edge at t=10 and a B edge at t=10.4, from the initial state. *)
Definition after_A : Q * Dir * State :=
  emit_dir_edge A 10 strong_hist 0 initial_dir (set_params demo_params initial_state).
Definition after_AB : Q * Dir * State :=
  emit_dir_edge B (104#10) strong_hist 0 (snd (fst after_A)) (snd after_A).

(** The pending slot and the rise table agree: the pending side's rise
    time is the pending time stamp. *)
Definition dir_inv (d : Dir) : Prop :=
  match pending d with
  | None => True
  | Some s =>
      exists ra rb, rise_ts d = Some (ra, rb)
                    /\ match s with A => ra | B => rb end = Some (ts d)
  end.

End Scope.

(** ** rd03e_scope.py: the reader thread (baseline update and trigger) *)

Module Reader.
Import Scope.
Local Open Scope Q_scope.

(** The fields of [ReaderState] the trigger uses.  The legacy bar
    statistics ([strength], [d_smooth], [mean], [m2], [n]) only feed the
    bar display and are left out. *)
Record ReaderState := MkReader {
  trig_on : bool;
  last_valid_ts : Q;
  last_emit_ts : Q;
  me_mean : Q;
  me_m2 : Q;
  me_n : Z;
  last_me : Q;
  dist_ring : list Z
}.

Definition initial_reader : ReaderState := MkReader false 0 0 0 0 0 0 [].

(** What one reader call works on: its own [ReaderState], the shared
    [DIR] and the shared [STATE]. *)
Record World := MkWorld { rs : ReaderState; dir : Dir; st : State }.

Definition ld_of (s : side) (st : State) : Ld :=
  match s with A => a_ld st | B => b_ld st end.

Definition ld_s_of (s : side) (st : State) : LdS :=
  match s with A => a_ld_s st | B => b_ld_s st end.

Definition trig_of (s : side) (st : State) : bool :=
  match s with A => ta st | B => tb st end.

Definition set_ld (s : side) (x : Ld) (st : State) : State :=
  match s with
  | A => MkState (params st) x (b_ld st) (a_ld_s st) (b_ld_s st) (ta st) (tb st) (counts st)
  | B => MkState (params st) (a_ld st) x (a_ld_s st) (b_ld_s st) (ta st) (tb st) (counts st)
  end.

Definition set_ld_s (s : side) (x : LdS) (st : State) : State :=
  match s with
  | A => MkState (params st) (a_ld st) (b_ld st) x (b_ld_s st) (ta st) (tb st) (counts st)
  | B => MkState (params st) (a_ld st) (b_ld st) (a_ld_s st) x (ta st) (tb st) (counts st)
  end.

Definition set_trig (s : side) (x : bool) (st : State) : State :=
  match s with
  | A => MkState (params st) (a_ld st) (b_ld st) (a_ld_s st) (b_ld_s st) x (tb st) (counts st)
  | B => MkState (params st) (a_ld st) (b_ld st) (a_ld_s st) (b_ld_s st) (ta st) x (counts st)
  end.

(** [deque(maxlen=48).append]. *)
Definition ring_append (x : Z) (ring : list Z) : list Z := last_n 48 (ring ++ [x]).

(** [_update_me_stats]. *)
Definition update_me_stats (x : Q) (r : ReaderState) : ReaderState :=
  let n := (me_n r + 1)%Z in
  let d := x - me_mean r in
  let mean := me_mean r + d / inject_Z n in
  MkReader (trig_on r) (last_valid_ts r) (last_emit_ts r)
           mean (me_m2 r + d * (x - mean)) n (last_me r) (dist_ring r).

Section WithSqrt.
(** [math.sqrt] on floats is taken as given. *)
Variable sqrt : Q -> Q.

(** The values [_update_trigger] derives before it decides. *)
Record Signals := MkSignals {
  active_sample : bool;
  m_on_of : Q -> bool -> bool;     (* moving_logic, given last_valid_ts *)
  s_on_of : Q -> bool -> bool      (* still_logic, given last_valid_ts *)
}.

Definition signals (s : side) (now : Q) (p : Params) (se_s me_s : Q)
           (r : ReaderState) : Signals :=
  let min_e := inject_Z (min_energy p) in
  let mov_trig := match s with A => trigA p | B => trigB p end in
  let mov_hys := match s with A => hysA p | B => hysB p end in
  let mov_hold := match s with A => holdA p | B => holdB p end in
  let st_trig := default mov_trig (match s with A => trigA_still p | B => trigB_still p end) in
  let st_hys := default mov_hys (match s with A => hysA_still p | B => hysB_still p end) in
  let st_hold := default mov_hold (match s with A => holdA_still p | B => holdB_still p end) in
  let presence := Qleb (presence_se_min p) se_s in
  let sd := if (2 <? me_n r)%Z
            then let var := me_m2 r / inject_Z (me_n r - 1) in
                 if Qltb (1#1000000000) var then sqrt var else 0
            else 0 in
  let sd_eff := Qmax' sd (sigma_floor p) in
  let step_ok := Qleb (dz_min p) (me_s - last_me r) in
  let z_ok := Qleb (k_sigma p * sd_eff) (me_s - me_mean r) && step_ok in
  let wave_ok :=
    match rev (dist_ring r) with
    | r1 :: _ :: r3 :: _ => Qleb (wave_cm p) (Qabs' (inject_Z (r1 - r3)))
    | _ => false
    end in
  let moving_logic (last_valid : Q) (prev_on : bool) : bool :=
    match trig_mode p with
    | ModeLevel =>
        let on := Qleb mov_trig me_s in
        let off := Qltb me_s (Qmax' 0 (mov_trig - mov_hys))
                   && Qltb mov_hold (now - last_valid) in
        (prev_on && negb off) || (negb prev_on && on)
    | ModeSpike =>
        let '(want_on, want_off) :=
          if presence then
            ((z_ok || wave_ok) && Qleb min_e me_s,
             (negb z_ok && negb wave_ok) && Qltb mov_hold (now - last_valid))
          else
            (Qleb mov_trig me_s || (z_ok && Qleb min_e me_s),
             Qltb me_s (Qmax' 0 (mov_trig - mov_hys))
             && Qltb mov_hold (now - last_valid)) in
        (prev_on && negb want_off) || (negb prev_on && want_on)
    end in
  let still_logic (last_valid : Q) (prev_on : bool) : bool :=
    let on := Qleb st_trig se_s in
    let off := Qltb se_s (Qmax' 0 (st_trig - st_hys))
               && Qltb st_hold (now - last_valid) in
    (prev_on && negb off) || (negb prev_on && on) in
  let src_moving := match trig_source p with
                    | SrcMoving | SrcEither | SrcBoth => true | _ => false end in
  let src_still := match trig_source p with
                   | SrcStill | SrcEither | SrcBoth => true | _ => false end in
  let act1 :=
    src_moving &&
    match trig_mode p with
    | ModeLevel => Qleb min_e me_s
    | ModeSpike =>
        if presence then (z_ok || wave_ok) && Qleb min_e me_s
        else Qleb mov_trig me_s || (z_ok && Qleb min_e me_s)
    end in
  let act := act1 || (src_still && Qleb (Qmax' min_e (st_trig * (2#10))) se_s) in
  MkSignals act moving_logic still_logic.

(** The locals of [_update_trigger] at the point where it decides:
    the reader state after the ring and baseline updates, the value
    [last_valid_ts] takes, [prev], [m_on], [s_on] and [new_on]. *)
Record Decision := MkDecision {
  d_reader : ReaderState;
  d_last_valid : Q;
  d_prev : bool;
  d_m_on : bool;
  d_s_on : bool;
  d_new_on : bool
}.

Definition decision (s : side) (now : Q) (me_s : Q) (w : World) : Decision :=
  let p := params (st w) in
  let se_s := or_zero (Some (s_still_energy (ld_s_of s (st w)))) in
  let r1 := match s_move_dist (ld_s_of s (st w)) with
            | Some m => MkReader (trig_on (rs w)) (last_valid_ts (rs w)) (last_emit_ts (rs w))
                                 (me_mean (rs w)) (me_m2 (rs w)) (me_n (rs w)) (last_me (rs w))
                                 (ring_append m (dist_ring (rs w)))
            | None => rs w
            end in
  let r2 := if Qltb me_s (Qmax' (inject_Z (min_energy p)) 10)
            then update_me_stats me_s r1 else r1 in
  let prev := trig_on r2 in
  let sg := signals s now p se_s me_s r2 in
  let lv := if active_sample sg then now else last_valid_ts r2 in
  let m_on := m_on_of sg lv prev in
  let s_on := s_on_of sg lv prev in
  let new_on := match trig_source p with
                | SrcMoving => m_on
                | SrcStill => s_on
                | SrcEither => m_on || s_on
                | _ => m_on && s_on
                end in
  MkDecision r2 lv prev m_on s_on new_on.

(** [SerialReader._update_trigger(me_s)] of the reader named [s] at
    time [now]; [borrowed] is [lk.locked()] for the port's borrow
    lock, in which case the call returns before it decides. *)
Definition update_trigger (s : side) (now : Q) (borrowed : bool) (eh : EngHist)
           (me_s : Q) (w : World) : World :=
  let dc := decision s now me_s w in
  let r2 := d_reader dc in
  if borrowed then MkWorld r2 (dir w) (st w)
  else
    let '(le, d', st') :=
      if negb (d_prev dc) && d_new_on dc && d_m_on dc
      then emit_dir_edge s now eh (last_emit_ts r2) (dir w) (st w)
      else (last_emit_ts r2, dir w, st w) in
    MkWorld (MkReader (d_new_on dc) (d_last_valid dc) le (me_mean r2) (me_m2 r2)
                      (me_n r2) me_s (dist_ring r2))
            d' (set_trig s (d_new_on dc) st').

(** The smoothing step of [SerialReader.run] under [ENG_LOCK]: the
    dictionary [cur] (it is [STATE[a_ld_s]] itself, changed in place)
    when the block is left, and whether it was left normally.  The
    energies follow the file's convention for floats; each distance is
    cut out of a binary64 value by [int(...)].  The block is left by an
    exception ([false]) when [float(STATE["ld_alpha"])] or an [int(...)]
    raises; by then the energy of that [if] has been assigned already. *)
Definition smooth_step (p : Params) (rep : Report.Ld2410Report) (cur : LdS)
  : LdS * bool :=
  let alpha := ld_alpha p in
  let min_e := min_energy p in
  match Binary64.b64 alpha with
  | None => (cur, false)
  | Some _ =>
      let '(cur1, ok1) :=
        match Report.move_dist_cm rep with
        | Some dist =>
            if (min_e <=? Report.move_energy rep)%Z then
              let me0 := or_zero (Some (s_move_energy cur)) in
              let me1 := (1 - alpha) * me0 + alpha * inject_Z (Report.move_energy rep) in
              match Binary64.fl_dist alpha (default dist (s_move_dist cur)) dist with
              | Some md1 =>
                  (MkLdS me1 (Some md1) (s_still_energy cur) (s_still_dist cur), true)
              | None =>
                  (MkLdS me1 (s_move_dist cur) (s_still_energy cur) (s_still_dist cur),
                   false)
              end
            else (cur, true)
        | None => (cur, true)
        end in
      if negb ok1 then (cur1, false)
      else
        match Report.still_dist_cm rep with
        | Some dist =>
            if (min_e <=? Report.still_energy rep)%Z then
              let se0 := or_zero (Some (s_still_energy cur1)) in
              let se1 := (1 - alpha) * se0 + alpha * inject_Z (Report.still_energy rep) in
              match Binary64.fl_dist alpha (default dist (s_still_dist cur1)) dist with
              | Some sd1 =>
                  (MkLdS (s_move_energy cur1) (s_move_dist cur1) se1 (Some sd1), true)
              | None =>
                  (MkLdS (s_move_energy cur1) (s_move_dist cur1) se1 (s_still_dist cur1),
                   false)
              end
            else (cur1, true)
        | None => (cur1, true)
        end
  end.

Definition smooth (p : Params) (rep : Report.Ld2410Report) (cur : LdS) : LdS :=
  fst (smooth_step p rep cur).

Definition smooth_ok (p : Params) (rep : Report.Ld2410Report) (cur : LdS) : bool :=
  snd (smooth_step p rep cur).

(** The [if parsed_any and last_rep:] block of [SerialReader.run]: the
    raw sample is published, the smoothed values are updated, the
    trigger is run on the smoothed move energy.  When the smoothing
    raises, the loop's [except Exception] takes over and the trigger is
    not run.  Returns the world and [instant], the value the bar display
    goes on with. *)
Definition process_report (s : side) (now : Q) (borrowed : bool) (eh : EngHist)
           (rep : Report.Ld2410Report) (w : World) : World * Q :=
  let st1 := set_ld s (MkLd (Report.move_energy rep) (Report.move_dist_cm rep)
                            (Report.still_energy rep) (Report.still_dist_cm rep)) (st w) in
  let instant := inject_Z (Report.move_energy rep)
                 + (5#10) * inject_Z (Report.still_energy rep) in
  let st2 := set_ld_s s (smooth (params st1) rep (ld_s_of s st1)) st1 in
  let me_s := or_zero (Some (s_move_energy (ld_s_of s st2))) in
  (if smooth_ok (params st1) rep (ld_s_of s st1)
   then update_trigger s now borrowed eh me_s (MkWorld (rs w) (dir w) st2)
   else MkWorld (rs w) (dir w) st2,
   instant).

(** Reading one chunk: [self._buf.extend(mv)], frame extraction, the
    last report that decodes, and its processing.  [None] stands for
    the extraction running out of fuel. *)
Definition run_chunk (s : side) (now : Q) (borrowed : bool) (eh : EngHist)
           (chunk : list byte) (buf : list byte) (w : World)
  : option (list byte * World) :=
  match Report.extract_report_frames (buf ++ chunk) with
  | None => None
  | Some (frames, buf') =>
      let last_rep := list.last (omap Report.decode_report_frame frames) in
      Some (buf', match last_rep with
                  | Some rep => fst (process_report s now borrowed eh rep w)
                  | None => w
                  end)
  end.

End WithSqrt.

(** A world in which channel A sees a still target (smoothed still
    energy 50) and the trigger source is "either". *)
Definition either_params : Params :=
  MkParams (15#100) 5 (80#100) (25#100) 1
           35 35 5 5 (30#100) (30#100)
           SrcEither None None None None None None
           ModeSpike 2 6 5 25 15 56 (8#10) 40 (10#100).

Definition still_world : World :=
  MkWorld initial_reader initial_dir
          (MkState either_params
                   (MkLd 0 None 50 (Some 80%Z)) (MkLd 0 None 0 None)
                   (MkLdS 0 (Some 120%Z) 50 (Some 80%Z)) (MkLdS 0 None 0 None)
                   false false initial_counts).

End Reader.

(** ** rd03e_scope.py: the parameter endpoints *)

Module Command.

(** A decoded JSON value, as [request.get_json] returns it.  [JNonFinite]
    stands for [NaN] and the infinities, which Python's decoder accepts. *)
#[local] Unset Elimination Schemes.
Inductive json :=
| JNull
| JBool (b : bool)
| JInt (z : Z)
| JFloat (q : Q)
| JNonFinite
| JStr (s : string)
| JList (l : list json)
| JObj (l : list (string * json)).
#[local] Set Elimination Schemes.

(** Every key of the [STATE] literal, and the keys left out of
    [PUB_KEYS]. *)
Definition STATE_KEYS : list string :=
  ["macros"; "ld2410_cfg"; "a"; "b"; "da"; "db"; "ta"; "tb"; "a_off"; "b_off";
   "pos"; "mph"; "a_ld"; "b_ld"; "ld_alpha"; "min_energy"; "a_ld_s"; "b_ld_s";
   "paused"; "emaA"; "emaB"; "emaDA"; "emaDB"; "deadA"; "deadB"; "spike_factor";
   "gainA"; "gainB"; "sensor_timeoutA"; "sensor_timeoutB"; "delta_scale";
   "pair"; "minsep"; "refract"; "trigA"; "trigB"; "hysA"; "hysB"; "holdA"; "holdB";
   "trig_source"; "trigA_still"; "trigB_still"; "hysA_still"; "hysB_still";
   "holdA_still"; "holdB_still"; "trig_mode"; "k_sigma"; "sigma_floor"; "dz_min";
   "presence_se_min"; "wave_cm"; "wave_window"; "uart_side"; "uart_read_wait_ms";
   "uart_total_timeout_ms"; "uart_template"; "uart_params"; "sensor_gap_cm";
   "veh_speed_min_mps"; "veh_peak_me_min"; "veh_min_duration"; "count_A2B";
   "count_B2A"; "count_total"; "count_other"; "last_event"; "letter_count";
   "last_letter_ts"; "beam_broken"; "raw_buf_len"]%string.

Definition NOT_PUBLIC : list string :=
  ["a"; "b"; "da"; "db"; "ta"; "tb"; "a_off"; "b_off"; "mph"; "pos";
   "a_ld"; "b_ld"; "a_ld_s"; "b_ld_s"]%string.

Definition PUB_KEYS : list string :=
  filter (fun k => k ∉ NOT_PUBLIC) STATE_KEYS.

(** The POST branch of [state()]:
    [for k, v in body.items(): if k in PUB_KEYS: STATE[k] = v]. *)
Definition state_post (body STATE : gmap string json) : gmap string json :=
  filter (fun kv => kv.1 ∈ PUB_KEYS) body ∪ STATE.

Section Casts.
(** [int(s)] and [float(s)] on a Python string: the parsers of the
    language, taken as given. *)
Variable int_of_str : string -> option Z.
Variable float_of_str : string -> option json.

(** [int(v)]; [None] stands for the exception raised. *)
Definition cast_int (v : json) : option json :=
  match v with
  | JInt z => Some (JInt z)
  | JBool b => Some (JInt (if b then 1 else 0))
  | JFloat q => Some (JInt (Qtrunc q))
  | JStr s => JInt <$> int_of_str s
  | JNonFinite | JNull | JList _ | JObj _ => None
  end.

(** [float(v)].  An integer is rounded to the nearest binary64 value;
    one too large for a float raises [OverflowError]. *)
Definition cast_float (v : json) : option json :=
  match v with
  | JInt z => JFloat <$> Binary64.b64 (inject_Z z)
  | JBool b => Some (JFloat (if b then 1 else 0)%Q)
  | JFloat q => Some (JFloat q)
  | JNonFinite => Some JNonFinite
  | JStr s => float_of_str s
  | JNull | JList _ | JObj _ => None
  end.

(** The local helper [upd(k, cast)]: a failing cast is swallowed by
    [except Exception: pass]. *)
Definition upd (body : gmap string json) (k : string)
           (cast : json -> option json) (cfg : gmap string json)
  : gmap string json :=
  match body !! k with
  | Some v => match cast v with
              | Some v' => <[k := v']> cfg
              | None => cfg
              end
  | None => cfg
  end.

(** [[int(x) for x in lst][:9]]; [None] when some [int(x)] raises. *)
Definition int_list9 (l : list json) : option json :=
  (fun l' => JList (take 9 l')) <$> mapM cast_int l.

(** The list fields have no [try]: a failing [int(x)] leaves the
    handler with an exception. *)
Definition upd_list (body : gmap string json) (k : string)
           (cfg : gmap string json) : option (gmap string json) :=
  match body !! k with
  | Some (JList l) => (fun v => <[k := v]> cfg) <$> int_list9 l
  | _ => Some cfg
  end.

(** The POST branch of [ld2410_cfg(side)] on the side's dictionary
    [cfg = STATE["ld2410_cfg"][s]], which it mutates in place: the
    dictionary after the request, and whether the handler returned
    normally ([false]: it raised while converting a list field). *)
Definition ld2410_cfg_post (body cfg : gmap string json)
  : gmap string json * bool :=
  let c1 := upd body "rg_resolution_m" cast_float cfg in
  let c2 := upd body "report_delay_ms" cast_int c1 in
  let c3 := upd body "stat_time_s" cast_int c2 in
  let c4 := upd body "moving_max_rg" cast_int c3 in
  let c5 := upd body "still_max_rg" cast_int c4 in
  match upd_list body "moving_thresholds" c5 with
  | None => (c5, false)
  | Some c6 =>
      match upd_list body "still_thresholds" c6 with
      | None => (c6, false)
      | Some c7 => (c7, true)
      end
  end.

(** The cast the handler applies to each scalar field. *)
Definition scalar_cast (k : string) : option (json -> option json) :=
  if decide (k = "rg_resolution_m"%string) then Some cast_float
  else if decide (k ∈ ["report_delay_ms"; "stat_time_s"; "moving_max_rg";
                       "still_max_rg"]%string)
       then Some cast_int else None.

End Casts.

(** [STATE["ld2410_cfg"]["A"]] as written in the [STATE] literal; the
    comments there give [moving_max_rg] the range [0..8]. *)
Definition default_cfg : gmap string json :=
  <["rg_resolution_m"%string := JFloat (75#100)]>
  (<["moving_max_rg"%string := JInt 8]>
  (<["still_max_rg"%string := JInt 8]>
  (<["report_delay_ms"%string := JInt 500]>
  (<["stat_time_s"%string := JInt 120]>
  (<["moving_thresholds"%string :=
       JList (JInt <$> [65;60;55;50;45;40;35;30;30])]>
  (<["still_thresholds"%string :=
       JList (JInt <$> [0;0;40;40;35;30;30;25;25])]> ∅)))))).


(** The proviso under which the cfg endpoint's stored value is stated:
    the converted value is one a clamp to a sane range would leave
    alone.  The comments of the [STATE] literal give
    [rg_resolution_m] the values 0.75 and 0.2 and the two gate
    settings the range [0..8]; the two durations have no documented
    range and are taken here as non-negative. *)
Definition sane_value (k : string) (v : json) : bool :=
  match v with
  | JFloat q =>
      bool_decide (k = "rg_resolution_m"%string)
      && (Qeq_bool q (75#100) || Qeq_bool q (2#10))
  | JInt z =>
      (bool_decide (k ∈ ["moving_max_rg"; "still_max_rg"]%string)
       && (0 <=? z)%Z && (z <=? 8)%Z)
      || (bool_decide (k ∈ ["report_delay_ms"; "stat_time_s"]%string)
          && (0 <=? z)%Z)
  | _ => false
  end.

(** A parser that accepts no string, for the examples. *)
Definition no_int : string -> option Z := fun _ => None.
Definition no_float : string -> option json := fun _ => None.

(** A patch with one field that does not convert and two that do. *)
Definition mixed_patch : gmap string json :=
  <["moving_max_rg"%string := JNull]>
  (<["stat_time_s"%string := JFloat (605#10)]>
  (<["rg_resolution_m"%string := JInt 1]> ∅)).

(** A patch whose resolution is an integer of 401 digits, too large for
    a float. *)
Definition huge_patch : gmap string json :=
  <["rg_resolution_m"%string := JInt (10 ^ 400)]>
  (<["still_max_rg"%string := JInt 6]> ∅).

End Command.

(** ** rd03e_reader.py: the stream heuristic, and the scanner's progress *)

Module Heuristic.
Import SimpleShape.

(** The test of [looks_like_frames] at one index [i], on the suffix
    [buf[i:]]: the bytes at [i], [i+1], [i+4], [i+5], [i+6]. *)
Definition hit (suffix : list byte) : bool :=
  match suffix with
  | b0 :: b1 :: _ :: _ :: b4 :: b5 :: b6 :: _ =>
      Byte.eqb b0 xaa && Byte.eqb b1 xaa && Byte.eqb b4 x00
      && Byte.eqb b5 x55 && Byte.eqb b6 x55
  | _ => false
  end.

(** The [for i in range(len(buf) - 6)] loop: the number of hits. *)
Fixpoint count_hits (buf : list byte) : nat :=
  match buf with
  | [] => 0
  | _ :: tl => ((if hit buf then 1 else 0) + count_hits tl)%nat
  end.

(** [looks_like_frames]. *)
Definition looks_like_frames (buf : list byte) : bool :=
  if (length buf <? 28)%nat then false else (3 <=? count_hits buf)%nat.

(** What the scanner's state says about the bytes [pre] read so far: in
    state [k] the last [k] bytes are the first [k] bytes of a frame that
    carries [cur_id] and [cur_val]. *)
Definition tail_ok (s : scanner) (pre : list byte) : Prop :=
  match state s with
  | 1%nat => exists l, pre = l ++ [xaa]
  | 2%nat => exists l, pre = l ++ [xaa; xaa]
  | 3%nat => exists l, pre = l ++ [xaa; xaa; cur_id s]
  | 4%nat => exists l, pre = l ++ [xaa; xaa; cur_id s; cur_val s]
  | 5%nat => exists l, pre = l ++ [xaa; xaa; cur_id s; cur_val s; x00]
  | 6%nat => exists l, pre = l ++ [xaa; xaa; cur_id s; cur_val s; x00; x55]
  | _ => True
  end.

End Heuristic.

(** ** Writing a report frame (the inverse of [decode_report_frame]) *)

Module ReportWire.
Import Bytes Report.

(** The byte with value [z], for [0 <= z < 256]. *)
Definition byte_of_Z (z : Z) : byte :=
  match Byte.of_N (Z.to_N z) with Some b => b | None => x00 end.

(** One distance+energy group on the wire: [d_lo d_hi e]. *)
Definition group (d e : Z) : list byte :=
  [byte_of_Z (d mod 2 ^ 8); byte_of_Z (d / 2 ^ 8); byte_of_Z e].

(** A report frame: header, leading bytes [pre], the marker [AA], a
    sub-type byte, the moving and the still group, trailing bytes [pad],
    footer. *)
Definition report_frame (pre : list byte) (sub : byte) (r : Ld2410Report)
           (pad : list byte) : list byte :=
  HDR_RPT ++ (pre ++ [xaa; sub]
              ++ group (default 0 (move_dist_cm r)) (move_energy r)
              ++ group (default 0 (still_dist_cm r)) (still_energy r)
              ++ pad) ++ FTR_RPT.

(** What [decode_report_frame] accepts: both distances in [0, 6000],
    both energies in [0, 100]. *)
Definition in_range (r : Ld2410Report) : Prop :=
  (exists d1 d2, move_dist_cm r = Some d1 /\ still_dist_cm r = Some d2
                 /\ 0 <= d1 <= 6000 /\ 0 <= d2 <= 6000)
  /\ 0 <= move_energy r <= 100 /\ 0 <= still_energy r <= 100.

(** A frame as [extract_report_frames] hands it on: it starts with the
    header, ends with the footer and the two do not overlap. *)
Definition delimited (f : list byte) : Prop :=
  starts_with HDR_RPT f = true /\ ends_with FTR_RPT f = true
  /\ (8 <= length f)%nat.

End ReportWire.

(** ** rd03e_two_sensor_counter.py: a detector fed sample after sample *)

Module CounterRuns.
Import Counter.
Local Open Scope Q_scope.

(** [BurstDetector.__init__]. *)
Definition new_detector (name : sensor) (ema_alpha trig_on hys minsep refractory : Q)
  : BurstDetector :=
  Detector name ema_alpha trig_on (hys * trig_on) minsep refractory
           None false 0 0 0 0%Z 0%Z 0.

(** Successive [update(val, ts)] calls on one detector: the detector they
    leave and the events they returned, oldest first. *)
Fixpoint feed_all (d : BurstDetector) (samples : list (Z * Q))
  : BurstDetector * list BurstEvent :=
  match samples with
  | [] => (d, [])
  | (val, ts) :: rest =>
      let '(d1, (ev, _, _)) := update d val ts in
      let '(d2, evs) := feed_all d1 rest in
      (d2, match ev with Some e => e :: evs | None => evs end)
  end.

(** Bursts reported one after the other: each starts at least [gap]
    after the time [t_last] at which the previous one ended. *)
Fixpoint bursts_spaced (gap t_last : Q) (evs : list BurstEvent) : Prop :=
  match evs with
  | [] => True
  | e :: evs' => gap <= start_t e - t_last /\ bursts_spaced gap (end_t e) evs'
  end.

(** Crossings accepted one after the other: each crossing time is at
    least [gap] after the previous one, the first after [t_last]. *)
Fixpoint crossings_spaced (gap t_last : Q) (cs : list Crossing) : Prop :=
  match cs with
  | [] => True
  | c :: cs' => gap <= c_time c - t_last /\ crossings_spaced gap (c_time c) cs'
  end.

(** The time stamp of the last crossing of a list, [t0] if there is none. *)
Definition last_time (t0 : Q) (cs : list Crossing) : Q :=
  fold_left (fun _ c => c_time c) cs t0.

Definition is_A_to_B (c : Crossing) : bool :=
  match c_direction c with A_to_B => true | B_to_A => false end.

(** While a burst is open its peak is at least [trig_on] and it started
    at least [refractory] after the last report. *)
Definition det_inv (d : BurstDetector) : Prop :=
  in_burst d = true ->
  trig_on d <= d_peak_amp d /\ det_refractory d <= d_start_t d - last_emit_t d.

End CounterRuns.

(** ** rd03e_two_sensor_counter.py: the states the loop of [main] reaches *)

Module CounterMain.
Import Counter CounterRuns.
Local Open Scope Q_scope.

(** What [main] sets up before its loop: two fresh detectors, both
    built with [args.refract], empty queues, no crossing yet. *)
Definition initial_main (args : Args) (ema trigA trigB hys msep : Q) : Main :=
  MkMain (new_detector SA ema trigA hys msep (refract args))
         (new_detector SB ema trigB hys msep (refract args))
         [] [] (MkTotals 0 0 0).

(** The states of the loop after any number of ticks, with the time
    stamps the two readers held at the last tick.  A reader's [last_ts]
    starts at [0.0] and is set from [time.time()], taken never to go
    back. *)
Inductive main_reach (args : Args) (ema trigA trigB hys msep : Q)
  : Q -> Q -> Main -> Prop :=
| reach_init :
    main_reach args ema trigA trigB hys msep 0 0
               (initial_main args ema trigA trigB hys msep)
| reach_tick TA TB m vA tA vB tB :
    main_reach args ema trigA trigB hys msep TA TB m ->
    TA <= tA -> TB <= tB ->
    main_reach args ema trigA trigB hys msep tA tB
               (fst (tick args (vA, tA) (vB, tB) m)).

(** The bursts waiting in a queue, oldest first: each starts no earlier
    than [F] and at least [R] after it, peaks inside itself, and the
    next one is measured from its end; the last ends by [L]. *)
Fixpoint chain (R F : Q) (q : list BurstEvent) (L : Q) : Prop :=
  match q with
  | [] => F <= L
  | e :: q' =>
      F <= start_t e /\ F + R <= start_t e
      /\ start_t e <= peak_t e /\ peak_t e <= end_t e
      /\ chain R (end_t e) q' L
  end.

(** A detector fed stamps up to [T]: its last report is not after [T],
    and an open burst started at least [R] after it and peaks by [T]. *)
Definition det_ok (R : Q) (d : BurstDetector) (T : Q) : Prop :=
  det_refractory d = R
  /\ last_emit_t d <= T
  /\ (in_burst d = true ->
      last_emit_t d + R <= d_start_t d /\ last_emit_t d <= d_start_t d
      /\ d_start_t d <= d_peak_t d /\ d_peak_t d <= T).

(** The queues and the last crossing time: that time is not after both
    of the times [FA], [FB] the two queues are measured from. *)
Definition queues_ok (R : Q) (qA qB : list BurstEvent) (tot : Totals) (LA LB : Q)
  : Prop :=
  exists FA FB, chain R FA qA LA /\ chain R FB qB LB
                /\ last_cross_t tot <= Qmax' FA FB.

Definition main_ok (R TA TB : Q) (m : Main) : Prop :=
  det_ok R (detA m) TA /\ det_ok R (detB m) TB
  /\ queues_ok R (queueA m) (queueB m) (totals m)
               (last_emit_t (detA m)) (last_emit_t (detB m)).

(** A bench run with [--ema 0.07 --trig 12 --hys 0.6 --minsep 0.35],
    [refract = 1.0], [pair = 0.8], [min_dt = 0.1], [amp_ratio = 1]:
    both readers hold 50 at t=1; A reads 100 at t=10 and 50 at t=10.4,
    B reads 80 at t=10.5 and 50 at t=10.9.  Each tick feeds both
    detectors what the readers hold. *)
Definition bench_tick (rdA rdB : Z * Q) (m : Main) : Main :=
  fst (tick demo_args rdA rdB m).

Definition bench_before : Main :=
  bench_tick (50%Z, 104#10) (80%Z, 105#10)
    (bench_tick (50%Z, 104#10) (50%Z, 1)
       (bench_tick (100%Z, 10) (50%Z, 1)
          (bench_tick (50%Z, 1) (50%Z, 1)
             (initial_main demo_args (7#100) 12 12 (6#10) (35#100))))).

(** The two bursts of the run, with the peak amplitudes 46.5 and 27.9
    as the detectors' arithmetic leaves them (unreduced fractions). *)
Definition bench_a : BurstEvent :=
  Burst SA 10 10 (465000#10000) 100 1 (104#10).
Definition bench_b : BurstEvent :=
  Burst SB (105#10) (105#10) (27900000000000#1000000000000) 80 1 (109#10).

End CounterMain.

(** ** rd03e_scope.py: running statistics and per-side settings *)

Module ScopeStats.
Import Scope Reader.
Local Open Scope Q_scope.

(** The accumulator of [_update_stats] ([n], [mean], [m2]) and of
    [_update_me_stats] ([me_n], [me_mean], [me_m2]): both methods run the
    same three assignments. *)
Record Welford := MkWelford { w_n : Z; w_mean : Q; w_m2 : Q }.

Definition welford_step (x : Q) (w : Welford) : Welford :=
  let n := (w_n w + 1)%Z in
  let delta := x - w_mean w in
  let mean := w_mean w + delta / inject_Z n in
  MkWelford n mean (w_m2 w + delta * (x - mean)).

(** The values fed one after the other. *)
Definition welford_all (xs : list Q) (w : Welford) : Welford :=
  fold_left (fun acc x => welford_step x acc) xs w.

Definition me_stats (r : ReaderState) : Welford :=
  MkWelford (me_n r) (me_mean r) (me_m2 r).

Fixpoint Qsum (xs : list Q) : Q :=
  match xs with [] => 0 | x :: xs' => x + Qsum xs' end.

(** [STATE.get(self.trig_thr_key)], [trig_hys_key], [trig_hold_key]. *)
Definition mov_trig_of (s : side) (p : Params) : Q :=
  match s with A => trigA p | B => trigB p end.
Definition mov_hys_of (s : side) (p : Params) : Q :=
  match s with A => hysA p | B => hysB p end.
Definition mov_hold_of (s : side) (p : Params) : Q :=
  match s with A => holdA p | B => holdB p end.

(** [_activity_from_bytes]: the mean of [|b - 128|] over the chunk, [0.0]
    for an empty chunk. *)
Definition activity_from_bytes (chunk : list byte) : Q :=
  match chunk with
  | [] => 0
  | _ =>
      inject_Z (fold_left (fun ssum b => (ssum + Z.abs (Report.byte_to_Z b - 128))%Z)
                          chunk 0%Z)
      / inject_Z (Z.of_nat (length chunk))
  end.

(** The smoothed values of one channel lie in the sensor's ranges. *)
Definition smoothed_in_range (c : LdS) : Prop :=
  0 <= s_move_energy c <= 100 /\ 0 <= s_still_energy c <= 100
  /\ (forall d, s_move_dist c = Some d -> (0 <= d <= 6000)%Z)
  /\ (forall d, s_still_dist c = Some d -> (0 <= d <= 6000)%Z).

End ScopeStats.

(** ** rd03e_scope.py: a bench set-up in level mode *)

Module LevelBench.
Import Scope Reader.
Local Open Scope Q_scope.

(** The [STATE] literal with [trig_mode = "level"]. *)
Definition level_params : Params :=
  MkParams (15#100) 5 (80#100) (25#100) 1
           35 35 5 5 (30#100) (30#100)
           SrcMoving None None None None None None
           ModeLevel 2 6 5 25 15 (762#100) (8#10) 40 (10#100).

(** Reader A with its trigger on, last active sample at t = 9. *)
Definition level_world : World :=
  MkWorld (MkReader true 9 0 0 0 0 40 [])
          initial_dir
          (MkState level_params
                   (MkLd 40 (Some 120%Z) 0 None) (MkLd 0 None 0 None)
                   (MkLdS 40 (Some 120%Z) 0 None) (MkLdS 0 None 0 None)
                   true false initial_counts).

End LevelBench.
(** ** rd03e_scope.py: reading the state back, and [/reset] *)

Module Endpoints.
Import Command.

(** [reset()]: [for k in PUB_KEYS: STATE[k] = CONFIG_DEFAULTS.get(k, STATE[k])].
    The fallback [STATE[k]] is evaluated before [get] is called, so a key
    missing from [STATE] raises ([None]) whether or not it has a default. *)
Definition reset_loop (CONFIG_DEFAULTS : gmap string json) (keys : list string)
           (STATE : gmap string json) : option (gmap string json) :=
  foldl (fun acc k =>
           match acc with
           | None => None
           | Some M =>
               match M !! k with
               | None => None
               | Some cur => Some (<[k := default cur (CONFIG_DEFAULTS !! k)]> M)
               end
           end)
        (Some STATE) keys.

Definition reset_post (CONFIG_DEFAULTS STATE : gmap string json)
  : option (gmap string json) :=
  reset_loop CONFIG_DEFAULTS PUB_KEYS STATE.

(** A state that holds [null] under every key of the [STATE] literal,
    and defaults for two public keys. *)
Definition blank_state : gmap string json :=
  list_to_map ((fun k => (k, JNull)) <$> STATE_KEYS).

Definition two_defaults : gmap string json :=
  <["pair"%string := JFloat (8#10)]> (<["refract"%string := JInt 1]> ∅).

Definition pair_patch : gmap string json :=
  <["pair"%string := JFloat (5#10)]> (<["ta"%string := JBool true]> ∅).

(** A threshold list of ten entries whose tenth does not convert. *)
Definition ten_thresholds : gmap string json :=
  <["moving_thresholds"%string :=
      JList ((JInt <$> [65;60;55;50;45;40;35;30;30]%Z) ++ [JNull])]> ∅.

End Endpoints.

(** ** Reading in chunks *)

Module Chunks.
Import Bytes BufferedReader Report.

(** What one seven-byte slice adds to the values stored by
    [RD03EReader.run]: the [if frame[0] == 0xAA and ...] block. *)
Definition frame_vals (want_id : byte) (frame : list byte) (vs : list byte)
  : list byte :=
  match frame with
  | [f0; f1; f2; f3; _; f5; f6] =>
      if Byte.eqb f0 xaa && Byte.eqb f1 xaa && Byte.eqb f5 x55 && Byte.eqb f6 x55
         && Byte.eqb f2 want_id
      then f3 :: vs else vs
  | _ => vs
  end.

(** The outcome of a one-read extraction against a two-read one: the
    same frames; the same buffer, unless neither buffer holds a header. *)
Definition same_outcome (one : option (list (list byte) * list byte))
           (fs1 : list (list byte)) (two : option (list (list byte) * list byte))
  : Prop :=
  match two with
  | None => one = None
  | Some (fs2, r2) =>
      exists r, one = Some (fs1 ++ fs2, r)
                /\ (r = r2 \/ (find HDR_RPT r = None /\ find HDR_RPT r2 = None))
  end.

End Chunks.

(** ** rd03e_scope.py: a channel that loses its target *)

Module LowEnergyBench.
Import Scope Reader.
Local Open Scope Q_scope.

Definition fresh_world : World := MkWorld initial_reader initial_dir initial_state.

Definition no_hist : EngHist := MkEngHist (MkHist [] []) (MkHist [] []).

(** A strong moving target at 1 m, and the report of the empty scene
    that follows it. *)
Definition strong_report : Report.Ld2410Report :=
  Report.Ld2410 100 (Some 100%Z) 0 (Some 0%Z).
Definition empty_report : Report.Ld2410Report :=
  Report.Ld2410 0 (Some 100%Z) 0 (Some 0%Z).

(** Reader A after three reports of the strong target, from the
    [STATE] literal. *)
Definition warm_world : World :=
  fst (process_report (fun x => x) A (102#10) false no_hist strong_report
    (fst (process_report (fun x => x) A (101#10) false no_hist strong_report
      (fst (process_report (fun x => x) A 10 false no_hist strong_report
                           fresh_world))))).

End LowEnergyBench.

(** * Properties *)

(** ** The byte-at-a-time scanner *)

Section SimpleShapeFacts.
Import SimpleShape.

Lemma run_app s a b :
  run s (a ++ b) =
  let '(s1, f1) := run s a in
  let '(s2, f2) := run s1 b in
  (s2, f1 ++ f2).
Proof.
  revert s. induction a as [|x a IH]; intros s; simpl.
  - destruct (run s b); reflexivity.
  - destruct (step s x) as [s1 o]. rewrite IH.
    destruct (run s1 a) as [s2 f1]. destruct (run s2 b) as [s3 f2].
    destruct o; reflexivity.
Qed.

(** From the idle state a whole frame is read and reported once. *)
Lemma run_encode i v f rest :
  run (Scanner 0 i v) (encode f ++ rest) =
  let '(s', fs) := run (Scanner 0 (fid f) (fval f)) rest in (s', f :: fs).
Proof.
  destruct f as [fi fv]. cbn.
  destruct (run (Scanner 0 fi fv) rest); reflexivity.
Qed.

(** A calm garbage run leaves the idle scanner as it found it. *)
Lemma run_calm_len n : forall g i v,
  (length g <= n)%nat -> calm g = true ->
  run (Scanner 0 i v) g = (Scanner 0 i v, []).
Proof.
  induction n as [|n IH]; intros g i v Hlen Hc.
  - destruct g; [reflexivity | simpl in Hlen; lia].
  - destruct g as [|x g]; [reflexivity|].
    simpl in Hc. cbn [run step state cur_id cur_val].
    destruct (Byte.eqb x xaa) eqn:Hx.
    + destruct g as [|y g]; [discriminate|].
      apply andb_prop in Hc as [Hy Hc].
      apply negb_true_iff in Hy.
      cbn [run step state cur_id cur_val]. rewrite Hy.
      rewrite IH; [reflexivity | simpl in Hlen; lia | exact Hc].
    + rewrite IH; [reflexivity | simpl in Hlen; lia | exact Hc].
Qed.

Lemma run_calm g i v :
  calm g = true -> run (Scanner 0 i v) g = (Scanner 0 i v, []).
Proof. apply (run_calm_len (length g)); lia. Qed.

Lemma run_stream segs tail : forall i v,
  Forall (fun gf => calm (fst gf) = true) segs ->
  calm tail = true ->
  snd (run (Scanner 0 i v) (stream segs tail)) = map snd segs.
Proof.
  induction segs as [|[g f] segs IH]; intros i v Hs Ht; cbn [stream map].
  - rewrite run_calm by assumption. reflexivity.
  - inversion Hs as [|? ? Hg Hs']; subst. simpl in Hg.
    rewrite run_app, run_calm by assumption.
    rewrite run_encode.
    specialize (IH (fid f) (fval f) Hs' Ht).
    destruct (run (Scanner 0 (fid f) (fval f)) (stream segs tail)) as [s' fs].
    simpl in *. now rewrite IH.
Qed.

Lemma samples_all want_id fs :
  Forall (fun f => fid f = want_id) fs -> samples want_id fs = fs.
Proof.
  induction 1 as [|f fs Hf _ IH]; [reflexivity|].
  unfold samples in *. rewrite filter_cons.
  destruct (decide _) as [|Hn].
  - now rewrite IH.
  - exfalso. apply Hn. subst. apply Byte.byte_dec_lb. reflexivity.
Qed.

(** C1 (as amended).  A stream of N valid frames, each carrying the
    configured id, separated by garbage runs that are calm (no two
    adjacent AA bytes, no AA as last byte), decodes to exactly those N
    samples, in order, with their id/val pairs. *)
Theorem simple_shape_calm_garbage want_id segs tail :
  Forall (fun gf => calm (fst gf) = true /\ fid (snd gf) = want_id) segs ->
  calm tail = true ->
  samples want_id (decode (stream segs tail)) = map snd segs
  /\ length (samples want_id (decode (stream segs tail))) = length segs.
Proof.
  intros Hs Ht.
  assert (Hd : decode (stream segs tail) = map snd segs).
  { unfold decode, idle. apply run_stream; [|exact Ht].
    eapply Forall_impl; [exact Hs|]. intros gf [H _]. exact H. }
  rewrite Hd.
  assert (Ha : samples want_id (map snd segs) = map snd segs).
  { apply samples_all. clear -Hs.
    induction Hs as [|gf l [_ H] _ IH]; simpl; constructor; assumption. }
  rewrite Ha. split; [reflexivity | apply length_map].
Qed.

Lemma simple_shape_calm_garbage_witness :
  samples x02 (decode (stream [([x01; xaa; x13], Frame x02 x07);
                               ([], Frame x02 xaa)] [xff]))
  = [Frame x02 x07; Frame x02 xaa]
  /\ length (samples x02 (decode (stream [([x01; xaa; x13], Frame x02 x07);
                                          ([], Frame x02 xaa)] [xff]))) = 2%nat.
Proof.
  apply (simple_shape_calm_garbage x02
           [([x01; xaa; x13], Frame x02 x07); ([], Frame x02 xaa)] [xff]).
  - repeat constructor.
  - reflexivity.
Defined.

(** C1 fails as stated: one valid frame of id 02 preceded by the garbage
    [AA AA 02 05] yields no sample.  The AA that arrives in the slot
    where 00 is expected sends the scanner back to idle and is consumed,
    so the frame it starts is lost.  The buffered reader loses the same
    frame. *)
Lemma simple_shape_stray_AA_drops_frame :
  stream [([xaa; xaa; x02; x05], Frame x02 x07)] []
    = [xaa; xaa; x02; x05; xaa; xaa; x02; x07; x00; x55; x55]
  /\ samples x02 (decode (stream [([xaa; xaa; x02; x05], Frame x02 x07)] [])) = []
  /\ samples x02 (decode (stream [([xaa; xaa; x02; x05], Frame x02 x07)] []))
     <> map snd [([xaa; xaa; x02; x05], Frame x02 x07)]
  /\ BufferedReader.feed x02 []
       (stream [([xaa; xaa; x02; x05], Frame x02 x07)] []) = Some ([], [x55]).
Proof.
  split; [reflexivity|]. split; [reflexivity|]. split; [|reflexivity].
  vm_compute. discriminate.
Qed.

End SimpleShapeFacts.

(** ** Searching, and the report-frame extractor *)

Section BytesFacts.
Import Bytes.

Lemma starts_with_length pat buf :
  starts_with pat buf = true -> (length pat <= length buf)%nat.
Proof.
  revert buf. induction pat as [|p pat IH]; intros [|b buf] H; simpl in *;
    try lia; try discriminate.
  apply andb_prop in H as [_ H]. apply IH in H. lia.
Qed.

Lemma find_None pat buf :
  find pat buf = None -> forall i, starts_with pat (drop i buf) = false.
Proof.
  induction buf as [|b buf IH]; simpl; intros H i.
  - destruct (starts_with pat []) eqn:E; [discriminate|].
    now rewrite drop_nil.
  - destruct (starts_with pat (b :: buf)) eqn:E; [discriminate|].
    destruct (find pat buf) eqn:F; [discriminate|].
    destruct i as [|i]; [exact E | apply IH; reflexivity].
Qed.

Lemma find_Some pat buf : forall s,
  find pat buf = Some s ->
  starts_with pat (drop s buf) = true
  /\ forall j, (j < s)%nat -> starts_with pat (drop j buf) = false.
Proof.
  induction buf as [|b buf IH]; simpl; intros s H.
  - destruct (starts_with pat []) eqn:E; [|discriminate].
    injection H as <-. split; [exact E | intros; lia].
  - destruct (starts_with pat (b :: buf)) eqn:E.
    + injection H as <-. split; [exact E | intros; lia].
    + destruct (find pat buf) as [s'|] eqn:F; [|discriminate].
      injection H as <-. destruct (IH s' eq_refl) as [H1 H2].
      split; [exact H1|]. intros [|j] Hj; [exact E | apply H2; lia].
Qed.

(** [find] returns the first occurrence whenever there is one. *)
Lemma find_first pat buf i :
  occurs_at pat i buf ->
  exists s, find pat buf = Some s /\ (s <= i)%nat /\ occurs_at pat s buf.
Proof.
  unfold occurs_at. intros Hi.
  destruct (find pat buf) as [s|] eqn:F.
  - destruct (find_Some _ _ _ F) as [H1 H2]. exists s. split; [reflexivity|].
    split; [|exact H1].
    destruct (le_lt_dec s i) as [|Hlt]; [assumption|].
    rewrite (H2 i Hlt) in Hi. discriminate.
  - rewrite (find_None _ _ F i) in Hi. discriminate.
Qed.

Lemma find_from_Some pat buf start e :
  find_from pat buf start = Some e ->
  (start <= e)%nat /\ occurs_at pat e buf.
Proof.
  unfold find_from, occurs_at. destruct (find pat (drop start buf)) as [i|] eqn:F;
    [|discriminate].
  simpl. intros [= <-]. destruct (find_Some _ _ _ F) as [H _].
  rewrite drop_drop in H. split; [lia | exact H].
Qed.

Lemma find_from_None pat buf start :
  find_from pat buf start = None ->
  forall j, (start <= j)%nat -> ~ occurs_at pat j buf.
Proof.
  unfold find_from, occurs_at. destruct (find pat (drop start buf)) eqn:F;
    [discriminate|].
  intros _ j Hj Hocc. pose proof (find_None _ _ F (j - start)%nat) as H.
  rewrite drop_drop in H. replace (start + (j - start))%nat with j in H by lia.
  congruence.
Qed.

Lemma occurs_at_drop pat s j buf :
  occurs_at pat j (drop s buf) <-> occurs_at pat (s + j) buf.
Proof. unfold occurs_at. now rewrite drop_drop. Qed.

Lemma occurs_at_length pat i buf :
  occurs_at pat i buf -> pat <> [] -> (i + length pat <= length buf)%nat.
Proof.
  unfold occurs_at. intros H Hne. apply starts_with_length in H.
  rewrite length_drop in H. destruct pat; [congruence|]. simpl in *. lia.
Qed.

End BytesFacts.

Section BufferedReaderFacts.
Import Bytes BufferedReader.

(** The buffered reader's inner loop never runs out of fuel. *)
Lemma drain_total want_id fuel : forall buf,
  (length buf <= fuel)%nat -> exists r, drain fuel want_id buf = Some r.
Proof.
  induction fuel as [|fuel IH]; intros buf Hlen.
  - destruct buf; [|simpl in Hlen; lia]. cbn. eauto.
  - cbn [drain]. destruct (find SYNC buf) as [i|]; [|eauto].
    destruct (length buf - i <? 7)%nat eqn:E; [eauto|].
    apply Nat.ltb_ge in E.
    destruct (IH (drop (i + 7) buf)) as [[vs rest] D].
    { rewrite length_drop. lia. }
    rewrite D.
    destruct (take 7 (drop i buf)) as [|? [|? [|? [|? [|? [|? [|? [|? ?]]]]]]]];
      eauto.
Qed.

Lemma byte_eqb_sym x y : Byte.eqb x y = Byte.eqb y x.
Proof.
  destruct (Byte.eqb x y) eqn:E.
  - apply Byte.byte_dec_bl in E. subst. symmetry. now apply Byte.byte_dec_lb.
  - destruct (Byte.eqb y x) eqn:E'; [|reflexivity].
    apply Byte.byte_dec_bl in E'. subst.
    rewrite (Byte.byte_dec_lb (eq_refl x)) in E. discriminate.
Qed.

(** In a calm garbage run followed by a frame, the first [AA AA] is the
    frame's. *)
Lemma find_sync_calm_len n : forall g rest,
  (length g <= n)%nat -> SimpleShape.calm g = true ->
  find SYNC (g ++ xaa :: xaa :: rest) = Some (length g).
Proof.
  induction n as [|n IH]; intros g rest Hlen Hc.
  - destruct g; [reflexivity | simpl in Hlen; lia].
  - destruct g as [|x g]; [reflexivity|].
    simpl in Hc. destruct (Byte.eqb x xaa) eqn:Hx.
    + destruct g as [|y g]; [discriminate|].
      apply andb_prop in Hc as [Hy Hc]. apply negb_true_iff in Hy.
      apply Byte.byte_dec_bl in Hx. subst x.
      cbn [app find starts_with SYNC]. rewrite (byte_eqb_sym xaa y), Hy.
      cbn [andb Byte.eqb]. simpl (Byte.eqb xaa xaa).
      cbn [andb]. rewrite IH by (simpl in Hlen; lia || exact Hc).
      reflexivity.
    + cbn [app find starts_with SYNC]. rewrite (byte_eqb_sym xaa x), Hx.
      cbn [andb]. rewrite IH by (simpl in Hlen; lia || exact Hc).
      reflexivity.
Qed.

Lemma find_sync_calm_none_len n : forall g,
  (length g <= n)%nat -> SimpleShape.calm g = true -> find SYNC g = None.
Proof.
  induction n as [|n IH]; intros g Hlen Hc.
  - destruct g; [reflexivity | simpl in Hlen; lia].
  - destruct g as [|x g]; [reflexivity|].
    simpl in Hc. destruct (Byte.eqb x xaa) eqn:Hx.
    + destruct g as [|y g]; [discriminate|].
      apply andb_prop in Hc as [Hy Hc]. apply negb_true_iff in Hy.
      apply Byte.byte_dec_bl in Hx. subst x.
      cbn [find starts_with SYNC]. rewrite (byte_eqb_sym xaa y), Hy.
      simpl (Byte.eqb xaa xaa). cbn [andb].
      rewrite IH by (simpl in Hlen; lia || exact Hc). reflexivity.
    + cbn [find starts_with SYNC]. rewrite (byte_eqb_sym xaa x), Hx.
      cbn [andb]. rewrite IH by (simpl in Hlen; lia || exact Hc). reflexivity.
Qed.

(** The buffered reader, fed a whole stream of frames separated by calm
    garbage, stores the value of every frame of the wanted id, in order. *)
Lemma drain_stream want_id tail : forall segs fuel,
  (length (SimpleShape.stream segs tail) <= fuel)%nat ->
  Forall (fun gf => SimpleShape.calm (fst gf) = true) segs ->
  SimpleShape.calm tail = true ->
  exists rest,
    drain fuel want_id (SimpleShape.stream segs tail)
    = Some (SimpleShape.fval <$> SimpleShape.samples want_id (snd <$> segs), rest).
Proof.
  induction segs as [|[g f] segs IH]; intros fuel Hlen Hs Ht.
  - cbn [SimpleShape.stream]. exists (drop (length tail - 1) tail).
    destruct fuel; cbn [drain];
      rewrite (find_sync_calm_none_len (length tail)) by (lia || exact Ht);
      reflexivity.
  - inversion Hs as [|? ? Hg Hs']; subst. simpl in Hg.
    destruct f as [fi fv].
    cbn [SimpleShape.stream] in *. unfold SimpleShape.encode in *.
    cbn [SimpleShape.fid SimpleShape.fval] in *.
    set (rest0 := SimpleShape.stream segs tail) in *.
    assert (Hl : length (g ++ [xaa; xaa; fi; fv; x00; x55; x55] ++ rest0)
                 = (length g + 7 + length rest0)%nat)
      by (rewrite !length_app; simpl; lia).
    rewrite Hl in Hlen.
    destruct fuel as [|fuel]; [lia|].
    destruct (IH fuel) as [rest E]; [lia | exact Hs' | exact Ht |].
    exists rest. cbn [drain].
    change (g ++ [xaa; xaa; fi; fv; x00; x55; x55] ++ rest0)
      with (g ++ xaa :: xaa :: (fi :: fv :: x00 :: x55 :: x55 :: rest0)) in *.
    rewrite (find_sync_calm_len (length g)) by (lia || exact Hg).
    rewrite Hl.
    replace (length g + 7 + length rest0 - length g <? 7)%nat with false
      by (symmetry; apply Nat.ltb_ge; lia).
    rewrite drop_app_length.
    replace (drop (length g + 7) (g ++ xaa :: xaa :: fi :: fv :: x00 :: x55 :: x55 :: rest0))
      with rest0
      by (rewrite <- drop_drop, drop_app_length; reflexivity).
    cbn [take]. rewrite E. simpl (Byte.eqb xaa xaa). simpl (Byte.eqb x55 x55).
    cbn [andb fmap list_fmap].
    unfold SimpleShape.samples. rewrite filter_cons. cbn [SimpleShape.fid snd].
    destruct (Byte.eqb fi want_id) eqn:Ei.
    + rewrite decide_True by reflexivity. reflexivity.
    + rewrite decide_False by discriminate. reflexivity.
Qed.

Lemma feed_total want_id buf data :
  exists vs rest, feed want_id buf data = Some (vs, rest).
Proof.
  destruct (drain_total want_id _ (buf ++ data) (le_n _)) as [[vs rest] E].
  unfold feed. eauto.
Qed.

End BufferedReaderFacts.

Section ReportFacts.
Import Bytes Report.

(** The extraction loop never runs out of fuel: the function returns. *)
Lemma extract_loop_total fuel : forall buf,
  (length buf <= fuel)%nat -> exists r, extract_loop fuel buf = Some r.
Proof.
  induction fuel as [|fuel IH]; intros buf Hlen.
  - destruct buf; [|simpl in Hlen; lia]. cbn. eauto.
  - cbn [extract_loop]. destruct (find HDR_RPT buf) as [start|] eqn:F; [|eauto].
    set (buf1 := if (0 <? start)%nat then drop start buf else buf).
    destruct (find_from FTR_RPT buf1 4) as [e|] eqn:G; [|eauto].
    apply find_from_Some in G as [_ Hocc].
    apply occurs_at_length in Hocc; [|discriminate].
    assert (Hb : (length buf1 <= length buf)%nat).
    { subst buf1. destruct (0 <? start)%nat; [rewrite length_drop|]; lia. }
    destruct (IH (drop (e + length FTR_RPT) buf1)) as [[fr rest] E].
    { rewrite length_drop. simpl in *. lia. }
    rewrite E. eauto.
Qed.

Theorem extract_report_frames_total buf :
  exists frames rest, extract_report_frames buf = Some (frames, rest).
Proof.
  destruct (extract_loop_total (length buf) buf (le_n _)) as [[fr rest] E].
  unfold extract_report_frames. eauto.
Qed.

(** A footer cannot overlap a header that starts after it. *)
Lemma footer_before_header buf i j :
  occurs_at FTR_RPT j buf -> occurs_at HDR_RPT i buf -> (j < i)%nat ->
  (j + 4 <= i)%nat.
Proof.
  unfold occurs_at. intros Hf Hh Hlt.
  destruct (le_lt_dec (j + 4) i) as [|Hov]; [assumption|exfalso].
  replace i with (j + (i - j))%nat in Hh by lia.
  rewrite <- drop_drop in Hh.
  destruct (drop j buf) as [|c0 [|c1 [|c2 [|c3 tl]]]];
    cbn [starts_with FTR_RPT] in Hf; rewrite ?andb_false_r in Hf;
    try discriminate Hf.
  repeat (apply andb_prop in Hf as [?E Hf]).
  repeat match goal with
         | H : Byte.eqb _ _ = true |- _ => apply Byte.byte_dec_bl in H; subst
         end.
  assert (Hd : (i - j = 1 \/ i - j = 2 \/ i - j = 3)%nat) by lia.
  destruct Hd as [Hd | [Hd | Hd]]; rewrite Hd in Hh; cbn [drop] in Hh;
    destruct tl as [|? [|? [|? ?]]]; discriminate Hh.
Qed.

(** No data loss in general: a header that no footer follows is still in
    the buffer after extraction, with every byte after it, whatever
    complete frames were extracted before it. *)
Lemma extract_loop_keeps_open_header fuel : forall buf i frames rest,
  occurs_at HDR_RPT i buf ->
  (forall j, (i <= j)%nat -> ~ occurs_at FTR_RPT j buf) ->
  extract_loop fuel buf = Some (frames, rest) ->
  exists k, (k <= i)%nat /\ rest = drop k buf.
Proof.
  induction fuel as [|fuel IH]; intros buf i frames rest Hh Hno E;
    cbn [extract_loop] in E;
    destruct (find_first _ _ _ Hh) as [s [F [Hsi Hs]]]; rewrite F in E;
    (replace (if (0 <? s)%nat then drop s buf else buf) with (drop s buf) in E
      by (destruct s; reflexivity));
    destruct (find_from FTR_RPT (drop s buf) 4) as [e|] eqn:G;
    try (injection E as <- <-; exists s; split; [exact Hsi | reflexivity]);
    try discriminate E.
  destruct (find_from_Some _ _ _ _ G) as [He Ho].
  apply occurs_at_drop in Ho.
  assert (Hlt : (s + e < i)%nat).
  { destruct (le_lt_dec i (s + e)) as [Hle|]; [|assumption].
    exfalso. exact (Hno _ Hle Ho). }
  pose proof (footer_before_header _ _ _ Ho Hh Hlt) as Hsep.
  destruct (extract_loop fuel (drop (e + length FTR_RPT) (drop s buf)))
    as [[fr rest']|] eqn:R; [|discriminate E].
  injection E as <- <-.
  rewrite drop_drop in R. simpl length in R.
  destruct (IH (drop (s + (e + 4)) buf) (i - (s + (e + 4)))%nat fr rest')
    as [k [Hk ->]].
  - apply occurs_at_drop. replace (s + (e + 4) + (i - (s + (e + 4))))%nat with i by lia.
    exact Hh.
  - intros j Hj Hocc. apply occurs_at_drop in Hocc.
    apply (Hno (s + (e + 4) + j)%nat); [lia | exact Hocc].
  - exact R.
  - exists (s + (e + 4) + k)%nat. split; [lia|]. now rewrite drop_drop.
Qed.

(** C7.  If the buffer holds a header and no footer follows any header,
    extraction returns no frame and leaves the buffer from its first
    header on: the header and every byte after it stay for the next
    read. *)
Theorem extract_header_without_footer buf :
  (exists i, occurs_at HDR_RPT i buf) ->
  (forall i j, occurs_at HDR_RPT i buf -> occurs_at FTR_RPT j buf -> (j < i)%nat) ->
  exists s, extract_report_frames buf = Some ([], drop s buf)
            /\ occurs_at HDR_RPT s buf
            /\ (forall i, occurs_at HDR_RPT i buf -> (s <= i)%nat).
Proof.
  intros [i Hi] Hno.
  destruct (find_first _ _ _ Hi) as [s [F [_ Hs]]].
  exists s. split; [|split; [exact Hs|]].
  - unfold extract_report_frames.
    assert (Hbody : forall fuel, extract_loop fuel buf = Some ([], drop s buf)).
    { intros fuel. destruct fuel; cbn [extract_loop]; rewrite F;
        (replace (if (0 <? s)%nat then drop s buf else buf) with (drop s buf)
           by (destruct s; reflexivity));
        (destruct (find_from FTR_RPT (drop s buf) 4) as [e|] eqn:G; [|reflexivity]);
        apply find_from_Some in G as [_ Hocc];
        apply occurs_at_drop in Hocc;
        specialize (Hno s (s + e)%nat Hs Hocc); lia. }
    apply Hbody.
  - intros k Hk. destruct (find_first _ _ _ Hk) as [s' [F' [Hle _]]].
    rewrite F in F'. injection F' as <-. exact Hle.
Qed.

Lemma extract_header_without_footer_witness :
  exists s, extract_report_frames [x00; xf8; xf7; xf6; xf5; x11; xf4; xf3; xf2; xf1; xaa; x02]
            = Some ([], drop s [x00; xf8; xf7; xf6; xf5; x11; xf4; xf3; xf2; xf1; xaa; x02])
            /\ occurs_at HDR_RPT s [x00; xf8; xf7; xf6; xf5; x11; xf4; xf3; xf2; xf1; xaa; x02]
            /\ (forall i, occurs_at HDR_RPT i
                            [x00; xf8; xf7; xf6; xf5; x11; xf4; xf3; xf2; xf1; xaa; x02]
                          -> (s <= i)%nat).
Proof.
  apply (extract_header_without_footer
           [x00; xf8; xf7; xf6; xf5; x11; xf4; xf3; xf2; xf1; xaa; x02]).
  - exists 6%nat. reflexivity.
  - intros i j Hi Hj. unfold occurs_at in *.
    assert (Hi2 : (2 <= i)%nat).
    { destruct i as [|[|i]]; [vm_compute in Hi; discriminate.. | lia]. }
    assert (Hj1 : (j <= 1)%nat); [|lia].
    destruct j as [|[|j]]; [lia | lia | exfalso].
    do 11 (destruct j as [|j]; [vm_compute in Hj; discriminate|]).
    rewrite drop_ge in Hj by (simpl; lia). discriminate.
Defined.

End ReportFacts.

(** ** Comparisons on rationals *)

Section QFacts.
Local Open Scope Q_scope.

Lemma Qleb_true x y : Qleb x y = true <-> x <= y.
Proof. apply Qle_bool_iff. Qed.

Lemma Qleb_false x y : Qleb x y = false <-> y < x.
Proof.
  unfold Qleb. split; intros H.
  - apply Qnot_le_lt. intros Hle. apply Qle_bool_iff in Hle. congruence.
  - destruct (Qle_bool x y) eqn:E; [|reflexivity].
    apply Qle_bool_iff in E. exfalso. apply (Qlt_not_le _ _ H E).
Qed.

Lemma Qltb_true x y : Qltb x y = true <-> x < y.
Proof. unfold Qltb. rewrite negb_true_iff. apply Qleb_false. Qed.

Lemma Qltb_false x y : Qltb x y = false <-> y <= x.
Proof. unfold Qltb. rewrite negb_false_iff. apply Qleb_true. Qed.

Lemma Qabs'_nonneg x : 0 <= Qabs' x.
Proof.
  unfold Qabs'. destruct (Qltb x 0) eqn:E.
  - apply Qltb_true in E. lra.
  - apply Qltb_false in E. exact E.
Qed.

Lemma Qabs'_cases x : (x < 0 /\ Qabs' x = - x) \/ (0 <= x /\ Qabs' x = x).
Proof.
  unfold Qabs'. destruct (Qltb x 0) eqn:E.
  - apply Qltb_true in E. now left.
  - apply Qltb_false in E. now right.
Qed.

Lemma Qmax'_cases x y : (x < y /\ Qmax' x y = y) \/ (y <= x /\ Qmax' x y = x).
Proof.
  unfold Qmax'. destruct (Qltb x y) eqn:E.
  - apply Qltb_true in E. now left.
  - apply Qltb_false in E. now right.
Qed.

End QFacts.

(** ** Binary64 rounding: error bounds *)

Section Binary64Facts.
Import Binary64.
Local Open Scope Q_scope.

Lemma pow2_pos e : 0 < pow2 e.
Proof. apply Qpower_0_lt. reflexivity. Qed.

Lemma pow2_le a b : (a <= b)%Z -> pow2 a <= pow2 b.
Proof. intros H. apply Qpower_le_compat_l; [exact H | discriminate]. Qed.

Lemma pow2_le_inv a b : pow2 a <= pow2 b -> (a <= b)%Z.
Proof. intros H. apply (Qpower_le_compat_l_inv 2); [exact H | reflexivity]. Qed.

Lemma pow2_lt_inv a b : pow2 a < pow2 b -> (a < b)%Z.
Proof. intros H. apply (Qpower_lt_compat_l_inv 2); [exact H | reflexivity]. Qed.

Lemma pow2_half k : pow2 (k - 1) == (1#2) * pow2 k.
Proof.
  unfold pow2. rewrite Qpower_minus by discriminate.
  change (2 ^ 1) with 2. field.
Qed.

Lemma pow2_inject (n : Z) : (0 <= n)%Z -> pow2 n == inject_Z (2 ^ n).
Proof. intros H. unfold pow2. rewrite Zpower_Qpower by exact H. reflexivity. Qed.

Lemma round_half_even_error t :
  Qabs (inject_Z (round_half_even t) - t) <= 1#2.
Proof.
  unfold round_half_even.
  pose proof (Qfloor_le t) as Hl. pose proof (Qlt_floor t) as Hu.
  rewrite inject_Z_plus in Hu. change (inject_Z 1) with 1 in Hu.
  apply Qabs_Qle_condition.
  destruct (Qcompare (t - inject_Z (Qfloor t)) (1 # 2)) eqn:C.
  - apply Qeq_alt in C.
    destruct (Z.even (Qfloor t)); [|rewrite inject_Z_plus; change (inject_Z 1) with 1];
      lra.
  - apply Qlt_alt in C. lra.
  - apply Qgt_alt in C. rewrite inject_Z_plus. change (inject_Z 1) with 1. lra.
Qed.

Lemma Qdiv_lt_cross a b c e :
  0 < b -> 0 < e -> a * e < c * b -> a / b < c / e.
Proof.
  intros Hb He H.
  assert (E1 : a / b == (a * e) * / (b * e)) by (field; lra).
  assert (E2 : c / e == (c * b) * / (b * e)) by (field; lra).
  rewrite E1, E2. apply Qmult_lt_compat_r; [|exact H].
  apply Qinv_lt_0_compat.
  rewrite <- (Qmult_0_l e). apply Qmult_lt_compat_r; assumption.
Qed.

(** The numerator over the denominator is more than half of two to the
    difference of their bit lengths. *)
Lemma log2_lower q :
  ~ q == 0 ->
  pow2 (Z.log2 (Z.abs (Qnum q)) - Z.log2 (Z.pos (Qden q)) - 1) < Qabs q.
Proof.
  intros Hq. destruct q as [n d]. cbn [Qnum Qden].
  assert (Hn : (0 < Z.abs n)%Z).
  { destruct n; [exfalso; apply Hq; reflexivity | |]; cbn; lia. }
  pose proof (Z.log2_spec _ Hn) as [Hn1 _].
  pose proof (Z.log2_spec (Z.pos d) ltac:(lia)) as [_ Hd2].
  pose proof (Z.log2_nonneg (Z.abs n)) as Ln.
  pose proof (Z.log2_nonneg (Z.pos d)) as Ld.
  set (ln := Z.log2 (Z.abs n)) in *. set (ld := Z.log2 (Z.pos d)) in *.
  replace (ln - ld - 1)%Z with (ln - (ld + 1))%Z by lia.
  unfold pow2. rewrite Qpower_minus by discriminate.
  fold (pow2 ln). fold (pow2 (ld + 1)).
  rewrite (pow2_inject ln), (pow2_inject (ld + 1)) by lia.
  change (Qabs (n # d)) with (Z.abs n # d).
  assert (Hq' : (Z.abs n # d) == inject_Z (Z.abs n) / inject_Z (Z.pos d)).
  { rewrite (Qmake_Qdiv (Z.abs n) d). reflexivity. }
  rewrite Hq'.
  assert (P1 : 0 < inject_Z (2 ^ (ld + 1))).
  { change 0 with (inject_Z 0). rewrite <- Zlt_Qlt. lia. }
  assert (P2 : 0 < inject_Z (Z.pos d)).
  { change 0 with (inject_Z 0). rewrite <- Zlt_Qlt. lia. }
  apply Qdiv_lt_cross; [exact P1 | exact P2 |].
  rewrite <- !inject_Z_mult, <- Zlt_Qlt.
  replace (Z.succ ld) with (ld + 1)%Z in Hd2 by lia.
  nia.
Qed.

Lemma ilog2_le q k : ~ q == 0 -> Qabs q <= pow2 k -> (ilog2 q <= k)%Z.
Proof.
  intros Hq Hk. unfold ilog2.
  destruct (Qle_bool _ _) eqn:T.
  - apply Qle_bool_iff in T. apply pow2_le_inv. lra.
  - pose proof (log2_lower q Hq) as L.
    assert (L' : pow2 (Z.log2 (Z.abs (Qnum q)) - Z.log2 (Z.pos (Qden q)) - 1) < pow2 k)
      by lra.
    apply pow2_lt_inv in L'. lia.
Qed.

Lemma ulp_exp_le q k :
  ~ q == 0 -> Qabs q <= pow2 k -> (-1022 <= k)%Z -> (ulp_exp q <= k - 52)%Z.
Proof.
  intros Hq Hk Hm. pose proof (ilog2_le q k Hq Hk). unfold ulp_exp. lia.
Qed.

Opaque Qred.

(** The rounding error is at most half a unit in the last place. *)
Lemma b64_error q r :
  b64 q = Some r -> Qabs (r - q) <= (1#2) * pow2 (ulp_exp q).
Proof.
  unfold b64. destruct (Qeq_bool q 0) eqn:Z0.
  - intros [= <-]. apply Qeq_bool_iff in Z0.
    assert (E : 0 - q == 0) by lra. rewrite E. change (Qabs 0) with 0.
    pose proof (pow2_pos (ulp_exp q)). lra.
  - destruct (Qle_bool _ _); [discriminate|]. intros [= <-].
    pose proof (pow2_pos (ulp_exp q)) as P.
    set (e := pow2 (ulp_exp q)) in *.
    pose proof (round_half_even_error (q / e)) as R.
    set (m := inject_Z (round_half_even (q / e))) in *.
    assert (Er : Qred (m * e) == m * e) by apply Qred_correct.
    rewrite Er.
    assert (E : m * e - q == (m - q / e) * e) by (field; lra).
    rewrite E, Qabs_Qmult, (Qabs_pos e) by lra.
    apply Qmult_le_compat_r; [exact R | lra].
Qed.

(** A number of magnitude at most [2^k] inside the normal range rounds
    to a finite float at most [2^(k-53)] away. *)
Lemma b64_bound q k :
  Qabs q <= pow2 k -> (-1022 <= k <= 1022)%Z ->
  exists r, b64 q = Some r /\ Qabs (r - q) <= pow2 (k - 53).
Proof.
  intros Hk Hr.
  assert (Half : pow2 (k - 53) == (1#2) * pow2 (k - 52)).
  { replace (k - 53)%Z with (k - 52 - 1)%Z by lia. apply pow2_half. }
  destruct (Qeq_bool q 0) eqn:Z0.
  - exists 0. unfold b64. rewrite Z0. split; [reflexivity|].
    apply Qeq_bool_iff in Z0.
    assert (E : 0 - q == 0) by lra. rewrite E. change (Qabs 0) with 0.
    pose proof (pow2_pos (k - 53)). lra.
  - assert (Hq : ~ q == 0).
    { intros H. apply Qeq_bool_iff in H. congruence. }
    pose proof (ulp_exp_le q k Hq Hk ltac:(lia)) as Hu.
    apply pow2_le in Hu.
    assert (Err : forall r, b64 q = Some r -> Qabs (r - q) <= pow2 (k - 53)).
    { intros r Hb. pose proof (b64_error q r Hb). lra. }
    destruct (b64 q) as [r|] eqn:B; [exists r; split; [reflexivity | apply Err; reflexivity]|].
    exfalso. unfold b64 in B. rewrite Z0 in B.
    destruct (Qle_bool (pow2 1024) _) eqn:O; [|discriminate].
    apply Qle_bool_iff in O.
    pose proof (pow2_pos (ulp_exp q)) as P.
    set (e := pow2 (ulp_exp q)) in *.
    pose proof (round_half_even_error (q / e)) as R.
    set (m := inject_Z (round_half_even (q / e))) in *.
    assert (Er : Qred (m * e) == m * e) by apply Qred_correct.
    rewrite Er in O.
    assert (E : m * e - q == (m - q / e) * e) by (field; lra).
    assert (D : Qabs (m * e - q) <= (1#2) * e).
    { rewrite E, Qabs_Qmult, (Qabs_pos e) by lra.
      apply Qmult_le_compat_r; [exact R | lra]. }
    pose proof (Qabs_triangle (m * e - q) q) as T.
    assert (E2 : m * e - q + q == m * e) by ring. rewrite E2 in T.
    assert (K1 : pow2 k <= pow2 1022) by (apply pow2_le; lia).
    assert (K2 : pow2 (k - 52) <= pow2 1022) by (apply pow2_le; lia).
    assert (K3 : pow2 1024 == 4 * pow2 1022).
    { unfold pow2. replace 1024%Z with (2 + 1022)%Z by lia.
      rewrite Qpower_plus by discriminate. reflexivity. }
    pose proof (pow2_pos 1022). lra.
Qed.

Transparent Qred.

End Binary64Facts.

(** ** The smoothed distance in binary64 *)

Section DistanceRounding.
Import Binary64.
Local Open Scope Q_scope.

Lemma Qabs_mul_le a b A B : Qabs a <= A -> Qabs b <= B -> Qabs (a * b) <= A * B.
Proof.
  intros Ha Hb. rewrite Qabs_Qmult.
  apply Qmult_le_compat_nonneg; split; try apply Qabs_nonneg; assumption.
Qed.

Lemma mul_close x x0 y y0 e X Y :
  0 <= e <= 1 -> Qabs (x - x0) <= e -> Qabs (y - y0) <= e ->
  Qabs x0 <= X -> Qabs y0 <= Y ->
  Qabs (x * y - x0 * y0) <= e * (X + Y + 1).
Proof.
  intros He Hx Hy HX HY.
  assert (Hyy : Qabs y <= Y + 1).
  { pose proof (Qabs_triangle (y - y0) y0) as T.
    assert (E : y - y0 + y0 == y) by ring. rewrite E in T. lra. }
  pose proof (Qabs_mul_le _ _ _ _ Hx Hyy) as P1.
  pose proof (Qabs_mul_le _ _ _ _ HX Hy) as P2.
  pose proof (Qabs_triangle ((x - x0) * y) (x0 * (y - y0))) as T.
  assert (E : (x - x0) * y + x0 * (y - y0) == x * y - x0 * y0) by ring.
  rewrite E in T.
  assert (E2 : e * (X + Y + 1) == e * (Y + 1) + X * e) by ring.
  lra.
Qed.

Lemma pow2_small k : (k <= -39)%Z -> pow2 k <= 1 # 100000000000.
Proof.
  intros H. apply (Qle_trans _ (pow2 (-39))); [apply pow2_le, H|].
  apply Qle_bool_iff. vm_compute. reflexivity.
Qed.

Lemma b64_near q k :
  Qabs q <= pow2 k -> (-1022 <= k <= 14)%Z ->
  exists r, b64 q = Some r /\ Qabs (r - q) <= 1 # 100000000000.
Proof.
  intros Hq Hk. destruct (b64_bound q k Hq ltac:(lia)) as [r [B E]].
  exists r. split; [exact B|].
  pose proof (pow2_small (k - 53) ltac:(lia)). lra.
Qed.

Lemma Qabs_inject_range (z lo hi : Z) :
  (0 <= z <= hi)%Z -> Qabs (inject_Z z) <= inject_Z hi.
Proof.
  intros [H1 H2]. rewrite Qabs_pos.
  - rewrite <- Zle_Qle. exact H2.
  - change 0 with (inject_Z 0). rewrite <- Zle_Qle. exact H1.
Qed.

(** With [alpha] in [0, 1] and both distances in [0, 6000] no float
    overflows, and the float that is cut is within a millionth of the
    exact weighted sum. *)
Lemma fl_dist_close alpha md d :
  0 <= alpha <= 1 -> (0 <= md <= 6000)%Z -> (0 <= d <= 6000)%Z ->
  exists s, fl_dist alpha md d = Some (Qtrunc s)
            /\ Qabs (s - ((1 - alpha) * inject_Z md + alpha * inject_Z d)) <= 1 # 1000000.
Proof.
  intros Ha Hm Hd. unfold fl_dist.
  pose proof (Qabs_inject_range md 0 6000 Hm) as Am.
  pose proof (Qabs_inject_range d 0 6000 Hd) as Ad.
  change (inject_Z 6000) with 6000 in Am, Ad.
  set (M := inject_Z md) in *. set (D := inject_Z d) in *.
  set (c := 1 # 100000000000).
  assert (Hc : 0 <= c <= 1) by (subst c; split; discriminate).
  assert (Hc' : c <= 1 # 1000) by (subst c; discriminate).
  assert (P0 : pow2 0 == 1) by reflexivity.
  assert (P1 : pow2 1 == 2) by reflexivity.
  assert (P13 : pow2 13 == 8192) by reflexivity.
  assert (P14 : pow2 14 == 16384) by reflexivity.
  assert (Aa : Qabs alpha <= 1) by (apply Qabs_Qle_condition; lra).
  destruct (b64_near alpha 0) as [a0 [-> E0]]; [lra | lia |].
  destruct (b64_near M 13) as [m [-> Em]]; [lra | lia |].
  destruct (b64_near D 13) as [x [-> Ex]]; [lra | lia |].
  fold c in E0, Em, Ex.
  assert (A1 : Qabs (1 - a0) <= 2).
  { apply Qabs_Qle_condition. apply Qabs_diff_Qle_condition in E0. lra. }
  destruct (b64_near (1 - a0) 1) as [a1 [-> E1]]; [lra | lia |]. fold c in E1.
  assert (E1' : Qabs (a1 - (1 - alpha)) <= c + c).
  { apply Qabs_diff_Qle_condition in E0, E1. apply Qabs_diff_Qle_condition. lra. }
  assert (A1a : Qabs (1 - alpha) <= 1) by (apply Qabs_Qle_condition; lra).
  assert (C1 : Qabs (a1 * m - (1 - alpha) * M) <= (c + c) * (1 + 6000 + 1)).
  { apply mul_close; [lra | exact E1' | lra | exact A1a | exact Am]. }
  assert (X1 : Qabs ((1 - alpha) * M) <= 1 * 6000) by (apply Qabs_mul_le; assumption).
  assert (B1 : Qabs (a1 * m) <= 6001).
  { pose proof (Qabs_triangle (a1 * m - (1 - alpha) * M) ((1 - alpha) * M)) as T.
    assert (E : a1 * m - (1 - alpha) * M + (1 - alpha) * M == a1 * m) by ring.
    rewrite E in T. subst c. lra. }
  destruct (b64_near (a1 * m) 13) as [p1 [-> Ep1]]; [lra | lia |]. fold c in Ep1.
  assert (C2 : Qabs (a0 * x - alpha * D) <= c * (1 + 6000 + 1)).
  { apply mul_close; [exact Hc | exact E0 | exact Ex | exact Aa | exact Ad]. }
  assert (X2 : Qabs (alpha * D) <= 1 * 6000) by (apply Qabs_mul_le; assumption).
  assert (B2 : Qabs (a0 * x) <= 6001).
  { pose proof (Qabs_triangle (a0 * x - alpha * D) (alpha * D)) as T.
    assert (E : a0 * x - alpha * D + alpha * D == a0 * x) by ring.
    rewrite E in T. subst c. lra. }
  destruct (b64_near (a0 * x) 13) as [p2 [-> Ep2]]; [lra | lia |]. fold c in Ep2.
  assert (B3 : Qabs (p1 + p2) <= 16384).
  { pose proof (Qabs_triangle p1 p2) as T.
    pose proof (Qabs_triangle (p1 - a1 * m) (a1 * m)) as T1.
    assert (E1x : p1 - a1 * m + a1 * m == p1) by ring. rewrite E1x in T1.
    pose proof (Qabs_triangle (p2 - a0 * x) (a0 * x)) as T2.
    assert (E2x : p2 - a0 * x + a0 * x == p2) by ring. rewrite E2x in T2.
    subst c. lra. }
  destruct (b64_near (p1 + p2) 14) as [s [-> Es]]; [lra | lia |]. fold c in Es.
  exists s. split; [reflexivity|].
  apply Qabs_diff_Qle_condition in Es, Ep1, Ep2, C1, C2.
  apply Qabs_diff_Qle_condition. subst c. lra.
Qed.

Lemma Qtrunc_near_range (s : Q) (hi : Z) E :
  (0 <= hi)%Z -> 0 <= E <= inject_Z hi -> Qabs (s - E) <= 1 # 1000000 ->
  (0 <= Qtrunc s <= hi)%Z.
Proof.
  intros Hh HE Hs. apply Qabs_diff_Qle_condition in Hs.
  unfold Qtrunc, Qltb. destruct (Qle_bool 0 s) eqn:P; cbn [negb].
  - apply Qle_bool_iff in P. split.
    + rewrite <- (Qfloor_Z 0). apply Qfloor_resp_le, P.
    + pose proof (Qfloor_le s) as F.
      assert (L : inject_Z (Qfloor s) < inject_Z (hi + 1)).
      { rewrite inject_Z_plus. change (inject_Z 1) with 1. lra. }
      rewrite <- Zlt_Qlt in L. lia.
  - assert (N : s < 0).
    { destruct (Qlt_le_dec s 0) as [|G]; [assumption|].
      apply Qle_bool_iff in G. congruence. }
    pose proof (Qle_ceiling s) as C1. pose proof (Qceiling_lt s) as C2.
    assert (L1 : inject_Z (Qceiling s - 1) < inject_Z 0) by (change (inject_Z 0) with 0; lra).
    assert (L2 : inject_Z (-1) < inject_Z (Qceiling s)) by (change (inject_Z (-1)) with (-1); lra).
    rewrite <- Zlt_Qlt in L1, L2. lia.
Qed.

Lemma Qtrunc_near_int (s : Q) (d : Z) :
  (0 <= d)%Z -> Qabs (s - inject_Z d) <= 1 # 1000000 ->
  (d - 1 <= Qtrunc s <= d)%Z /\ (0 <= Qtrunc s)%Z.
Proof.
  intros Hd Hs.
  pose proof (Qtrunc_near_range s d (inject_Z d) Hd) as R.
  destruct R as [R0 R1]; [split; [|lra] | exact Hs |].
  { change 0 with (inject_Z 0). rewrite <- Zle_Qle. exact Hd. }
  split; [|exact R0]. split; [|exact R1].
  apply Qabs_diff_Qle_condition in Hs.
  unfold Qtrunc, Qltb in *. destruct (Qle_bool 0 s) eqn:P; cbn [negb] in *.
  - pose proof (Qlt_floor s) as F.
    assert (L : inject_Z (d - 1) < inject_Z (Qfloor s + 1)).
    { assert (Ed : inject_Z (d - 1) == inject_Z d - 1)
        by (unfold Z.sub; rewrite inject_Z_plus; reflexivity).
      assert (Ef : inject_Z (Qfloor s + 1) == inject_Z (Qfloor s) + 1)
        by (rewrite inject_Z_plus; reflexivity).
      lra. }
    rewrite <- Zlt_Qlt in L. lia.
  - assert (N : s < 0).
    { destruct (Qlt_le_dec s 0) as [|G]; [assumption|].
      apply Qle_bool_iff in G. congruence. }
    assert (L : inject_Z d < inject_Z 1) by (change (inject_Z 1) with 1; lra).
    rewrite <- Zlt_Qlt in L. lia.
Qed.

End DistanceRounding.

(** Turn every boolean comparison among the hypotheses into its
    proposition. *)
Ltac qprops :=
  repeat match goal with
         | H : Qleb _ _ = true |- _ => apply Qleb_true in H
         | H : Qleb _ _ = false |- _ => apply Qleb_false in H
         | H : Qltb _ _ = true |- _ => apply Qltb_true in H
         | H : Qltb _ _ = false |- _ => apply Qltb_false in H
         end.

(** Decide a boolean comparison in the goal from the hypotheses. *)
Ltac qdecide b :=
  let E := fresh "E" in
  destruct b eqn:E; qprops; try (exfalso; lra).

(** ** The guarded pairing loop *)

Section CounterFacts.
Import Counter.
Local Open Scope Q_scope.

Lemma pairing_cons args a qA b qB tot :
  pairing args (a :: qA) (b :: qB) tot =
  let '(p, tot', c) := turn args tot a b in
  let '(rA, rB, tot'', cs) :=
    match p with
    | PopA => pairing args qA (b :: qB) tot'
    | PopB => pairing args (a :: qA) qB tot'
    | PopBoth => pairing args qA qB tot'
    end in
  (rA, rB, tot'', match c with Some x => x :: cs | None => cs end).
Proof. reflexivity. Qed.

Lemma pairing_nil_l args qB tot : pairing args [] qB tot = ([], qB, tot, []).
Proof. destruct qB; reflexivity. Qed.

Lemma pairing_nil_r args qA tot : pairing args qA [] tot = (qA, [], tot, []).
Proof. destruct qA; reflexivity. Qed.

(** The minimum-separation guard: heads within the window and closer
    than [min_dt] are both popped, nothing is emitted or counted. *)
Lemma turn_min_dt args tot a b :
  gap args a b <= pair args -> gap args a b < min_dt args ->
  turn args tot a b = (PopBoth, tot, None).
Proof.
  unfold gap, turn. intros Hw Hm.
  qdecide (Qltb (pair args) (Qabs' (edge_time args a - edge_time args b))).
  qdecide (Qltb (Qabs' (edge_time args a - edge_time args b)) (min_dt args)).
  reflexivity.
Qed.

(** What one turn does when every guard passes. *)
Lemma turn_accept args tot a b :
  gap args a b <= pair args -> min_dt args <= gap args a b ->
  amp_guard args a b ->
  refract args <= Qmax' (peak_t a) (peak_t b) - last_cross_t tot ->
  turn args tot a b =
  (PopBoth,
   if Qltb (edge_time args a) (edge_time args b)
   then MkTotals (inbound tot + 1)%Z (outbound tot) (Qmax' (peak_t a) (peak_t b))
   else MkTotals (inbound tot) (outbound tot + 1)%Z (Qmax' (peak_t a) (peak_t b)),
   Some (if Qltb (edge_time args a) (edge_time args b)
         then Cross A_to_B a b (gap args a b) (Qmax' (peak_t a) (peak_t b))
         else Cross B_to_A b a (gap args a b) (Qmax' (peak_t a) (peak_t b)))).
Proof.
  unfold gap, amp_guard, lead_lag, turn. intros Hw Hm Ha Hr.
  qdecide (Qltb (pair args) (Qabs' (edge_time args a - edge_time args b))).
  qdecide (Qltb (Qabs' (edge_time args a - edge_time args b)) (min_dt args)).
  destruct (Qltb (edge_time args a) (edge_time args b)) eqn:Eo; simpl in Ha |- *.
  - qdecide (Qleb (amp_ratio args * peak_amp b) (peak_amp a)). simpl.
    qdecide (Qltb (Qmax' (peak_t a) (peak_t b) - last_cross_t tot) (refract args)).
    reflexivity.
  - qdecide (Qleb (amp_ratio args * peak_amp a) (peak_amp b)). simpl.
    qdecide (Qltb (Qmax' (peak_t a) (peak_t b) - last_cross_t tot) (refract args)).
    reflexivity.
Qed.

(** What one turn does when only the refractory guard fails: the edge
    with the older peak is popped, the other keeps waiting. *)
Lemma turn_refractory args tot a b :
  gap args a b <= pair args -> min_dt args <= gap args a b ->
  amp_guard args a b ->
  Qmax' (peak_t a) (peak_t b) - last_cross_t tot < refract args ->
  turn args tot a b =
  (if Qltb (peak_t a) (peak_t b) then PopA else PopB, tot, None).
Proof.
  unfold gap, amp_guard, lead_lag, turn. intros Hw Hm Ha Hr.
  qdecide (Qltb (pair args) (Qabs' (edge_time args a - edge_time args b))).
  qdecide (Qltb (Qabs' (edge_time args a - edge_time args b)) (min_dt args)).
  destruct (Qltb (edge_time args a) (edge_time args b)) eqn:Eo; simpl in Ha |- *.
  - qdecide (Qleb (amp_ratio args * peak_amp b) (peak_amp a)). simpl.
    qdecide (Qltb (Qmax' (peak_t a) (peak_t b) - last_cross_t tot) (refract args)).
    reflexivity.
  - qdecide (Qleb (amp_ratio args * peak_amp a) (peak_amp b)). simpl.
    qdecide (Qltb (Qmax' (peak_t a) (peak_t b) - last_cross_t tot) (refract args)).
    reflexivity.
Qed.

End CounterFacts.

(** ** The loop of [main]: what the queues can hold *)

Section MainLoopReach.
Import Counter CounterRuns CounterMain.
Local Open Scope Q_scope.

Lemma chain_weaken R F F' q L : F' <= F -> chain R F q L -> chain R F' q L.
Proof.
  intros HF. destruct q as [|e q]; cbn.
  - intros H. lra.
  - intros [H1 [H2 H3]]. repeat split; try tauto; lra.
Qed.

Lemma chain_snoc R e : forall q F L,
  chain R F q L ->
  L <= start_t e -> L + R <= start_t e ->
  start_t e <= peak_t e -> peak_t e <= end_t e ->
  chain R F (q ++ [e]) (end_t e).
Proof.
  induction q as [|x q IH]; intros F L Hc H1 H2 H3 H4; cbn in *.
  - repeat split; try assumption; lra.
  - destruct Hc as [C1 [C2 [C3 [C4 C5]]]]. repeat split; try assumption.
    apply (IH _ L); assumption.
Qed.

(** Popping the head leaves a chain measured from the same time, and
    also one measured from the head's peak. *)
Lemma chain_pop R F e q L :
  chain R F (e :: q) L -> chain R F q L /\ chain R (peak_t e) q L.
Proof.
  cbn. intros [C1 [C2 [C3 [C4 C5]]]].
  split; apply (chain_weaken R (end_t e)); try assumption; lra.
Qed.

Lemma chain_head R F e q L :
  chain R F (e :: q) L -> F + R <= peak_t e.
Proof. cbn. intros [C1 [C2 [C3 [C4 C5]]]]. lra. Qed.

(** One [update] with a stamp not before the last one. *)
Lemma update_ok R d T val ts :
  det_ok R d T -> T <= ts ->
  det_ok R (fst (update d val ts)) ts
  /\ match fst (fst (snd (update d val ts))) with
     | None => last_emit_t (fst (update d val ts)) = last_emit_t d
     | Some e =>
         last_emit_t (fst (update d val ts)) = end_t e
         /\ last_emit_t d <= start_t e /\ last_emit_t d + R <= start_t e
         /\ start_t e <= peak_t e /\ peak_t e <= end_t e
     end.
Proof.
  intros [HR [HL HB]] HT. unfold update, det_ok.
  destruct (in_burst d) eqn:Eb; cbn [negb].
  - destruct (HB eq_refl) as [B1 [B2 [B3 B4]]].
    destruct (Qltb _ (trig_off d) && Qleb (minsep d) _); cbn.
    + split; [split; [exact HR | split; [lra | discriminate]]|].
      split; [reflexivity|]. split; [exact B2|]. split; [exact B1|].
      destruct (Qltb (d_peak_amp d) _); split; lra.
    + split; [|reflexivity].
      split; [exact HR|]. split; [lra|]. intros _.
      split; [exact B1|]. split; [exact B2|].
      destruct (Qltb (d_peak_amp d) _); split; lra.
  - destruct (Qleb (trig_on d) _ && Qleb (det_refractory d) _) eqn:Eo; cbn.
    + apply andb_true_iff in Eo as [_ Eo]. apply Qleb_true in Eo. rewrite HR in Eo.
      split; [|reflexivity].
      split; [exact HR|]. split; [lra|]. intros _. repeat split; lra.
    + split; [|reflexivity].
      split; [exact HR|]. split; [lra|]. discriminate.
Qed.

Lemma det_ok_later R d T T' : det_ok R d T -> T <= T' -> det_ok R d T'.
Proof.
  intros [HR [HL HB]] HT. split; [exact HR|]. split; [lra|].
  intros Hb. destruct (HB Hb) as [B1 [B2 [B3 B4]]]. repeat split; lra.
Qed.

(** One detector update of the tick keeps the detector and its queue in
    step. *)
Lemma feed_ok R d T F q val ts :
  det_ok R d T -> chain R F q (last_emit_t d) -> T <= ts ->
  det_ok R (fst (feed_detector d q val ts)) ts
  /\ chain R F (snd (feed_detector d q val ts))
           (last_emit_t (fst (feed_detector d q val ts))).
Proof.
  intros Hd Hc HT. unfold feed_detector.
  destruct (Qeq_bool ts 0); cbn [fst snd].
  - split; [apply (det_ok_later R d T); assumption | exact Hc].
  - destruct (update_ok R d T val ts Hd HT) as [U1 U2].
    destruct (update d val ts) as [d' [[ev dl] m']]. cbn [fst snd] in *.
    split; [exact U1|].
    destruct ev as [e|].
    + destruct U2 as [-> [E1 [E2 [E3 E4]]]].
      apply (chain_snoc R e q F (last_emit_t d)); assumption.
    + rewrite U2. exact Hc.
Qed.

(** A turn either leaves the totals alone and accepts nothing, or pops
    both heads and sets the last crossing time to the later peak. *)
Lemma turn_outcome args tot a b :
  (snd (fst (turn args tot a b)) = tot /\ snd (turn args tot a b) = None)
  \/ (fst (fst (turn args tot a b)) = PopBoth
      /\ last_cross_t (snd (fst (turn args tot a b))) = Qmax' (peak_t a) (peak_t b)).
Proof.
  unfold turn.
  destruct (Qltb (pair args) _); [left; split; reflexivity|].
  destruct (Qltb _ (min_dt args)); [left; split; reflexivity|].
  destruct (Qltb (edge_time args a) (edge_time args b)).
  - destruct (Qleb _ (peak_amp a)); cbn [negb]; [|left; split; reflexivity].
    destruct (Qltb _ (refract args)); [left; split; reflexivity|].
    right. split; reflexivity.
  - destruct (Qleb _ (peak_amp b)); cbn [negb]; [|left; split; reflexivity].
    destruct (Qltb _ (refract args)); [left; split; reflexivity|].
    right. split; reflexivity.
Qed.

Lemma Qmax'_le x y x' y' : x <= x' -> y <= y' -> Qmax' x y <= Qmax' x' y'.
Proof.
  intros Hx Hy.
  destruct (Qmax'_cases x y) as [[_ ->]|[_ ->]];
    destruct (Qmax'_cases x' y') as [[? ->]|[? ->]]; lra.
Qed.

(** One turn of the pairing loop keeps the queues in order. *)
Lemma turn_queues_ok args a qA b qB tot LA LB :
  queues_ok (refract args) (a :: qA) (b :: qB) tot LA LB ->
  let '(p, tot', _) := turn args tot a b in
  match p with
  | PopA => queues_ok (refract args) qA (b :: qB) tot' LA LB
  | PopB => queues_ok (refract args) (a :: qA) qB tot' LA LB
  | PopBoth => queues_ok (refract args) qA qB tot' LA LB
  end.
Proof.
  intros [FA [FB [CA [CB Hl]]]].
  destruct (chain_pop _ _ _ _ _ CA) as [CA1 CA2].
  destruct (chain_pop _ _ _ _ _ CB) as [CB1 CB2].
  destruct (turn_outcome args tot a b) as [[E1 _]|[E1 E2]];
    destruct (turn args tot a b) as [[p tot'] c]; cbn [fst snd] in *.
  - subst tot'. destruct p.
    + exists FA, FB. auto.
    + exists FA, FB. auto.
    + exists FA, FB. auto.
  - subst p. exists (peak_t a), (peak_t b).
    split; [exact CA2|]. split; [exact CB2|]. rewrite E2. lra.
Qed.

(** The whole pairing loop keeps the queues in order. *)
Lemma pairing_queues_ok args LA LB : forall qA qB tot,
  queues_ok (refract args) qA qB tot LA LB ->
  let '(rA, rB, tot', _) := pairing args qA qB tot in
  queues_ok (refract args) rA rB tot' LA LB.
Proof.
  induction qA as [|a qA IHA]; intros qB.
  - intros tot H. rewrite pairing_nil_l. exact H.
  - induction qB as [|b qB IHB]; intros tot H.
    + rewrite pairing_nil_r. exact H.
    + rewrite pairing_cons.
      pose proof (turn_queues_ok args a qA b qB tot LA LB H) as T.
      destruct (turn args tot a b) as [[p tot'] c].
      destruct p.
      * specialize (IHA (b :: qB) tot' T).
        destruct (pairing args qA (b :: qB) tot') as [[[rA rB] tot''] cs]. exact IHA.
      * specialize (IHB tot' T).
        destruct (pairing args (a :: qA) qB tot') as [[[rA rB] tot''] cs]. exact IHB.
      * specialize (IHA qB tot' T).
        destruct (pairing args qA qB tot') as [[[rA rB] tot''] cs]. exact IHA.
Qed.

(** What the pairing loop of a tick starts from. *)
Lemma tick_feeds_ok args TA TB m vA tA vB tB :
  main_ok (refract args) TA TB m -> TA <= tA -> TB <= tB ->
  det_ok (refract args) (fst (feed_detector (detA m) (queueA m) vA tA)) tA
  /\ det_ok (refract args) (fst (feed_detector (detB m) (queueB m) vB tB)) tB
  /\ queues_ok (refract args)
               (snd (feed_detector (detA m) (queueA m) vA tA))
               (snd (feed_detector (detB m) (queueB m) vB tB))
               (totals m)
               (last_emit_t (fst (feed_detector (detA m) (queueA m) vA tA)))
               (last_emit_t (fst (feed_detector (detB m) (queueB m) vB tB))).
Proof.
  intros [DA [DB [FA [FB [CA [CB Hl]]]]]] HA HB.
  destruct (feed_ok _ _ _ FA _ vA tA DA CA HA) as [DA' CA'].
  destruct (feed_ok _ _ _ FB _ vB tB DB CB HB) as [DB' CB'].
  split; [exact DA'|]. split; [exact DB'|].
  exists FA, FB. auto.
Qed.

Lemma tick_ok args TA TB m vA tA vB tB :
  main_ok (refract args) TA TB m -> TA <= tA -> TB <= tB ->
  main_ok (refract args) tA tB (fst (tick args (vA, tA) (vB, tB) m)).
Proof.
  intros Hm HA HB.
  destruct (tick_feeds_ok args TA TB m vA tA vB tB Hm HA HB) as [DA [DB Hq]].
  unfold tick. cbn [fst snd].
  destruct (feed_detector (detA m) (queueA m) vA tA) as [dA qA1].
  destruct (feed_detector (detB m) (queueB m) vB tB) as [dB qB1].
  cbn [fst snd] in *.
  pose proof (pairing_queues_ok args _ _ qA1 qB1 (totals m) Hq) as P.
  destruct (pairing args qA1 qB1 (totals m)) as [[[qA2 qB2] tot] cs].
  cbn [fst]. split; [exact DA|]. split; [exact DB|]. exact P.
Qed.

(** Every state the loop reaches has its queues in order. *)
Lemma main_reach_ok args ema trigA trigB hys msep TA TB m :
  main_reach args ema trigA trigB hys msep TA TB m ->
  main_ok (refract args) TA TB m.
Proof.
  induction 1 as [|TA TB m vA tA vB tB Hr IH HA HB].
  - unfold main_ok, det_ok, queues_ok, initial_main, new_detector; cbn.
    split; [split; [reflexivity | split; [lra | discriminate]]|].
    split; [split; [reflexivity | split; [lra | discriminate]]|].
    exists 0, 0. cbn. repeat split; try lra.
    destruct (Qmax'_cases 0 0) as [[_ ->]|[_ ->]]; lra.
  - apply (tick_ok args TA TB); assumption.
Qed.

(** In the loop of [main] the refractory guard of the pairing loop
    never holds a candidate back: the later peak of two queue heads is
    at least [refract] after the last crossing time. *)
Lemma heads_pass_refractory args a qA b qB tot LA LB :
  queues_ok (refract args) (a :: qA) (b :: qB) tot LA LB ->
  refract args <= Qmax' (peak_t a) (peak_t b) - last_cross_t tot.
Proof.
  intros [FA [FB [CA [CB Hl]]]].
  apply chain_head in CA. apply chain_head in CB.
  destruct (Qmax'_cases FA FB) as [[_ E]|[_ E]]; rewrite E in Hl;
    destruct (Qmax'_cases (peak_t a) (peak_t b)) as [[? ->]|[? ->]]. all: lra.
Qed.

End MainLoopReach.

Section PairingGuards.
Import Counter CounterRuns CounterMain.
Local Open Scope Q_scope.

(** Whatever a turn accepts satisfies the amplitude guard, with the
    earlier edge as lead. *)
Lemma turn_emits_guarded args tot a b p tot' c :
  turn args tot a b = (p, tot', Some c) ->
  c_lead c = fst (lead_lag args a b)
  /\ c_lag c = snd (lead_lag args a b)
  /\ amp_ratio args * peak_amp (c_lag c) <= peak_amp (c_lead c).
Proof.
  unfold turn, lead_lag.
  destruct (Qltb (pair args) _); [discriminate|].
  destruct (Qltb _ (min_dt args)); [discriminate|].
  destruct (Qltb (edge_time args a) (edge_time args b)); simpl.
  - destruct (Qleb (amp_ratio args * peak_amp b) (peak_amp a)) eqn:G;
      simpl; [|discriminate].
    destruct (Qltb _ (refract args)); [discriminate|].
    intros [= _ _ <-]. simpl. qprops. auto.
  - destruct (Qleb (amp_ratio args * peak_amp a) (peak_amp b)) eqn:G;
      simpl; [|discriminate].
    destruct (Qltb _ (refract args)); [discriminate|].
    intros [= _ _ <-]. simpl. qprops. auto.
Qed.

(** Inside the window, a failing amplitude guard pops both heads. *)
Lemma turn_amp_fails args tot a b :
  gap args a b <= pair args -> ~ amp_guard args a b ->
  turn args tot a b = (PopBoth, tot, None).
Proof.
  unfold gap, amp_guard, lead_lag, turn. intros Hw Ha.
  qdecide (Qltb (pair args) (Qabs' (edge_time args a - edge_time args b))).
  destruct (Qltb _ (min_dt args)); [reflexivity|].
  destruct (Qltb (edge_time args a) (edge_time args b)); simpl in Ha |- *.
  - destruct (Qleb (amp_ratio args * peak_amp b) (peak_amp a)) eqn:G;
      [qprops; contradiction | reflexivity].
  - destruct (Qleb (amp_ratio args * peak_amp a) (peak_amp b)) eqn:G;
      [qprops; contradiction | reflexivity].
Qed.

(** Every crossing the whole loop accepts satisfies the amplitude guard. *)
Lemma pairing_all_guarded args : forall qA qB tot,
  Forall (fun c => amp_ratio args * peak_amp (c_lag c) <= peak_amp (c_lead c))
         (snd (pairing args qA qB tot)).
Proof.
  induction qA as [|a qA IHA]; intros qB.
  - intros tot. rewrite pairing_nil_l. constructor.
  - induction qB as [|b qB IHB]; intros tot.
    + rewrite pairing_nil_r. constructor.
    + rewrite pairing_cons.
      destruct (turn args tot a b) as [[p tot'] c] eqn:T.
      assert (Hrest : Forall (fun c => amp_ratio args * peak_amp (c_lag c)
                                       <= peak_amp (c_lead c))
                        (snd (match p with
                              | PopA => pairing args qA (b :: qB) tot'
                              | PopB => pairing args (a :: qA) qB tot'
                              | PopBoth => pairing args qA qB tot'
                              end))).
      { destruct p; [apply IHA | apply IHB | apply IHA]. }
      destruct (match p with
                | PopA => pairing args qA (b :: qB) tot'
                | PopB => pairing args (a :: qA) qB tot'
                | PopBoth => pairing args qA qB tot'
                end) as [[[rA rB] tot''] cs].
      simpl in *. destruct c as [c|]; [|exact Hrest].
      constructor; [|exact Hrest].
      apply (turn_emits_guarded _ _ _ _ _ _ _ T).
Qed.

(** C2.  Two queue heads inside the pairing window whose times differ
    by less than [min_dt] are both discarded and nothing is emitted or
    counted; and when a tick of [main] leaves an A edge at [t0] and a B
    edge at [t0 + 0.5] as the two queues, under [pair = 0.8],
    [min_dt = 0.1] and with the amplitude guard satisfied, the tick
    accepts exactly one crossing, A to B, and empties both queues. *)
Theorem pairer_min_separation args tot a b :
  (forall qA qB,
      gap args a b <= pair args -> gap args a b < min_dt args ->
      pairing args (a :: qA) (b :: qB) tot = pairing args qA qB tot)
  /\ (forall ema trigA trigB hys msep TA TB m vA tA vB tB dA dB t0,
      main_reach args ema trigA trigB hys msep TA TB m ->
      TA <= tA -> TB <= tB -> totals m = tot ->
      feed_detector (detA m) (queueA m) vA tA = (dA, [a]) ->
      feed_detector (detB m) (queueB m) vB tB = (dB, [b]) ->
      edge_time args a == t0 -> edge_time args b == t0 + (1#2) ->
      pair args == 8#10 -> min_dt args == 1#10 ->
      amp_ratio args * peak_amp b <= peak_amp a ->
      tick args (vA, tA) (vB, tB) m =
      (MkMain dA dB [] []
              (MkTotals (inbound tot + 1)%Z (outbound tot)
                        (Qmax' (peak_t a) (peak_t b))),
       [Cross A_to_B a b (gap args a b) (Qmax' (peak_t a) (peak_t b))])).
Proof.
  split.
  - intros qA qB Hw Hm. rewrite pairing_cons, turn_min_dt by assumption.
    destruct (pairing args qA qB tot) as [[[rA rB] tot''] cs]. reflexivity.
  - intros ema trigA trigB hys msep TA TB m vA tA vB tB dA dB t0
           Hreach HA HB Htot FA FB Ha Hb Hp Hm Hamp.
    assert (Hlt : edge_time args a < edge_time args b) by lra.
    assert (Hg : gap args a b == 1#2).
    { unfold gap. destruct (Qabs'_cases (edge_time args a - edge_time args b))
        as [[_ ->]|[Hge _]]; lra. }
    pose proof (main_reach_ok _ _ _ _ _ _ _ _ _ Hreach) as Hok.
    destruct (tick_feeds_ok args TA TB m vA tA vB tB Hok HA HB) as [_ [_ Hq]].
    rewrite FA, FB, Htot in Hq. cbn [fst snd] in Hq.
    apply heads_pass_refractory in Hq.
    unfold tick. cbn [fst snd]. rewrite FA, FB, Htot.
    rewrite pairing_cons, turn_accept.
    + apply Qltb_true in Hlt. rewrite Hlt. reflexivity.
    + lra.
    + lra.
    + unfold amp_guard, lead_lag. apply Qltb_true in Hlt. rewrite Hlt. exact Hamp.
    + exact Hq.
Qed.

Lemma pairer_min_separation_witness :
  pairing demo_args [demo_a] [demo_b_close] (MkTotals 0 0 0)
  = pairing demo_args [] [] (MkTotals 0 0 0)
  /\ tick demo_args (50%Z, 104#10) (50%Z, 109#10) bench_before
     = (MkMain (fst (feed_detector (detA bench_before) (queueA bench_before)
                                   50 (104#10)))
               (fst (feed_detector (detB bench_before) (queueB bench_before)
                                   50 (109#10)))
               [] []
               (MkTotals (0 + 1)%Z 0 (Qmax' (peak_t bench_a) (peak_t bench_b))),
        [Cross A_to_B bench_a bench_b (gap demo_args bench_a bench_b)
               (Qmax' (peak_t bench_a) (peak_t bench_b))]).
Proof.
  split.
  - apply (proj1 (pairer_min_separation demo_args (MkTotals 0 0 0) demo_a demo_b_close));
      [apply Qleb_true | apply Qltb_true]; reflexivity.
  - apply (proj2 (pairer_min_separation demo_args (MkTotals 0 0 0) bench_a bench_b)
             (7#100) 12 12 (6#10) (35#100) (104#10) (105#10) bench_before
             50%Z (104#10) 50%Z (109#10) _ _ 10).
    + unfold bench_before, bench_tick.
      apply (reach_tick _ _ _ _ _ _ (104#10) 1);
        [apply (reach_tick _ _ _ _ _ _ 10 1);
         [apply (reach_tick _ _ _ _ _ _ 1 1);
          [apply (reach_tick _ _ _ _ _ _ 0 0); [apply reach_init|..]|..]|..]|..];
        apply Qleb_true; reflexivity.
    + apply Qleb_true; reflexivity.
    + apply Qleb_true; reflexivity.
    + reflexivity.
    + vm_compute. reflexivity.
    + vm_compute. reflexivity.
    + reflexivity.
    + reflexivity.
    + reflexivity.
    + reflexivity.
    + apply Qleb_true; reflexivity.
Defined.

(** C3.  For a candidate formed from the two queue heads inside the
    pairing window: a crossing is emitted only if the lead's peak
    amplitude is at least [amp_ratio] times the lag's; and when that
    guard fails both heads are discarded and the loop goes on as if
    they had never been queued (nothing emitted, nothing counted). *)
Theorem pairer_amplitude_guard args tot a b :
  gap args a b <= pair args ->
  (forall p tot' c,
      turn args tot a b = (p, tot', Some c) ->
      c_lead c = fst (lead_lag args a b)
      /\ c_lag c = snd (lead_lag args a b)
      /\ amp_guard args a b)
  /\ (~ amp_guard args a b ->
      turn args tot a b = (PopBoth, tot, None)
      /\ forall qA qB,
          pairing args (a :: qA) (b :: qB) tot = pairing args qA qB tot).
Proof.
  intros Hw. split.
  - intros p tot' c T.
    destruct (turn_emits_guarded _ _ _ _ _ _ _ T) as [Hl [Hg Ha]].
    unfold amp_guard. rewrite <- Hl, <- Hg. auto.
  - intros Hn. pose proof (turn_amp_fails args tot a b Hw Hn) as T.
    split; [exact T|]. intros qA qB. rewrite pairing_cons, T.
    destruct (pairing args qA qB tot) as [[[rA rB] tot''] cs]. reflexivity.
Qed.

Definition strict_args : Args := MkArgs (8#10) 1 ModeStart (1#10) 2.

Lemma pairer_amplitude_guard_witness :
  (forall p tot' c,
      turn strict_args (MkTotals 0 0 0) demo_a demo_b = (p, tot', Some c) ->
      c_lead c = fst (lead_lag strict_args demo_a demo_b)
      /\ c_lag c = snd (lead_lag strict_args demo_a demo_b)
      /\ amp_guard strict_args demo_a demo_b)
  /\ turn strict_args (MkTotals 0 0 0) demo_a demo_b = (PopBoth, MkTotals 0 0 0, None)
  /\ pairing strict_args [demo_a] [demo_b] (MkTotals 0 0 0)
     = pairing strict_args [] [] (MkTotals 0 0 0).
Proof.
  assert (Hw : gap strict_args demo_a demo_b <= pair strict_args)
    by (apply Qleb_true; reflexivity).
  assert (Hn : ~ amp_guard strict_args demo_a demo_b)
    by (intros H; apply Qleb_true in H; discriminate H).
  destruct (pairer_amplitude_guard strict_args (MkTotals 0 0 0) demo_a demo_b Hw)
    as [H1 H2].
  split; [exact H1|]. destruct (H2 Hn) as [H3 H4].
  split; [exact H3 | exact (H4 [] [])].
Defined.

(** C5.  Two pairs, both passing the window, minimum-separation and
    amplitude guards, the first also the refractory guard, and the
    second's crossing time less than [refract] after the first's: only
    the first is counted.  The loop accepts one crossing (the first
    pair's), raises one direction total by one, pops the edge of the
    second pair with the older peak and leaves the other one queued.
    This holds when both pairs are queued together and when the second
    pair is queued after the first was counted. *)
Theorem refractory_second_not_counted args tot a1 b1 a2 b2 :
  gap args a1 b1 <= pair args -> min_dt args <= gap args a1 b1 ->
  amp_guard args a1 b1 ->
  refract args <= Qmax' (peak_t a1) (peak_t b1) - last_cross_t tot ->
  gap args a2 b2 <= pair args -> min_dt args <= gap args a2 b2 ->
  amp_guard args a2 b2 ->
  Qmax' (peak_t a2) (peak_t b2) - Qmax' (peak_t a1) (peak_t b1) < refract args ->
  exists tot' c1,
    pairing args [a1; a2] [b1; b2] tot
    = (if Qltb (peak_t a2) (peak_t b2) then [] else [a2],
       if Qltb (peak_t a2) (peak_t b2) then [b2] else [],
       tot', [c1])
    /\ pairing args [a1] [b1] tot = ([], [], tot', [c1])
    /\ pairing args [a2] [b2] tot'
       = (if Qltb (peak_t a2) (peak_t b2) then [] else [a2],
          if Qltb (peak_t a2) (peak_t b2) then [b2] else [],
          tot', [])
    /\ c_lead c1 = fst (lead_lag args a1 b1)
    /\ c_lag c1 = snd (lead_lag args a1 b1)
    /\ c_time c1 = Qmax' (peak_t a1) (peak_t b1)
    /\ last_cross_t tot' = Qmax' (peak_t a1) (peak_t b1)
    /\ (inbound tot' + outbound tot' = inbound tot + outbound tot + 1)%Z.
Proof.
  intros Hw1 Hm1 Ha1 Hr1 Hw2 Hm2 Ha2 Hr2.
  pose proof (turn_accept args tot a1 b1 Hw1 Hm1 Ha1 Hr1) as T1.
  set (tot1 := if Qltb (edge_time args a1) (edge_time args b1)
               then MkTotals (inbound tot + 1)%Z (outbound tot)
                             (Qmax' (peak_t a1) (peak_t b1))
               else MkTotals (inbound tot) (outbound tot + 1)%Z
                             (Qmax' (peak_t a1) (peak_t b1))) in *.
  assert (Hl : last_cross_t tot1 = Qmax' (peak_t a1) (peak_t b1))
    by (subst tot1; destruct (Qltb (edge_time args a1) (edge_time args b1)); reflexivity).
  assert (Hc : (inbound tot1 + outbound tot1 = inbound tot + outbound tot + 1)%Z)
    by (subst tot1; destruct (Qltb (edge_time args a1) (edge_time args b1)); simpl; lia).
  assert (T2 : turn args tot1 a2 b2
               = (if Qltb (peak_t a2) (peak_t b2) then PopA else PopB, tot1, None)).
  { apply turn_refractory; try assumption. rewrite Hl. exact Hr2. }
  exists tot1. eexists.
  split; [rewrite pairing_cons, T1, pairing_cons, T2;
          destruct (Qltb (peak_t a2) (peak_t b2)); reflexivity|].
  split; [rewrite pairing_cons, T1; reflexivity|].
  split; [rewrite pairing_cons, T2;
          destruct (Qltb (peak_t a2) (peak_t b2)); reflexivity|].
  unfold lead_lag.
  destruct (Qltb (edge_time args a1) (edge_time args b1)); simpl; auto.
Qed.

Lemma refractory_second_not_counted_witness :
  exists tot' c1,
    pairing demo_args [demo_a; demo_a2] [demo_b; demo_b2] (MkTotals 0 0 0)
    = (if Qltb (peak_t demo_a2) (peak_t demo_b2) then [] else [demo_a2],
       if Qltb (peak_t demo_a2) (peak_t demo_b2) then [demo_b2] else [],
       tot', [c1])
    /\ pairing demo_args [demo_a] [demo_b] (MkTotals 0 0 0) = ([], [], tot', [c1])
    /\ pairing demo_args [demo_a2] [demo_b2] tot'
       = (if Qltb (peak_t demo_a2) (peak_t demo_b2) then [] else [demo_a2],
          if Qltb (peak_t demo_a2) (peak_t demo_b2) then [demo_b2] else [],
          tot', [])
    /\ c_lead c1 = fst (lead_lag demo_args demo_a demo_b)
    /\ c_lag c1 = snd (lead_lag demo_args demo_a demo_b)
    /\ c_time c1 = Qmax' (peak_t demo_a) (peak_t demo_b)
    /\ last_cross_t tot' = Qmax' (peak_t demo_a) (peak_t demo_b)
    /\ (inbound tot' + outbound tot' = 0 + 0 + 1)%Z.
Proof.
  apply (refractory_second_not_counted demo_args (MkTotals 0 0 0)
           demo_a demo_b demo_a2 demo_b2);
    try (apply Qleb_true; reflexivity); apply Qltb_true; reflexivity.
Defined.

End PairingGuards.

(** ** Direction events, classifier and counters of rd03e_scope.py *)

Section ScopeFacts.
Import Scope.
Local Open Scope Q_scope.

Lemma or_zero_Some q : or_zero (Some q) == q.
Proof.
  unfold or_zero. destruct (Qeq_bool q 0) eqn:E; [|reflexivity].
  apply Qeq_bool_iff in E. now rewrite E.
Qed.




(** The spec's figures: 0.56 m in 0.4 s is 1.4 m/s and, with a peak of
    50 against a minimum of 40, a "car"; with a peak of 30 and the same
    timing, "other". *)
Example classifier_example_target :
  let ev := classify demo_params strong_hist A2B (1004#10) (Some 100) (Some (1004#10)) in
  (exists v, e_speed_mps ev = Some v /\ v == 14#10) /\ e_class ev = Some Car.
Proof. split; [eexists; split; reflexivity | reflexivity]. Qed.

Example classifier_example_other :
  let ev := classify demo_params weak_hist A2B (1004#10) (Some 100) (Some (1004#10)) in
  (exists v, e_speed_mps ev = Some v /\ v == 14#10) /\ e_class ev = Some Other.
Proof. split; [eexists; split; reflexivity | reflexivity]. Qed.

(** In binary64 the same figures give a speed a little below 1.4 m/s
    (1.39999999999998...): the two rise times 100.0 and 100.4 are
    0.4000000000000057 apart as floats. *)
Example classifier_speed_in_binary64 :
  exists v, Binary64.fl_speed 56 100 (1004#10) = Some v
            /\ v < (14#10) /\ (14#10) - v <= 1 # 10000000000000.
Proof.
  eexists. split; [vm_compute; reflexivity|]. split; [reflexivity | discriminate].
Qed.

(** The duration the classifier records and compares is the larger of
    the two configured hold times. *)
Lemma classifier_duration_is_hold p eh evt now ra rb :
  e_duration_s (classify p eh evt now ra rb) = Some (Qmax' (holdA p) (holdB p)).
Proof.
  unfold classify.
  destruct (feat (hist_A eh)), (feat (hist_B eh)). reflexivity.
Qed.


(** [_emit_dir_edge] keeps the pending slot and the rise table in
    agreement. *)
Lemma emit_dir_edge_inv s now eh le d st :
  dir_inv d -> dir_inv (snd (fst (emit_dir_edge s now eh le d st))).
Proof.
  intros Hd. unfold emit_dir_edge.
  destruct (Qltb (now - le) (5#100)); [exact Hd|].
  destruct (Qltb now (refract_until d)); [exact Hd|].
  assert (Hset : dir_inv (MkDir (Some s) now (refract_until d) (last d) (last_ts d)
                                (Some (set_rise s now (rise_ts d))))).
  { unfold dir_inv, set_rise. simpl.
    destruct (rise_ts d) as [[ra rb]|]; destruct s; eauto. }
  destruct (pending d) as [pend|]; [|exact Hset].
  destruct (negb (side_eqb pend s) && Qleb (now - ts d) (pair (params st)));
    [|exact Hset].
  destruct (Qleb (minsep (params st)) (now - last_ts d)); exact I.
Qed.

Lemma initial_dir_inv : dir_inv initial_dir.
Proof. exact I. Qed.

(** When a pair is accepted, the classifier is given the pending edge's
    time and [now] as the two rise times: its [dt] is the gap between
    the lead edge and the lag edge. *)
Lemma emit_dir_edge_accept s now eh le d st pend :
  dir_inv d -> pending d = Some pend -> side_eqb pend s = false ->
  5#100 <= now - le -> refract_until d <= now ->
  now - ts d <= pair (params st) -> minsep (params st) <= now - last_ts d ->
  let evt := match pend with A => A2B | B => B2A end in
  let ev := match s with
            | A => classify (params st) eh evt now (Some now) (Some (ts d))
            | B => classify (params st) eh evt now (Some (ts d)) (Some now)
            end in
  snd (emit_dir_edge s now eh le d st)
  = set_counts (count_event evt (match e_class ev with Some Car => Car | _ => Other end)
                            ev (counts st)) st
  /\ last (snd (fst (emit_dir_edge s now eh le d st))) = Some evt
  /\ refract_until (snd (fst (emit_dir_edge s now eh le d st))) = now + refract (params st).
Proof.
  intros Hd Hp Hne Hdeb Hrf Hw Hms. cbv zeta. unfold emit_dir_edge.
  apply Qltb_false in Hdeb. rewrite Hdeb.
  apply Qltb_false in Hrf. rewrite Hrf.
  unfold dir_inv in Hd. rewrite Hp in Hd |- *.
  destruct Hd as [ra [rb [Hr Hts]]].
  rewrite Hne. apply Qleb_true in Hw. rewrite Hw. cbn [negb andb].
  apply Qleb_true in Hms. rewrite Hms.
  rewrite Hr. unfold set_rise.
  destruct pend, s; try discriminate; simpl in Hts; subst; simpl; auto.
Qed.

(** Inside the refractory period a rising edge changes neither [DIR]
    nor the counters: a second pair of edges arriving before
    [refract_until] counts nothing. *)
Lemma emit_dir_edge_refractory s now eh le d st :
  now < refract_until d ->
  snd (fst (emit_dir_edge s now eh le d st)) = d
  /\ snd (emit_dir_edge s now eh le d st) = st.
Proof.
  intros H. unfold emit_dir_edge.
  destruct (Qltb (now - le) (5#100)); [auto|].
  apply Qltb_true in H. rewrite H. auto.
Qed.

(** A call of [_emit_dir_edge] leaves [STATE] alone or replaces its
    counters by the result of one [count_event]. *)
Lemma emit_dir_edge_state s now eh le d st :
  snd (emit_dir_edge s now eh le d st) = st
  \/ exists evt cls ev,
      snd (emit_dir_edge s now eh le d st)
      = set_counts (count_event evt cls ev (counts st)) st.
Proof.
  unfold emit_dir_edge.
  destruct (Qltb (now - le) (5#100)); [now left|].
  destruct (Qltb now (refract_until d)); [now left|].
  destruct (pending d) as [pend|]; [|now left].
  destruct (negb (side_eqb pend s) && Qleb (now - ts d) (pair (params st)));
    [|now left].
  destruct (Qleb (minsep (params st)) (now - last_ts d)); [|now left].
  right. eauto.
Qed.

Lemma count_event_balanced evt cls ev c :
  balanced c -> balanced (count_event evt cls ev c).
Proof. unfold balanced. destruct evt, cls; simpl; lia. Qed.

(** C10.  An accepted crossing raises exactly one direction counter and
    exactly one class counter, each by one; a reset zeroes all four (and
    drops the retained event); hence in every reachable state
    [count_A2B + count_B2A = count_total + count_other]. *)
Theorem counters_balance :
  (forall evt cls ev c,
      let c' := count_event evt cls ev c in
      ((count_A2B c' = count_A2B c + 1 /\ count_B2A c' = count_B2A c)
       \/ (count_A2B c' = count_A2B c /\ count_B2A c' = count_B2A c + 1))%Z
      /\ ((count_total c' = count_total c + 1 /\ count_other c' = count_other c)
          \/ (count_total c' = count_total c /\ count_other c' = count_other c + 1))%Z
      /\ last_event c' = Some ev)
  /\ (forall st, counts (counts_reset st) = MkCounts 0 0 0 0 None)
  /\ (forall d st, reachable d st -> balanced (counts st)).
Proof.
  split; [|split].
  - intros evt cls ev c. destruct evt, cls; simpl; auto.
  - reflexivity.
  - intros d st H. induction H as [|s now eh le d st _ IH|d st _ IH|p d st _ IH].
    + reflexivity.
    + destruct (emit_dir_edge_state s now eh le d st) as [->|[evt [cls [ev ->]]]];
        [exact IH|].
      simpl. apply count_event_balanced. exact IH.
    + reflexivity.
    + exact IH.
Qed.

Lemma counters_balance_witness :
  balanced (counts (snd after_AB))
  /\ count_A2B (counts (snd after_AB)) = 1%Z
  /\ count_total (counts (snd after_AB)) = 1%Z
  /\ balanced (counts (counts_reset (snd after_AB))).
Proof.
  assert (R : reachable (snd (fst after_AB)) (snd after_AB)).
  { unfold after_AB, after_A. apply reach_edge, reach_edge, reach_params, reach_init. }
  split; [exact (proj2 (proj2 counters_balance) _ _ R)|].
  split; [reflexivity|]. split; [reflexivity|].
  exact (proj2 (proj2 counters_balance) _ _ (reach_reset _ _ R)).
Defined.

End ScopeFacts.

(** ** The reader thread: trigger edges and the baseline update *)

Section ReaderFacts.
Import Scope Reader.
Local Open Scope Q_scope.
Variable sqrt : Q -> Q.

(** [_emit_dir_edge] writes nothing of [STATE] but the counters. *)
Lemma emit_dir_edge_keeps s now eh le d st :
  let st' := snd (emit_dir_edge s now eh le d st) in
  params st' = params st /\ a_ld st' = a_ld st /\ b_ld st' = b_ld st
  /\ a_ld_s st' = a_ld_s st /\ b_ld_s st' = b_ld_s st.
Proof.
  cbv zeta.
  destruct (emit_dir_edge_state s now eh le d st) as [->|[evt [cls [ev ->]]]];
    simpl; auto.
Qed.

(** The ring and baseline updates leave the debounce stamp alone. *)
Lemma decision_last_emit s now me_s w :
  last_emit_ts (d_reader (decision sqrt s now me_s w)) = last_emit_ts (rs w).
Proof.
  unfold decision. cbn [d_reader].
  destruct (s_move_dist (ld_s_of s (st w)));
    destruct (Qltb me_s _); reflexivity.
Qed.

(** [_update_trigger] writes nothing of [STATE] but the trigger flag of
    its side and, through [_emit_dir_edge], the counters. *)
Lemma update_trigger_keeps s now borrowed eh me_s w :
  let w' := update_trigger sqrt s now borrowed eh me_s w in
  params (st w') = params (st w)
  /\ a_ld (st w') = a_ld (st w) /\ b_ld (st w') = b_ld (st w)
  /\ a_ld_s (st w') = a_ld_s (st w) /\ b_ld_s (st w') = b_ld_s (st w).
Proof.
  cbv zeta. unfold update_trigger. destruct borrowed; [simpl; auto|].
  destruct (negb _ && _ && _).
  - pose proof (emit_dir_edge_keeps s now eh
                  (last_emit_ts (d_reader (decision sqrt s now me_s w)))
                  (dir w) (st w)) as H. cbv zeta in H.
    destruct (emit_dir_edge _ _ _ _ _ _) as [[le d'] st']. simpl in H |- *.
    destruct s; simpl; tauto.
  - destruct s; simpl; auto.
Qed.

(** C8.  [_update_trigger] hands a rising edge to the pairer only if
    the moving-energy logic is on: when [m_on] is false, the pairer's
    state, the counters and the reader's debounce stamp are what they
    were, whatever the still-energy logic says; and whenever the
    pairer's state changes, the update was a rising edge
    ([prev] false, [new_on] true) with [m_on] true. *)
Theorem trigger_forwards_only_moving s now borrowed eh me_s w :
  let dc := decision sqrt s now me_s w in
  let w' := update_trigger sqrt s now borrowed eh me_s w in
  (d_m_on dc = false ->
   dir w' = dir w /\ counts (st w') = counts (st w)
   /\ last_emit_ts (rs w') = last_emit_ts (rs w))
  /\ (dir w' <> dir w ->
      d_prev dc = false /\ d_new_on dc = true /\ d_m_on dc = true).
Proof.
  cbv zeta. unfold update_trigger.
  pose proof (decision_last_emit s now me_s w) as Hle.
  destruct borrowed.
  - simpl. split; [auto | intros H; now contradiction H].
  - destruct (d_prev (decision sqrt s now me_s w)) eqn:Ep;
      destruct (d_new_on (decision sqrt s now me_s w)) eqn:En;
      destruct (d_m_on (decision sqrt s now me_s w)) eqn:Em;
      cbn [negb andb];
      try (split; [intros _; destruct s; simpl; auto
                  | intros H; simpl in H; now contradiction H]).
    split; [discriminate | auto].
Qed.

Lemma smooth_below_floor p rep cur :
  (Report.move_energy rep < min_energy p)%Z ->
  s_move_dist (smooth p rep cur) = s_move_dist cur
  /\ s_move_energy (smooth p rep cur) = s_move_energy cur.
Proof.
  intros H. unfold smooth, smooth_step.
  assert (E : (min_energy p <=? Report.move_energy rep)%Z = false)
    by (apply Z.leb_gt; exact H).
  destruct (Binary64.b64 (ld_alpha p)); [|auto].
  rewrite E.
  assert (Hc : match Report.move_dist_cm rep with
               | Some _ => (cur, true) | None => (cur, true) end = (cur, true))
    by (destruct (Report.move_dist_cm rep); reflexivity).
  rewrite Hc. cbn [negb].
  destruct (Report.still_dist_cm rep); [|auto].
  destruct (min_energy p <=? Report.still_energy rep)%Z; [|auto].
  destruct (Binary64.fl_dist _ _ _); auto.
Qed.

Lemma ld_s_of_set_ld_s s x st0 : ld_s_of s (set_ld_s s x st0) = x.
Proof. destruct s; reflexivity. Qed.

Lemma ld_s_of_set_ld s x st0 : ld_s_of s (set_ld s x st0) = ld_s_of s st0.
Proof. destruct s; reflexivity. Qed.

Lemma ld_of_set_ld_s s x y st0 : ld_of s (set_ld_s s x (set_ld s y st0)) = y.
Proof. destruct s; reflexivity. Qed.

Lemma params_set_ld s x st0 : params (set_ld s x st0) = params st0.
Proof. destruct s; reflexivity. Qed.

(** What [_update_trigger] leaves behind when the port is not borrowed. *)
Lemma update_trigger_decided s now eh me_s w :
  let w' := update_trigger sqrt s now false eh me_s w in
  last_me (rs w') = me_s
  /\ trig_on (rs w') = d_new_on (decision sqrt s now me_s w)
  /\ last_valid_ts (rs w') = d_last_valid (decision sqrt s now me_s w)
  /\ trig_of s (st w') = d_new_on (decision sqrt s now me_s w).
Proof.
  cbv zeta. unfold update_trigger.
  destruct (if negb _ && _ && _ then _ else _) as [[le d'] st'].
  cbn [rs st last_me trig_on last_valid_ts]. repeat split.
  destruct s; reflexivity.
Qed.

(** C9 (as amended).  A decoded report whose move energy is below the
    [min_energy] floor leaves the channel's smoothed move distance (and
    smoothed move energy) unchanged.  The sample is still published as
    the channel's latest raw sample and still enters [instant]; but the
    trigger is not handed the sample's energy: when the smoothing step
    completes, it is run on the unchanged smoothed move energy, and with
    the port not borrowed it records that value as [last_me] and
    decides the trigger flag from it. *)
Theorem low_energy_keeps_distance s now borrowed eh rep w :
  (Report.move_energy rep < min_energy (params (st w)))%Z ->
  let r := process_report sqrt s now borrowed eh rep w in
  let old := ld_s_of s (st w) in
  let raw := MkLd (Report.move_energy rep) (Report.move_dist_cm rep)
                  (Report.still_energy rep) (Report.still_dist_cm rep) in
  let w2 := MkWorld (rs w) (dir w)
                    (set_ld_s s (smooth (params (st w)) rep old) (set_ld s raw (st w))) in
  let frozen := or_zero (Some (s_move_energy old)) in
  s_move_dist (ld_s_of s (st (fst r))) = s_move_dist old
  /\ s_move_energy (ld_s_of s (st (fst r))) = s_move_energy old
  /\ ld_of s (st (fst r)) = raw
  /\ snd r = inject_Z (Report.move_energy rep)
             + (5#10) * inject_Z (Report.still_energy rep)
  /\ (smooth_ok (params (st w)) rep old = true ->
      fst r = update_trigger sqrt s now borrowed eh frozen w2
      /\ (borrowed = false ->
          last_me (rs (fst r)) = frozen
          /\ trig_on (rs (fst r)) = d_new_on (decision sqrt s now frozen w2)
          /\ trig_of s (st (fst r)) = d_new_on (decision sqrt s now frozen w2))).
Proof.
  intros Hlow. cbv zeta. unfold process_report. cbn [fst snd].
  rewrite !params_set_ld, !ld_s_of_set_ld, !ld_s_of_set_ld_s.
  destruct (smooth_below_floor (params (st w)) rep (ld_s_of s (st w)) Hlow)
    as [H1 H2].
  rewrite H2.
  set (raw := MkLd _ _ _ _).
  set (st2 := set_ld_s s _ (set_ld s raw (st w))).
  set (frozen := or_zero (Some (s_move_energy (ld_s_of s (st w))))).
  assert (K : forall w', st w' = st2 \/
                         w' = update_trigger sqrt s now borrowed eh frozen
                                             (MkWorld (rs w) (dir w) st2) ->
                         ld_s_of s (st w') = smooth (params (st w)) rep (ld_s_of s (st w))
                         /\ ld_of s (st w') = raw).
  { intros w' [E | ->].
    - rewrite E. subst st2. rewrite ld_s_of_set_ld_s, ld_of_set_ld_s. auto.
    - pose proof (update_trigger_keeps s now borrowed eh frozen
                    (MkWorld (rs w) (dir w) st2)) as U.
      cbv zeta in U. cbn [st] in U. destruct U as [_ [Ua [Ub [Uas Ubs]]]].
      split.
      + transitivity (ld_s_of s st2);
          [destruct s; cbn [ld_s_of]; assumption
          | subst st2; apply ld_s_of_set_ld_s].
      + transitivity (ld_of s st2);
          [destruct s; cbn [ld_of]; assumption
          | subst st2; apply ld_of_set_ld_s]. }
  destruct (smooth_ok (params (st w)) rep (ld_s_of s (st w))) eqn:Ok.
  - destruct (K _ (or_intror eq_refl)) as [Ks Kr]. rewrite Ks, Kr.
    split; [exact H1|]. split; [exact H2|]. split; [reflexivity|].
    split; [reflexivity|]. intros _. split; [reflexivity|].
    intros ->.
    destruct (update_trigger_decided s now eh frozen (MkWorld (rs w) (dir w) st2))
      as [L1 [L2 [_ L4]]].
    auto.
  - destruct (K (MkWorld (rs w) (dir w) st2) (or_introl eq_refl)) as [Ks Kr].
    rewrite Ks, Kr.
    split; [exact H1|]. split; [exact H2|]. split; [reflexivity|].
    split; [reflexivity|]. discriminate.
Qed.

End ReaderFacts.

Section ReaderWitnesses.
Import Scope Reader LowEnergyBench.
Local Open Scope Q_scope.

Lemma trigger_forwards_only_moving_witness :
  let dc := decision (fun x => x) A 10 0 still_world in
  let w' := update_trigger (fun x => x) A 10 false strong_hist 0 still_world in
  (d_prev dc = false /\ d_new_on dc = true /\ d_s_on dc = true
   /\ trig_on (rs w') = true /\ ta (st w') = true)
  /\ dir w' = dir still_world /\ counts (st w') = counts (st still_world)
  /\ last_emit_ts (rs w') = last_emit_ts (rs still_world).
Proof.
  cbv zeta. split; [repeat split|].
  apply (proj1 (trigger_forwards_only_moving (fun x => x) A 10 false
                  strong_hist 0 still_world)).
  reflexivity.
Defined.

Lemma low_energy_keeps_distance_witness :
  let r := process_report (fun x => x) A (103#10) false no_hist empty_report warm_world in
  let old := ld_s_of A (st warm_world) in
  let raw := MkLd (Report.move_energy empty_report) (Report.move_dist_cm empty_report)
                  (Report.still_energy empty_report) (Report.still_dist_cm empty_report) in
  let w2 := MkWorld (rs warm_world) (dir warm_world)
                    (set_ld_s A (smooth (params (st warm_world)) empty_report old)
                              (set_ld A raw (st warm_world))) in
  let frozen := or_zero (Some (s_move_energy old)) in
  s_move_dist (ld_s_of A (st (fst r))) = s_move_dist old
  /\ s_move_energy (ld_s_of A (st (fst r))) = s_move_energy old
  /\ ld_of A (st (fst r)) = raw
  /\ snd r = inject_Z (Report.move_energy empty_report)
             + (5#10) * inject_Z (Report.still_energy empty_report)
  /\ (smooth_ok (params (st warm_world)) empty_report old = true ->
      fst r = update_trigger (fun x => x) A (103#10) false no_hist frozen w2
      /\ (false = false ->
          last_me (rs (fst r)) = frozen
          /\ trig_on (rs (fst r)) = d_new_on (decision (fun x => x) A (103#10) frozen w2)
          /\ trig_of A (st (fst r)) = d_new_on (decision (fun x => x) A (103#10) frozen w2))).
Proof.
  apply (low_energy_keeps_distance (fun x => x) A (103#10) false no_hist
           empty_report warm_world).
  reflexivity.
Defined.

(** C9 fails as stated: a sample below the floor is not delivered to
    the trigger as a zero or low-energy sample.  Reader A, from the
    [STATE] literal, sees three reports of move energy 100 (smoothed
    energy 38.5875, trigger on) and then the empty scene, move energy 0.
    The raw sample is published with energy 0, but the trigger is given
    38.5875 again, takes the sample for an active one and stays on; it
    is still on for the empty scene ten seconds later. *)
Lemma low_energy_sample_not_seen_by_trigger :
  let r := process_report (fun x => x) A (103#10) false no_hist empty_report warm_world in
  let r2 := process_report (fun x => x) A 20 false no_hist empty_report (fst r) in
  (Report.move_energy empty_report < min_energy (params (st warm_world)))%Z
  /\ trig_on (rs warm_world) = true
  /\ ld_move_energy (ld_of A (st (fst r))) = 0%Z
  /\ last_me (rs (fst r)) == 385875#10000
  /\ inject_Z (min_energy (params (st warm_world))) <= last_me (rs (fst r))
  /\ last_valid_ts (rs (fst r)) == 103#10
  /\ trig_on (rs (fst r)) = true
  /\ ld_move_energy (ld_of A (st (fst r2))) = 0%Z
  /\ last_me (rs (fst r2)) == 385875#10000
  /\ last_valid_ts (rs (fst r2)) == 20
  /\ trig_on (rs (fst r2)) = true.
Proof.
  cbv zeta.
  repeat split; try (vm_compute; reflexivity); vm_compute; discriminate.
Qed.

End ReaderWitnesses.

(** ** The parameter endpoints *)

Section CommandFacts.
Import Command.
Variable int_of_str : string -> option Z.
Variable float_of_str : string -> option json.

Lemma state_post_lookup (body STATE : gmap string json) (k : string) :
  state_post body STATE !! k =
  if decide (k ∈ PUB_KEYS)
  then match body !! k with Some v => Some v | None => STATE !! k end
  else STATE !! k.
Proof.
  unfold state_post. rewrite lookup_union, map_lookup_filter.
  destruct (body !! k) as [v|] eqn:E; simpl.
  - case_decide as Hk.
    + rewrite option_guard_True by exact Hk. simpl.
      destruct (STATE !! k); reflexivity.
    + rewrite option_guard_False by exact Hk. simpl.
      destruct (STATE !! k); reflexivity.
  - destruct (STATE !! k); simpl; case_decide; reflexivity.
Qed.

Lemma upd_lookup_eq (body cfg : gmap string json) k cast :
  upd body k cast cfg !! k =
  match body !! k ≫= cast with Some v => Some v | None => cfg !! k end.
Proof.
  unfold upd. destruct (body !! k) as [v|]; simpl; [|reflexivity].
  destruct (cast v); [apply lookup_insert_eq | reflexivity].
Qed.

Lemma upd_lookup_ne (body cfg : gmap string json) k k' cast :
  k ≠ k' -> upd body k cast cfg !! k' = cfg !! k'.
Proof.
  intros Hne. unfold upd. destruct (body !! k) as [v|]; [|reflexivity].
  destruct (cast v); [now apply lookup_insert_ne | reflexivity].
Qed.

Lemma upd_list_lookup_ne (body cfg cfg' : gmap string json) k k' :
  k ≠ k' -> upd_list int_of_str body k cfg = Some cfg' -> cfg' !! k' = cfg !! k'.
Proof.
  intros Hne. unfold upd_list.
  destruct (body !! k) as [[]|]; try (intros [= <-]; reflexivity).
  destruct (int_list9 int_of_str l); simpl; [|discriminate].
  intros [= <-]. now apply lookup_insert_ne.
Qed.

(** The scalar fields are settled before the list fields are looked at. *)
Lemma ld2410_cfg_post_scalar (body cfg : gmap string json) k :
  k ≠ "moving_thresholds"%string -> k ≠ "still_thresholds"%string ->
  fst (ld2410_cfg_post int_of_str float_of_str body cfg) !! k =
  upd body "still_max_rg" (cast_int int_of_str)
    (upd body "moving_max_rg" (cast_int int_of_str)
      (upd body "stat_time_s" (cast_int int_of_str)
        (upd body "report_delay_ms" (cast_int int_of_str)
          (upd body "rg_resolution_m" (cast_float float_of_str) cfg)))) !! k.
Proof.
  intros H1 H2. unfold ld2410_cfg_post.
  destruct (upd_list int_of_str body "moving_thresholds" _) as [c6|] eqn:E6;
    [|reflexivity].
  destruct (upd_list int_of_str body "still_thresholds" c6) as [c7|] eqn:E7; simpl.
  - rewrite (upd_list_lookup_ne _ _ _ _ k (not_eq_sym H2) E7).
    apply (upd_list_lookup_ne _ _ _ _ k (not_eq_sym H1) E6).
  - apply (upd_list_lookup_ne _ _ _ _ k (not_eq_sym H1) E6).
Qed.

(** C4 (as amended).  [/state] stores every field whose key is public
    exactly as given, with no check of type or range, and ignores the
    others.  [/ld2410/<side>/cfg] converts each scalar field present in
    the patch to its numeric type: a scalar field that is absent or
    whose value does not convert keeps its previous value, whatever the
    rest of the patch holds, and a scalar field whose value converts is
    applied whatever the rest of the patch holds, a converted value in
    the field's sane range being stored as converted. *)
Theorem patch_fields_independent :
  (forall (body STATE : gmap string json) (k : string),
      state_post body STATE !! k =
      if decide (k ∈ PUB_KEYS)
      then match body !! k with Some v => Some v | None => STATE !! k end
      else STATE !! k)
  /\ (forall (body cfg : gmap string json) (k : string) cast,
      scalar_cast int_of_str float_of_str k = Some cast ->
      let cfg' := fst (ld2410_cfg_post int_of_str float_of_str body cfg) in
      (body !! k ≫= cast = None -> cfg' !! k = cfg !! k)
      /\ (forall v', body !! k ≫= cast = Some v' -> sane_value k v' = true ->
                     cfg' !! k = Some v')).
Proof.
  split; [apply state_post_lookup|].
  intros body cfg k cast Hc cfg'.
  assert (E : cfg' !! k
              = match body !! k ≫= cast with Some v => Some v | None => cfg !! k end).
  { subst cfg'. unfold scalar_cast in Hc.
    destruct (decide (k = "rg_resolution_m"%string)) as [->|Hn].
    - injection Hc as <-. rewrite ld2410_cfg_post_scalar by discriminate.
      rewrite !upd_lookup_ne by discriminate. apply upd_lookup_eq.
    - destruct (decide (k ∈ _)) as [Hin|]; [|discriminate].
      injection Hc as <-.
      repeat (apply elem_of_cons in Hin as [->|Hin]);
        [| | | | apply elem_of_nil in Hin; contradiction];
        rewrite ld2410_cfg_post_scalar by discriminate;
        rewrite ?upd_lookup_ne by discriminate;
        rewrite upd_lookup_eq;
        rewrite ?upd_lookup_ne by discriminate; reflexivity. }
  split.
  - intros Hn. rewrite E, Hn. reflexivity.
  - intros v' Hv _. rewrite E, Hv. reflexivity.
Qed.

End CommandFacts.

Section CommandExamples.
Import Command.

Lemma patch_fields_independent_witness :
  (let cfg' := fst (ld2410_cfg_post no_int no_float mixed_patch default_cfg) in
   (mixed_patch !! "moving_max_rg"%string ≫= cast_int no_int = None ->
    cfg' !! "moving_max_rg"%string = default_cfg !! "moving_max_rg"%string)
   /\ (forall v', mixed_patch !! "moving_max_rg"%string ≫= cast_int no_int = Some v' ->
                  sane_value "moving_max_rg" v' = true ->
                  cfg' !! "moving_max_rg"%string = Some v'))
  /\ fst (ld2410_cfg_post no_int no_float mixed_patch default_cfg) !! "moving_max_rg"%string
     = default_cfg !! "moving_max_rg"%string
  /\ fst (ld2410_cfg_post no_int no_float mixed_patch default_cfg) !! "stat_time_s"%string
     = Some (JInt 60).
Proof.
  split; [|split].
  - apply (proj2 (patch_fields_independent no_int no_float)). reflexivity.
  - apply (proj1 (proj2 (patch_fields_independent no_int no_float)
                    mixed_patch default_cfg "moving_max_rg"%string (cast_int no_int)
                    eq_refl)).
    reflexivity.
  - apply (proj2 (proj2 (patch_fields_independent no_int no_float)
                    mixed_patch default_cfg "stat_time_s"%string (cast_int no_int)
                    eq_refl) (JInt 60)); reflexivity.
Defined.

(** The same patch, evaluated: the field that does not convert keeps
    its value, the other two are stored as converted. *)
Example mixed_patch_applied :
  let cfg' := fst (ld2410_cfg_post no_int no_float mixed_patch default_cfg) in
  cfg' !! "moving_max_rg"%string = Some (JInt 8)
  /\ cfg' !! "stat_time_s"%string = Some (JInt 60)
  /\ cfg' !! "rg_resolution_m"%string = Some (JFloat (inject_Z 1))
  /\ cfg' !! "still_max_rg"%string = Some (JInt 8).
Proof. vm_compute. auto. Qed.

(** An integer too large for a float does not convert: the resolution
    keeps its value, the other field of the patch is stored. *)
Example huge_integer_is_rejected :
  let cfg' := fst (ld2410_cfg_post no_int no_float huge_patch default_cfg) in
  cast_float no_float (JInt (10 ^ 400)) = None
  /\ cfg' !! "rg_resolution_m"%string = Some (JFloat (75#100))
  /\ cfg' !! "still_max_rg"%string = Some (JInt 6).
Proof. vm_compute. auto. Qed.

(** C4 fails as stated: [/state] validates nothing.  It stores a string
    as the trigger threshold [trigA] and a negative number as the
    refractory time [refract], and both are read back as the state. *)
Lemma state_patch_not_validated :
  let body : gmap string json :=
    <["trigA"%string := JStr "high"]> (<["refract"%string := JInt (-5)]> ∅) in
  let STATE : gmap string json :=
    <["trigA"%string := JFloat 35]> (<["refract"%string := JFloat 1]> ∅) in
  state_post body STATE !! "trigA"%string = Some (JStr "high")
  /\ state_post body STATE !! "refract"%string = Some (JInt (-5)).
Proof. vm_compute. auto. Qed.

(** A list field with an element that does not convert makes the
    handler raise: the scalar fields before it are already stored, the
    list field after it is not reached. *)
Example list_field_raises :
  let body : gmap string json :=
    <["stat_time_s"%string := JInt 60]>
    (<["moving_thresholds"%string := JList [JInt 10; JNull]]>
    (<["still_thresholds"%string := JList [JInt 1; JInt 2]]> ∅)) in
  let r := ld2410_cfg_post no_int no_float body default_cfg in
  snd r = false
  /\ fst r !! "stat_time_s"%string = Some (JInt 60)
  /\ fst r !! "moving_thresholds"%string = default_cfg !! "moving_thresholds"%string
  /\ fst r !! "still_thresholds"%string = default_cfg !! "still_thresholds"%string.
Proof. vm_compute. auto. Qed.

End CommandExamples.

(** * Further properties of the code *)

(** ** The scanner never invents a frame *)

Section ScannerSoundness.
Import SimpleShape Heuristic.

Lemma byte_eqb_true x y : Byte.eqb x y = true -> x = y.
Proof. apply Byte.byte_dec_bl. Qed.

Lemma step_tail_ok s x pre :
  tail_ok s pre ->
  tail_ok (fst (step s x)) (pre ++ [x])
  /\ (forall f, snd (step s x) = Some f -> exists l, pre ++ [x] = l ++ encode f).
Proof.
  destruct s as [st ci cv]. unfold tail_ok, step. cbn [state cur_id cur_val].
  destruct st as [|[|[|[|[|[|[|st]]]]]]]; cbn [fst snd state cur_id cur_val].
  - intros _. split; [|discriminate].
    destruct (Byte.eqb x xaa) eqn:E; [|exact I].
    apply byte_eqb_true in E. subst. now exists pre.
  - intros [l ->]. split; [|discriminate].
    destruct (Byte.eqb x xaa) eqn:E; [|exact I].
    apply byte_eqb_true in E. subst. exists l. now rewrite <- app_assoc.
  - intros [l ->]. split; [|discriminate]. exists l. now rewrite <- app_assoc.
  - intros [l ->]. split; [|discriminate]. exists l. now rewrite <- app_assoc.
  - intros [l ->]. split; [|discriminate].
    destruct (Byte.eqb x x00) eqn:E; [|exact I].
    apply byte_eqb_true in E. subst. exists l. now rewrite <- app_assoc.
  - intros [l ->]. split; [|discriminate].
    destruct (Byte.eqb x x55) eqn:E; [|exact I].
    apply byte_eqb_true in E. subst. exists l. now rewrite <- app_assoc.
  - intros [l ->]. split; [exact I|].
    intros f. destruct (Byte.eqb x x55) eqn:E; [|discriminate].
    apply byte_eqb_true in E. subst. intros [= <-].
    exists l. now rewrite <- app_assoc.
  - intros _. split; [exact I | discriminate].
Qed.

Lemma run_sound bs : forall s pre f,
  tail_ok s pre -> In f (snd (run s bs)) ->
  exists l1 l2, pre ++ bs = l1 ++ encode f ++ l2.
Proof.
  induction bs as [|x bs IH]; intros s pre f Hs Hin; [contradiction|].
  cbn [run] in Hin.
  destruct (step_tail_ok s x pre Hs) as [Hs' Hem].
  destruct (step s x) as [s1 o]. cbn [fst snd] in *.
  destruct (run s1 bs) as [s2 fs] eqn:R. cbn [snd] in Hin.
  assert (Hrest : In f fs -> exists l1 l2, pre ++ x :: bs = l1 ++ encode f ++ l2).
  { intros H. destruct (IH s1 (pre ++ [x]) f Hs') as [l1 [l2 E]].
    - now rewrite R.
    - exists l1, l2. rewrite <- E, <- app_assoc. reflexivity. }
  destruct o as [f0|]; [|auto].
  destruct Hin as [<-|Hin]; [|auto].
  destruct (Hem f0 eq_refl) as [l E].
  exists l, bs. rewrite app_assoc, <- E, <- app_assoc. reflexivity.
Qed.

(** X1.  Every frame the scanner reports stands on the wire: its seven bytes
    occur, contiguously, in the bytes read. *)
Theorem scanner_reports_only_wire_frames bs f :
  In f (decode bs) -> exists l1 l2, bs = l1 ++ encode f ++ l2.
Proof.
  intros H. apply (run_sound bs idle [] f); [exact I | exact H].
Qed.

Lemma scanner_reports_only_wire_frames_witness :
  exists l1 l2,
    [x13; xaa; xaa; x02; x2a; x00; x55; x55; xaa] = l1 ++ encode (Frame x02 x2a) ++ l2.
Proof.
  apply (scanner_reports_only_wire_frames
           [x13; xaa; xaa; x02; x2a; x00; x55; x55; xaa] (Frame x02 x2a)).
  left. reflexivity.
Defined.

(** Frames do not overlap: [7 * frames reported + state] never exceeds
    the number of bytes read. *)
Lemma run_progress bs : forall s,
  (state s <= 6)%nat ->
  (state (fst (run s bs)) <= 6
   /\ 7 * length (snd (run s bs)) + state (fst (run s bs))
      <= state s + length bs)%nat.
Proof.
  induction bs as [|x bs IH]; intros s Hs; [simpl; lia|].
  cbn [run].
  assert (H1 : (state (fst (step s x)) <= 6
                /\ match snd (step s x) with Some _ => 7 | None => 0 end
                   + state (fst (step s x))
                   <= state s + 1)%nat).
  { destruct s as [st ci cv]. unfold step. cbn [state cur_id cur_val] in *.
    destruct st as [|[|[|[|[|[|[|st]]]]]]]; cbn [fst snd state];
      try (destruct (Byte.eqb x _)); simpl; lia. }
  destruct (step s x) as [s1 o]. cbn [fst snd] in H1.
  destruct H1 as [H1 H2]. specialize (IH s1 H1).
  destruct (run s1 bs) as [s2 fs]. cbn [fst snd length] in *.
  destruct o; cbn [length]; lia.
Qed.

(** X2.  The scanner reports at most one frame per seven bytes read. *)
Theorem scanner_at_most_one_frame_per_seven_bytes bs :
  (7 * length (decode bs) <= length bs)%nat.
Proof.
  pose proof (run_progress bs idle ltac:(simpl; lia)) as [_ H].
  unfold decode. simpl in H. lia.
Qed.

(** X3.  The pad byte: the scanner drops a frame whose fifth byte is not 00,
    the buffered reader of rd03e_two_sensor_counter.py never looks at that
    byte and accepts the frame. *)
Theorem pad_byte_checked_by_scanner_only i v p :
  p <> x00 ->
  decode [xaa; xaa; i; v; p; x55; x55] = []
  /\ BufferedReader.feed i [] [xaa; xaa; i; v; p; x55; x55] = Some ([v], []).
Proof.
  intros Hp. split.
  - destruct (Byte.eqb p x00) eqn:E; [apply byte_eqb_true in E; contradiction|].
    unfold decode, idle. cbn. rewrite E. reflexivity.
  - unfold BufferedReader.feed. cbn.
    rewrite (Byte.byte_dec_lb (eq_refl i)). reflexivity.
Qed.

Lemma pad_byte_checked_by_scanner_only_witness :
  decode [xaa; xaa; x02; x07; x01; x55; x55] = []
  /\ BufferedReader.feed x02 [] [xaa; xaa; x02; x07; x01; x55; x55] = Some ([x07], []).
Proof.
  apply (pad_byte_checked_by_scanner_only x02 x07 x01). discriminate.
Defined.

End ScannerSoundness.

(** ** The stream heuristic of rd03e_reader.py *)

Section HeuristicFacts.
Import SimpleShape Heuristic.

Lemma count_hits_app_ge l1 l2 : (count_hits l2 <= count_hits (l1 ++ l2))%nat.
Proof.
  induction l1 as [|x l1 IH]; [reflexivity|].
  change ((x :: l1) ++ l2) with (x :: (l1 ++ l2)). cbn [count_hits]. lia.
Qed.

Lemma count_hits_encode f rest :
  (1 + count_hits rest <= count_hits (encode f ++ rest))%nat.
Proof.
  destruct f as [fi fv].
  change (encode (Frame fi fv) ++ rest)
    with (xaa :: ([xaa; fi; fv; x00; x55; x55] ++ rest)).
  cbn [count_hits].
  assert (H : hit (xaa :: [xaa; fi; fv; x00; x55; x55] ++ rest) = true) by reflexivity.
  rewrite H. pose proof (count_hits_app_ge [xaa; fi; fv; x00; x55; x55] rest). lia.
Qed.

Lemma count_hits_stream segs tail :
  (length segs <= count_hits (stream segs tail))%nat.
Proof.
  induction segs as [|[g f] segs IH]; cbn [stream length]; [lia|].
  pose proof (count_hits_app_ge g (encode f ++ stream segs tail)).
  pose proof (count_hits_encode f (stream segs tail)). lia.
Qed.

Lemma length_stream segs tail :
  (7 * length segs <= length (stream segs tail))%nat.
Proof.
  induction segs as [|[g f] segs IH]; cbn [stream length]; [lia|].
  rewrite !length_app. destruct f. simpl. lia.
Qed.

(** X4.  A peek that holds at least three frames and at least 28 bytes is
    taken for a frame stream, whatever garbage surrounds the frames and
    whatever their ids; four frames are always enough. *)
Theorem looks_like_frames_on_frames segs tail :
  (3 <= length segs)%nat ->
  (28 <= length (stream segs tail) \/ 4 <= length segs)%nat ->
  looks_like_frames (stream segs tail) = true.
Proof.
  intros H3 H28. unfold looks_like_frames.
  pose proof (length_stream segs tail). pose proof (count_hits_stream segs tail).
  replace (length (stream segs tail) <? 28)%nat with false
    by (symmetry; apply Nat.ltb_ge; lia).
  apply Nat.leb_le. lia.
Qed.

Lemma looks_like_frames_on_frames_witness :
  looks_like_frames
    (stream [([x00], Frame x01 x10); ([], Frame x02 x20); ([xff; xaa], Frame x09 x30);
             ([], Frame x02 x21)] [x55]) = true.
Proof.
  apply looks_like_frames_on_frames; [simpl; lia | right; simpl; lia].
Defined.

(** Fewer than three hits, or fewer than 28 bytes, and the peek is not
    taken for a frame stream: three back-to-back frames alone (21 bytes)
    are refused. *)
Theorem looks_like_frames_needs_28_bytes buf :
  (length buf < 28)%nat -> looks_like_frames buf = false.
Proof.
  intros H. unfold looks_like_frames.
  now replace (length buf <? 28)%nat with true by (symmetry; apply Nat.ltb_lt; lia).
Qed.

End HeuristicFacts.

(** ** Report frames: what extraction hands on and what decoding accepts *)

Section ReportMore.
Import Bytes Report ReportWire.

Lemma starts_with_app pat l :
  starts_with pat l = true -> exists tl, l = pat ++ tl.
Proof.
  revert l. induction pat as [|p pat IH]; intros l H; [now exists l|].
  destruct l as [|b l]; [discriminate|]. cbn [starts_with] in H.
  apply andb_prop in H as [Hb H]. apply Byte.byte_dec_bl in Hb. subst.
  destruct (IH l H) as [tl ->]. now exists tl.
Qed.

Lemma starts_with_refl_app pat tl : starts_with pat (pat ++ tl) = true.
Proof.
  induction pat as [|p pat IH]; [reflexivity|]. cbn [app starts_with].
  now rewrite (Byte.byte_dec_lb (eq_refl p)), IH.
Qed.

Lemma ends_with_app l suf : ends_with suf (l ++ suf) = true.
Proof. unfold ends_with. rewrite rev_app_distr. apply starts_with_refl_app. Qed.

Lemma find_drop_None pat buf k : find pat buf = None -> find pat (drop k buf) = None.
Proof.
  intros H. destruct (find pat (drop k buf)) as [i|] eqn:F; [|reflexivity].
  destruct (find_Some _ _ _ F) as [Hocc _]. rewrite drop_drop in Hocc.
  rewrite (find_None _ _ H) in Hocc. discriminate.
Qed.

Lemma extract_loop_shape fuel : forall buf frames rest,
  extract_loop fuel buf = Some (frames, rest) ->
  Forall delimited frames
  /\ (starts_with HDR_RPT rest = true
      \/ (find HDR_RPT rest = None /\ (length rest <= 4096)%nat)).
Proof.
  induction fuel as [|fuel IH]; intros buf frames rest E; cbn [extract_loop] in E;
    (destruct (find HDR_RPT buf) as [s|] eqn:F;
     [ destruct (find_Some _ _ _ F) as [Hs _];
       (replace (if (0 <? s)%nat then drop s buf else buf) with (drop s buf) in E
         by (destruct s; reflexivity));
       destruct (find_from FTR_RPT (drop s buf) 4) as [e|] eqn:G;
       [| injection E as <- <-; split; [constructor | now left] ]
     | injection E as <- <-; split; [constructor|]; right;
       destruct (4096 <? length buf)%nat eqn:L;
       [ split; [now apply find_drop_None | rewrite length_drop; lia]
       | apply Nat.ltb_ge in L; split; [exact F | exact L] ] ]).
  - discriminate E.
  - destruct (extract_loop fuel (drop (e + length FTR_RPT) (drop s buf)))
      as [[fr rest']|] eqn:R; [|discriminate E].
    injection E as <- <-. destruct (IH _ _ _ R) as [Hfr Hrest].
    split; [|exact Hrest]. constructor; [|exact Hfr].
    destruct (find_from_Some _ _ _ _ G) as [He Ho].
    pose proof (occurs_at_length _ _ _ Ho ltac:(discriminate)) as Hlen.
    unfold occurs_at in Ho. apply starts_with_app in Ho as [tl Htl].
    assert (Hsplit : drop s buf = take e (drop s buf) ++ FTR_RPT ++ tl)
      by (rewrite <- Htl; symmetry; apply take_drop).
    assert (Hte : length (take e (drop s buf)) = e)
      by (rewrite length_take; simpl in Hlen; lia).
    assert (Hfrm : take (e + 4) (drop s buf)
                   = take e (drop s buf) ++ FTR_RPT).
    { rewrite Hsplit at 1. rewrite app_assoc.
      rewrite take_app_length'; [reflexivity|].
      rewrite length_app, Hte. reflexivity. }
    rewrite Hfrm. unfold delimited. split; [|split].
    + apply starts_with_app in Hs as [tl' Htl']. rewrite Htl'.
      rewrite take_app_ge by (simpl; lia).
      rewrite <- app_assoc. apply starts_with_refl_app.
    + apply ends_with_app.
    + rewrite length_app, Hte. simpl. lia.
Qed.

(** X5.  Every frame [extract_report_frames] returns starts with the header,
    ends with the footer and is at least eight bytes long; and the
    buffer it leaves either starts with a header (a frame still open) or
    holds no header and at most 4096 bytes. *)
Theorem extract_frames_delimited buf frames rest :
  extract_report_frames buf = Some (frames, rest) ->
  Forall delimited frames
  /\ (starts_with HDR_RPT rest = true
      \/ (find HDR_RPT rest = None /\ (length rest <= 4096)%nat)).
Proof. apply extract_loop_shape. Qed.

Lemma extract_frames_delimited_witness :
  Forall delimited [[xf4; xf3; xf2; xf1; xaa; x02; xf8; xf7; xf6; xf5]]
  /\ (starts_with HDR_RPT [xf4; xf3; xf2; xf1; x0d] = true
      \/ (find HDR_RPT [xf4; xf3; xf2; xf1; x0d] = None
          /\ (length [xf4; xf3; xf2; xf1; x0d] <= 4096)%nat)).
Proof.
  apply (extract_frames_delimited
           [x11; xf4; xf3; xf2; xf1; xaa; x02; xf8; xf7; xf6; xf5;
            x22; xf4; xf3; xf2; xf1; x0d]).
  reflexivity.
Defined.

(** X6.  A header that no footer follows is still in the buffer after
    extraction, with every byte after it, whatever complete frames were
    extracted before it. *)
Theorem extract_keeps_open_header buf i frames rest :
  occurs_at HDR_RPT i buf ->
  (forall j, (i <= j)%nat -> ~ occurs_at FTR_RPT j buf) ->
  extract_report_frames buf = Some (frames, rest) ->
  exists k, (k <= i)%nat /\ rest = drop k buf.
Proof. apply extract_loop_keeps_open_header. Qed.

Lemma scan_body_in_range body : forall r,
  scan_body body = Some r -> in_range r.
Proof.
  induction body as [|x tl IH]; intros r H; [discriminate|].
  cbn [scan_body] in H. destruct (Byte.eqb x xaa); [|now apply IH].
  destruct (match tl with
            | [] => tl
            | y :: tl' => if is_subtype y then tl' else tl
            end) as [|d1l [|d1h [|b1 [|d2l [|d2h [|b2 g]]]]]]; try now apply IH.
  destruct (_ && _) eqn:C; [|now apply IH].
  injection H as <-.
  repeat (apply andb_prop in C as [C ?]).
  repeat match goal with
         | H : (_ <=? _) = true |- _ => apply Z.leb_le in H
         end.
  unfold in_range. cbn. split; [|lia].
  eexists _, _. split; [reflexivity|]. split; [reflexivity|]. lia.
Qed.

(** X7.  Whatever [decode_report_frame] returns has both distances present
    and within [0, 6000] cm and both energies within [0, 100]. *)
Theorem decoded_report_in_range frame r :
  decode_report_frame frame = Some r -> in_range r.
Proof.
  unfold decode_report_frame. destruct (negb _); [discriminate|].
  destruct (_ <? 8)%nat; [discriminate|]. apply scan_body_in_range.
Qed.

End ReportMore.
(** ** Report frames: writing and reading back *)

Section ReportRoundTrip.
Import Bytes Report ReportWire.

Lemma byte_to_Z_of_Z z : 0 <= z < 256 -> byte_to_Z (byte_of_Z z) = z.
Proof.
  intros Hz. unfold byte_to_Z, byte_of_Z.
  destruct (Byte.of_N (Z.to_N z)) as [b|] eqn:E.
  - apply Byte.to_of_N in E. rewrite E. apply Z2N.id. lia.
  - apply Byte.of_N_None_iff in E. lia.
Qed.

Lemma u16le_split d :
  0 <= d < 2 ^ 16 ->
  u16le (byte_of_Z (d mod 2 ^ 8)) (byte_of_Z (d / 2 ^ 8)) = d.
Proof.
  intros Hd. unfold u16le.
  rewrite !byte_to_Z_of_Z.
  - rewrite <- Z.lxor_lor, <- Z.add_nocarry_lxor.
    + rewrite Z.shiftl_mul_pow2 by lia.
      rewrite (Z.div_mod d (2 ^ 8)) at 3 by lia. lia.
    + apply Z.bits_inj'. intros n Hn. rewrite Z.land_spec, Z.bits_0.
      destruct (Z.lt_ge_cases n 8).
      * rewrite (Z.shiftl_spec_low _ _ _ H). apply andb_false_r.
      * rewrite Z.mod_pow2_bits_high by lia. reflexivity.
    + apply Z.bits_inj'. intros n Hn. rewrite Z.land_spec, Z.bits_0.
      destruct (Z.lt_ge_cases n 8).
      * rewrite (Z.shiftl_spec_low _ _ _ H). apply andb_false_r.
      * rewrite Z.mod_pow2_bits_high by lia. reflexivity.
  - split; [apply Z.div_pos; lia | apply Z.div_lt_upper_bound; lia].
  - apply Z.mod_pos_bound. lia.
Qed.

Lemma energy8_of_Z e : 0 <= e < 128 -> energy8 (byte_of_Z e) = e.
Proof.
  intros He. unfold energy8. rewrite byte_to_Z_of_Z by lia.
  change 0x7F with (Z.ones 7). rewrite Z.land_ones by lia.
  apply Z.mod_small. lia.
Qed.

Lemma scan_body_cons x tl :
  scan_body (x :: tl) =
  if Byte.eqb x xaa then
    let grp := match tl with
               | y :: tl' => if is_subtype y then tl' else tl
               | [] => tl
               end in
    match grp with
    | d1l :: d1h :: b1 :: d2l :: d2h :: b2 :: _ =>
        let d1 := u16le d1l d1h in let e1 := energy8 b1 in
        let d2 := u16le d2l d2h in let e2 := energy8 b2 in
        if (0 <=? d1) && (d1 <=? 6000) && (0 <=? d2) && (d2 <=? 6000)
           && (0 <=? e1) && (e1 <=? 100) && (0 <=? e2) && (e2 <=? 100)
        then Some (Ld2410 e1 (Some d1) e2 (Some d2))
        else scan_body tl
    | _ => scan_body tl
    end
  else scan_body tl.
Proof. reflexivity. Qed.

Lemma scan_body_skip pre rest :
  Forall (fun b => b <> xaa) pre -> scan_body (pre ++ rest) = scan_body rest.
Proof.
  induction 1 as [|b pre Hb _ IH]; [reflexivity|].
  change ((b :: pre) ++ rest) with (b :: (pre ++ rest)).
  rewrite scan_body_cons.
  destruct (Byte.eqb b xaa) eqn:E; [apply Byte.byte_dec_bl in E; contradiction|].
  exact IH.
Qed.

(** X8.  Round trip.  A report within the accepted ranges, written as a frame
    with a sub-type byte after the marker and no [AA] among the leading
    bytes, is decoded to exactly that report, whatever follows the two
    groups. *)
Theorem decode_report_frame_round_trip pre sub r pad :
  Forall (fun b => b <> xaa) pre ->
  is_subtype sub = true ->
  in_range r ->
  decode_report_frame (report_frame pre sub r pad) = Some r.
Proof.
  intros Hpre Hsub [[d1 [d2 [H1 [H2 [Hd1 Hd2]]]]] [He1 He2]].
  destruct r as [e1 md e2 sd]. cbn [move_dist_cm still_dist_cm move_energy still_energy] in *.
  subst md sd. unfold report_frame, decode_report_frame.
  cbn [default from_option move_dist_cm still_dist_cm move_energy still_energy].
  unfold id.
  set (body := pre ++ [xaa; sub] ++ group d1 e1 ++ group d2 e2 ++ pad).
  rewrite starts_with_refl_app.
  rewrite app_assoc, ends_with_app. cbn [andb negb].
  rewrite <- app_assoc.
  replace (length (HDR_RPT ++ body ++ FTR_RPT) - length HDR_RPT - length FTR_RPT)%nat
    with (length body) by (rewrite !length_app; simpl; lia).
  rewrite drop_app_length, take_app_length.
  assert (Hlen : (8 <= length body)%nat)
    by (subst body; rewrite !length_app; simpl; lia).
  replace (length body <? 8)%nat with false by (symmetry; apply Nat.ltb_ge; lia).
  subst body. rewrite scan_body_skip by exact Hpre.
  unfold group.
  change ([xaa; sub]
          ++ [byte_of_Z (d1 mod 2 ^ 8); byte_of_Z (d1 / 2 ^ 8); byte_of_Z e1]
          ++ [byte_of_Z (d2 mod 2 ^ 8); byte_of_Z (d2 / 2 ^ 8); byte_of_Z e2] ++ pad)
    with (xaa :: sub :: byte_of_Z (d1 mod 2 ^ 8) :: byte_of_Z (d1 / 2 ^ 8) :: byte_of_Z e1
              :: byte_of_Z (d2 mod 2 ^ 8) :: byte_of_Z (d2 / 2 ^ 8) :: byte_of_Z e2 :: pad).
  rewrite scan_body_cons.
  change (Byte.eqb xaa xaa) with true. cbv iota. rewrite Hsub. cbv zeta iota.
  assert (P16 : 6000 < 2 ^ 16) by reflexivity.
  rewrite !u16le_split by lia. rewrite !energy8_of_Z by lia.
  replace ((0 <=? d1) && (d1 <=? 6000) && (0 <=? d2) && (d2 <=? 6000)
           && (0 <=? e1) && (e1 <=? 100) && (0 <=? e2) && (e2 <=? 100)) with true.
  - reflexivity.
  - symmetry. repeat (apply andb_true_intro; split); apply Z.leb_le; lia.
Qed.

Lemma decode_report_frame_round_trip_witness :
  decode_report_frame
    (report_frame [x0d; x00; x02] x02 (Ld2410 59 (Some 81) 0 (Some 300)) [x00; x00; x55; x00])
  = Some (Ld2410 59 (Some 81) 0 (Some 300)).
Proof.
  apply decode_report_frame_round_trip.
  - repeat constructor; discriminate.
  - reflexivity.
  - unfold in_range. cbn. split; [|lia].
    exists 81, 300. repeat split; lia.
Defined.

Lemma decoded_report_in_range_witness :
  in_range (Ld2410 59 (Some 81) 0 (Some 300)).
Proof.
  apply (decoded_report_in_range
           [xf4; xf3; xf2; xf1; x0d; x00; x02; xaa; x02; x51; x00; x3b; x2c; x01; x00;
            x00; x00; x55; x00; xf8; xf7; xf6; xf5]).
  reflexivity.
Defined.

Lemma extract_keeps_open_header_witness :
  exists k, (k <= 11)%nat
            /\ [xf4; xf3; xf2; xf1; x0d]
               = drop k [xf4; xf3; xf2; xf1; xaa; x02; xf8; xf7; xf6; xf5; x22;
                         xf4; xf3; xf2; xf1; x0d].
Proof.
  apply (extract_keeps_open_header
           [xf4; xf3; xf2; xf1; xaa; x02; xf8; xf7; xf6; xf5; x22;
            xf4; xf3; xf2; xf1; x0d] 11
           [[xf4; xf3; xf2; xf1; xaa; x02; xf8; xf7; xf6; xf5]]).
  - reflexivity.
  - intros j Hj Hocc. unfold occurs_at in Hocc.
    do 5 (destruct j as [|j]; [lia|]).
    do 6 (destruct j as [|j]; [lia|]).
    do 5 (destruct j as [|j]; [vm_compute in Hocc; discriminate|]).
    rewrite drop_ge in Hocc by (simpl; lia). discriminate.
  - reflexivity.
Defined.

End ReportRoundTrip.

(** ** The burst detector of rd03e_two_sensor_counter.py *)

Section DetectorFacts.
Import Counter CounterRuns.
Local Open Scope Q_scope.

(** [update] never touches the configuration, and its baseline is the
    exponential moving average of the samples. *)
Lemma update_config d val ts :
  let d' := fst (update d val ts) in
  name d' = name d /\ alpha d' = alpha d /\ trig_on d' = trig_on d
  /\ trig_off d' = trig_off d /\ minsep d' = minsep d
  /\ det_refractory d' = det_refractory d
  /\ mu d' = Some (match mu d with
                   | None => inject_Z val
                   | Some m => (1 - alpha d) * m + alpha d * inject_Z val
                   end).
Proof.
  cbv zeta. unfold update.
  destruct (negb (in_burst d)); destruct (_ && _); cbn; repeat split.
Qed.

Lemma Qpower_succ (q : Q) (n : nat) :
  q ^ Z.of_nat (S n) == q * q ^ Z.of_nat n.
Proof.
  destruct (Qeq_dec q 0) as [E|E].
  - rewrite E. rewrite Qpower_0 by lia. ring.
  - rewrite Nat2Z.inj_succ. unfold Z.succ. rewrite Qpower_plus by exact E.
    simpl (q ^ 1). ring.
Qed.

(** X9.  The baseline closes in on a constant input geometrically.  After a
    first sample the baseline is that sample; after [n] more samples of
    value [val] the distance of the baseline from [val] is exactly
    [(1 - alpha)^n] times what it was, whatever the time stamps. *)
Theorem baseline_contracts_on_constant_input d val tss : forall m,
  mu d = Some m ->
  exists m',
    mu (fst (feed_all d (map (fun t => (val, t)) tss))) = Some m'
    /\ m' - inject_Z val == (1 - alpha d) ^ Z.of_nat (length tss) * (m - inject_Z val).
Proof.
  revert d. induction tss as [|t tss IH]; intros d m Hm.
  - exists m. split; [exact Hm|]. simpl. ring.
  - cbn [map feed_all].
    pose proof (update_config d val t) as H. cbv zeta in H.
    destruct (update d val t) as [d1 [[ev dl] mm]]. cbn [fst] in H.
    destruct H as [_ [Ha [_ [_ [_ [_ Hmu]]]]]]. rewrite Hm in Hmu.
    destruct (IH d1 _ Hmu) as [m' [E1 E2]].
    destruct (feed_all d1 (map (fun t0 => (val, t0)) tss)) as [d2 evs].
    cbn [fst] in *. exists m'. split; [exact E1|].
    rewrite E2, Ha. cbn [length]. rewrite Qpower_succ. ring.
Qed.

Lemma baseline_contracts_on_constant_input_witness :
  exists m',
    mu (fst (feed_all (Detector SA (1#2) 12 (72#10) (35#100) 1 (Some 100) false 0 0 0 0%Z 0%Z 0)
                      (map (fun t => (20%Z, t)) [1; 2; 3]))) = Some m'
    /\ m' - inject_Z 20 == (1 - (1#2)) ^ Z.of_nat 3 * (100 - inject_Z 20).
Proof.
  apply (baseline_contracts_on_constant_input
           (Detector SA (1#2) 12 (72#10) (35#100) 1 (Some 100) false 0 0 0 0%Z 0%Z 0)
           20%Z [1; 2; 3] 100).
  reflexivity.
Defined.

(** What a returned event says about the update that returned it. *)
Lemma update_event d val ts d' ev dl mm :
  update d val ts = (d', (Some ev, dl, mm)) ->
  in_burst d = true /\ in_burst d' = false
  /\ last_emit_t d' = ts /\ end_t ev = ts
  /\ ev_sensor ev = name d /\ start_t ev = d_start_t d
  /\ minsep d <= end_t ev - start_t ev
  /\ Qabs' dl < trig_off d
  /\ d_peak_amp d <= peak_amp ev
  /\ Qabs' dl <= peak_amp ev.
Proof.
  unfold update.
  destruct (in_burst d) eqn:Eb; cbn [negb].
  - destruct (Qltb _ (trig_off d) && Qleb (minsep d) _) eqn:Eend; [|discriminate].
    apply andb_prop in Eend as [E1 E2].
    intros [= <- <- <- <-]. cbn. qprops.
    repeat split; try assumption.
    + destruct (Qltb (d_peak_amp d) _) eqn:E3; qprops; lra.
    + destruct (Qltb (d_peak_amp d) _) eqn:E3; qprops; lra.
  - destruct (_ && _); discriminate.
Qed.

(** X10.  One report per burst.  An event is returned only by an update that
    finds the detector inside a burst, when the deviation has fallen
    below [trig_off] and the burst has lasted at least [minsep]; the
    event's peak is at least the deviation seen, the detector is idle
    afterwards, and the very next update returns no event. *)
Theorem burst_reported_once d val ts d' ev dl mm val2 ts2 :
  update d val ts = (d', (Some ev, dl, mm)) ->
  in_burst d = true /\ in_burst d' = false
  /\ minsep d <= end_t ev - start_t ev
  /\ Qabs' dl < trig_off d /\ Qabs' dl <= peak_amp ev
  /\ end_t ev = ts /\ last_emit_t d' = ts
  /\ fst (fst (snd (update d' val2 ts2))) = None.
Proof.
  intros H. destruct (update_event _ _ _ _ _ _ _ H)
    as [H1 [H2 [H3 [H4 [H5 [H6 [H7 [H8 [H9 H10]]]]]]]]].
  repeat split; try assumption.
  unfold update. rewrite H2. cbn [negb]. destruct (_ && _); reflexivity.
Qed.

Lemma burst_reported_once_witness :
  let d := Detector SA (1#10) 12 (72#10) (35#100) 1 (Some 50) true 10 10 20 70%Z 1%Z 0 in
  let u := update d 50%Z (105#10) in
  let ev := Burst SA 10 10 20 70%Z 1%Z (105#10) in
  in_burst d = true /\ in_burst (fst u) = false
  /\ minsep d <= end_t ev - start_t ev
  /\ Qabs' (snd (fst (snd u))) < trig_off d
  /\ Qabs' (snd (fst (snd u))) <= peak_amp ev
  /\ end_t ev = 105#10 /\ last_emit_t (fst u) = 105#10
  /\ fst (fst (snd (update (fst u) 90%Z 11))) = None.
Proof.
  cbv zeta.
  apply (burst_reported_once
           (Detector SA (1#10) 12 (72#10) (35#100) 1 (Some 50) true 10 10 20 70%Z 1%Z 0)
           50%Z (105#10) _ (Burst SA 10 10 20 70%Z 1%Z (105#10)) _
           (snd (snd (update (Detector SA (1#10) 12 (72#10) (35#100) 1 (Some 50)
                                       true 10 10 20 70%Z 1%Z 0) 50%Z (105#10))))
           90%Z 11).
  reflexivity.
Defined.

Lemma update_inv d val ts d1 ev dl mm :
  update d val ts = (d1, (ev, dl, mm)) -> det_inv d ->
  det_inv d1
  /\ match ev with
     | Some e => trig_on d <= peak_amp e
                 /\ det_refractory d <= start_t e - last_emit_t d
                 /\ last_emit_t d1 = end_t e /\ ev_sensor e = name d
     | None => last_emit_t d1 = last_emit_t d
     end.
Proof.
  unfold update, det_inv.
  destruct (in_burst d) eqn:Eb; cbn [negb].
  - intros H Hi. destruct (Hi eq_refl) as [Hp Hr].
    destruct (Qltb _ (trig_off d) && Qleb (minsep d) _);
      injection H as <- <- <- <-; cbn.
    + split; [discriminate|].
      split; [destruct (Qltb (d_peak_amp d) _) eqn:E; qprops; lra|].
      repeat split; assumption.
    + split; [|reflexivity]. intros _.
      split; [destruct (Qltb (d_peak_amp d) _) eqn:E; qprops; lra | exact Hr].
  - intros H _.
    destruct (Qleb (trig_on d) _ && Qleb (det_refractory d) _) eqn:Es;
      injection H as <- <- <- <-; cbn.
    + apply andb_prop in Es as [E1 E2]. qprops.
      split; [|reflexivity]. intros _. split; assumption.
    + split; [|reflexivity]. discriminate.
Qed.

Lemma feed_all_inv samples : forall d,
  det_inv d ->
  Forall (fun e => trig_on d <= peak_amp e /\ ev_sensor e = name d)
         (snd (feed_all d samples))
  /\ bursts_spaced (det_refractory d) (last_emit_t d) (snd (feed_all d samples)).
Proof.
  induction samples as [|[val ts] samples IH]; intros d Hi.
  - split; [constructor | exact I].
  - cbn [feed_all].
    pose proof (update_config d val ts) as Hc. cbv zeta in Hc.
    destruct (update d val ts) as [d1 [[ev dl] mm]] eqn:U. cbn [fst] in Hc.
    destruct Hc as [Hn [_ [Ht [_ [_ [Hr _]]]]]].
    destruct (update_inv _ _ _ _ _ _ _ U Hi) as [Hi1 Hev].
    destruct (IH d1 Hi1) as [IH1 IH2]. rewrite Ht, Hr, Hn in *.
    destruct (feed_all d1 samples) as [d2 evs]. cbn [snd] in *.
    destruct ev as [e|].
    + destruct Hev as [H1 [H2 [H3 H4]]]. rewrite H3 in IH2.
      split; [constructor; [split; assumption | exact IH1] | split; assumption].
    + rewrite Hev in IH2. split; assumption.
Qed.

(** X11.  Whatever samples a fresh detector is fed, every burst it reports
    carries the detector's name and a peak of at least [trig_on], and
    each burst starts at least [refractory] after the previous one was
    reported (the first one at least [refractory] after time 0). *)
Theorem reported_bursts_are_strong_and_spaced nm ema_alpha trig hys msep refr samples :
  let evs := snd (feed_all (new_detector nm ema_alpha trig hys msep refr) samples) in
  Forall (fun e => trig <= peak_amp e /\ ev_sensor e = nm) evs
  /\ bursts_spaced refr 0 evs.
Proof.
  apply (feed_all_inv samples (new_detector nm ema_alpha trig hys msep refr)).
  intros H. discriminate H.
Qed.

End DetectorFacts.

(** ** The pairing loop as a whole *)

Section PairingLoop.
Import Counter CounterRuns.
Local Open Scope Q_scope.
Variable args : Args.

(** Induction along the turns of the loop. *)
Lemma pairing_induction
      (P : list BurstEvent -> list BurstEvent -> Totals ->
           list BurstEvent * list BurstEvent * Totals * list Crossing -> Prop) :
  (forall qB tot, P [] qB tot ([], qB, tot, [])) ->
  (forall qA tot, P qA [] tot (qA, [], tot, [])) ->
  (forall a qA b qB tot p tot' c rA rB tot'' cs,
      turn args tot a b = (p, tot', c) ->
      let qA1 := match p with PopB => a :: qA | _ => qA end in
      let qB1 := match p with PopA => b :: qB | _ => qB end in
      pairing args qA1 qB1 tot' = (rA, rB, tot'', cs) ->
      P qA1 qB1 tot' (rA, rB, tot'', cs) ->
      P (a :: qA) (b :: qB) tot
        (rA, rB, tot'', match c with Some x => x :: cs | None => cs end)) ->
  forall qA qB tot, P qA qB tot (pairing args qA qB tot).
Proof.
  intros H0 H1 Hs. induction qA as [|a qA IHA]; intros qB.
  - intros tot. rewrite pairing_nil_l. apply H0.
  - induction qB as [|b qB IHB]; intros tot.
    + rewrite pairing_nil_r. apply H1.
    + rewrite pairing_cons.
      destruct (turn args tot a b) as [[p tot'] c] eqn:T.
      destruct p.
      * specialize (IHA (b :: qB) tot').
        destruct (pairing args qA (b :: qB) tot') as [[[rA rB] tot''] cs] eqn:R.
        apply (Hs a qA b qB tot PopA tot' c rA rB tot'' cs T R IHA).
      * specialize (IHB tot').
        destruct (pairing args (a :: qA) qB tot') as [[[rA rB] tot''] cs] eqn:R.
        apply (Hs a qA b qB tot PopB tot' c rA rB tot'' cs T R IHB).
      * specialize (IHA qB tot').
        destruct (pairing args qA qB tot') as [[[rA rB] tot''] cs] eqn:R.
        apply (Hs a qA b qB tot PopBoth tot' c rA rB tot'' cs T R IHA).
Qed.

(** What one turn does to the totals, and what an accepted crossing
    looks like. *)
Lemma turn_effect tot a b p tot' c :
  turn args tot a b = (p, tot', c) ->
  match c with
  | None => tot' = tot
  | Some x =>
      p = PopBoth
      /\ last_cross_t tot' = c_time x
      /\ refract args <= c_time x - last_cross_t tot
      /\ c_dt x = gap args a b
      /\ min_dt args <= c_dt x <= pair args
      /\ edge_time args (c_lead x) <= edge_time args (c_lag x)
      /\ (if is_A_to_B x
          then c_lead x = a /\ c_lag x = b
               /\ inbound tot' = (inbound tot + 1)%Z /\ outbound tot' = outbound tot
          else c_lead x = b /\ c_lag x = a
               /\ inbound tot' = inbound tot /\ outbound tot' = (outbound tot + 1)%Z)
  end.
Proof.
  unfold turn, gap.
  destruct (Qltb (pair args) _) eqn:E1; [intros [= <- <- <-]; reflexivity|].
  destruct (Qltb _ (min_dt args)) eqn:E2; [intros [= <- <- <-]; reflexivity|].
  destruct (Qltb (edge_time args a) (edge_time args b)) eqn:E3.
  - destruct (Qleb (amp_ratio args * peak_amp b) (peak_amp a)); cbn [negb];
      [|intros [= <- <- <-]; reflexivity].
    destruct (Qltb _ (refract args)) eqn:E4; [intros [= <- <- <-]; reflexivity|].
    intros [= <- <- <-]. cbn. qprops. repeat split; try assumption; lra.
  - destruct (Qleb (amp_ratio args * peak_amp a) (peak_amp b)); cbn [negb];
      [|intros [= <- <- <-]; reflexivity].
    destruct (Qltb _ (refract args)) eqn:E4; [intros [= <- <- <-]; reflexivity|].
    intros [= <- <- <-]. cbn. qprops. repeat split; try assumption; lra.
Qed.

(** X12.  The loop stops with one queue empty; the queues it leaves are what
    remains of the input queues after dropping events from the front
    (nothing is reordered or invented), and every crossing has used up
    one event of each queue. *)
Theorem pairing_consumes_queue_fronts qA qB tot :
  let '(rA, rB, _, cs) := pairing args qA qB tot in
  (rA = [] \/ rB = [])
  /\ (exists kA, rA = drop kA qA /\ (length cs <= kA <= length qA)%nat)
  /\ (exists kB, rB = drop kB qB /\ (length cs <= kB <= length qB)%nat).
Proof.
  apply (pairing_induction
           (fun qA qB tot r =>
              let '(rA, rB, _, cs) := r in
              (rA = [] \/ rB = [])
              /\ (exists kA, rA = drop kA qA /\ (length cs <= kA <= length qA)%nat)
              /\ (exists kB, rB = drop kB qB /\ (length cs <= kB <= length qB)%nat))).
  - intros qB0 tot0. split; [now left|].
    split; exists 0%nat; split; try reflexivity; simpl; lia.
  - intros qA0 tot0. split; [now right|].
    split; exists 0%nat; split; try reflexivity; simpl; lia.
  - intros a qA0 b qB0 tot0 p tot' c rA rB tot'' cs T qA1 qB1 _ [Hemp [[kA [HA LA]] [kB [HB LB]]]].
    pose proof (turn_effect _ _ _ _ _ _ T) as Hc.
    split; [exact Hemp|].
    assert (Hp : c = None \/ p = PopBoth)
      by (destruct c; [right; apply Hc | now left]).
    subst qA1 qB1.
    split.
    + destruct p.
      * exists (S kA). split; [exact HA|]. destruct c; destruct Hp as [?|?];
          try discriminate; simpl; lia.
      * exists kA. split; [exact HA|]. destruct c; destruct Hp as [?|?];
          try discriminate; simpl in *; lia.
      * exists (S kA). split; [exact HA|]. destruct c; simpl; lia.
    + destruct p.
      * exists kB. split; [exact HB|]. destruct c; destruct Hp as [?|?];
          try discriminate; simpl in *; lia.
      * exists (S kB). split; [exact HB|]. destruct c; destruct Hp as [?|?];
          try discriminate; simpl; lia.
      * exists (S kB). split; [exact HB|]. destruct c; simpl; lia.
Qed.

(** X13.  The totals count the crossings.  [inbound] grows by the number of
    A-to-B crossings accepted, [outbound] by the number of B-to-A
    crossings, and [last_cross_t] ends as the time of the last crossing
    accepted (unchanged if there is none). *)
Theorem pairing_totals_count_crossings qA qB tot :
  let '(_, _, tot', cs) := pairing args qA qB tot in
  inbound tot' = (inbound tot + Z.of_nat (length (filter (fun c => is_A_to_B c = true) cs)))%Z
  /\ outbound tot'
     = (outbound tot + Z.of_nat (length (filter (fun c => is_A_to_B c = false) cs)))%Z
  /\ last_cross_t tot' = last_time (last_cross_t tot) cs.
Proof.
  apply (pairing_induction
           (fun qA qB tot r =>
              let '(_, _, tot', cs) := r in
              inbound tot'
              = (inbound tot + Z.of_nat (length (filter (fun c => is_A_to_B c = true) cs)))%Z
              /\ outbound tot'
                 = (outbound tot
                    + Z.of_nat (length (filter (fun c => is_A_to_B c = false) cs)))%Z
              /\ last_cross_t tot' = last_time (last_cross_t tot) cs)).
  - intros. simpl. repeat split; lia.
  - intros. simpl. repeat split; lia.
  - intros a qA0 b qB0 tot0 p tot' c rA rB tot'' cs T qA1 qB1 _ [Hi [Ho Hl]].
    pose proof (turn_effect _ _ _ _ _ _ T) as Hc.
    destruct c as [x|]; [|subst tot'; auto].
    destruct Hc as [_ [Ht [_ [_ [_ [_ Hd]]]]]].
    rewrite !filter_cons. unfold last_time in *. cbn [fold_left]. rewrite <- Ht.
    destruct (is_A_to_B x) eqn:Ex.
    + destruct Hd as [_ [_ [Hi' Ho']]].
      rewrite decide_True by reflexivity. rewrite decide_False by discriminate.
      cbn [length]. repeat split; [lia | lia | exact Hl].
    + destruct Hd as [_ [_ [Hi' Ho']]].
      rewrite decide_False by discriminate. rewrite decide_True by reflexivity.
      cbn [length]. repeat split; [lia | lia | exact Hl].
Qed.

(** X14.  Every crossing the loop accepts passed the window and the
    minimum-separation guard and has the earlier edge as lead, and the
    crossings keep the refractory distance: each crossing time is at
    least [refract] after the one before, the first at least [refract]
    after the [last_cross_t] the loop started with. *)
Theorem pairing_crossings_within_guards qA qB tot :
  let cs := snd (pairing args qA qB tot) in
  Forall (fun c => min_dt args <= c_dt c <= pair args
                   /\ edge_time args (c_lead c) <= edge_time args (c_lag c)) cs
  /\ crossings_spaced (refract args) (last_cross_t tot) cs.
Proof.
  cbv zeta.
  apply (pairing_induction
           (fun qA qB tot r =>
              Forall (fun c => min_dt args <= c_dt c <= pair args
                               /\ edge_time args (c_lead c) <= edge_time args (c_lag c))
                     (snd r)
              /\ crossings_spaced (refract args) (last_cross_t tot) (snd r))).
  - intros. split; [constructor | exact I].
  - intros. split; [constructor | exact I].
  - intros a qA0 b qB0 tot0 p tot' c rA rB tot'' cs T qA1 qB1 _ [Hf Hs].
    cbn [snd] in *.
    pose proof (turn_effect _ _ _ _ _ _ T) as Hc.
    destruct c as [x|]; [|subst tot'; split; assumption].
    destruct Hc as [_ [Ht [Hr [_ [Hw [Ho _]]]]]].
    rewrite Ht in Hs.
    split; [constructor; [split; assumption | exact Hf] | split; assumption].
Qed.

End PairingLoop.

(** ** Running statistics of rd03e_scope.py *)

Section WelfordFacts.
Import Scope Reader ScopeStats.
Local Open Scope Q_scope.

(** [_update_me_stats] is one Welford step on the reader's three fields
    and touches nothing else. *)
Lemma update_me_stats_step x r :
  me_stats (update_me_stats x r) = welford_step x (me_stats r)
  /\ trig_on (update_me_stats x r) = trig_on r
  /\ last_valid_ts (update_me_stats x r) = last_valid_ts r
  /\ last_emit_ts (update_me_stats x r) = last_emit_ts r
  /\ last_me (update_me_stats x r) = last_me r
  /\ dist_ring (update_me_stats x r) = dist_ring r.
Proof. repeat split. Qed.

Lemma welford_step_inv x w s :
  (0 <= w_n w)%Z -> w_mean w * inject_Z (w_n w) == s -> 0 <= w_m2 w ->
  (w_n (welford_step x w) = w_n w + 1)%Z
  /\ w_mean (welford_step x w) * inject_Z (w_n (welford_step x w)) == s + x
  /\ w_m2 w <= w_m2 (welford_step x w).
Proof.
  intros Hn Hs Hm. unfold welford_step. cbn.
  set (N := inject_Z (w_n w)) in *.
  assert (HN : inject_Z (w_n w + 1) == N + 1)
    by (subst N; rewrite inject_Z_plus; reflexivity).
  assert (HN0 : 0 <= N) by (subst N; change 0 with (inject_Z 0);
                            rewrite <- Zle_Qle; exact Hn).
  split; [reflexivity|]. rewrite !HN. split.
  - rewrite <- Hs. field. lra.
  - assert (E : (x - w_mean w) * (x - (w_mean w + (x - w_mean w) / (N + 1)))
                == (x - w_mean w) * (x - w_mean w) * (N / (N + 1)))
      by (field; lra).
    rewrite E.
    assert (Hsq : 0 <= (x - w_mean w) * (x - w_mean w)).
    { generalize (x - w_mean w). intro d.
      destruct (Qlt_le_dec d 0).
      - assert (Ed : d * d == (- d) * (- d)) by ring.
        rewrite Ed. apply Qmult_le_0_compat; lra.
      - apply Qmult_le_0_compat; lra. }
    assert (Hfr : 0 <= N / (N + 1)).
    { apply Qle_shift_div_l; lra. }
    pose proof (Qmult_le_0_compat _ _ Hsq Hfr). lra.
Qed.

Lemma welford_all_inv xs : forall w s,
  (0 <= w_n w)%Z -> w_mean w * inject_Z (w_n w) == s -> 0 <= w_m2 w ->
  (w_n (welford_all xs w) = w_n w + Z.of_nat (length xs))%Z
  /\ w_mean (welford_all xs w) * inject_Z (w_n (welford_all xs w)) == s + Qsum xs
  /\ w_m2 w <= w_m2 (welford_all xs w).
Proof.
  induction xs as [|x xs IH]; intros w s Hn Hs Hm.
  - cbn. split; [lia|]. split; [rewrite Hs; ring | lra].
  - destruct (welford_step_inv x w s Hn Hs Hm) as [H1 [H2 H3]].
    destruct (IH (welford_step x w) (s + x)) as [I1 [I2 I3]];
      [lia | exact H2 | lra |].
    change (welford_all (x :: xs) w) with (welford_all xs (welford_step x w)).
    split; [rewrite I1, H1; cbn [length]; lia|].
    split; [rewrite I2; cbn [Qsum]; ring | lra].
Qed.

(** X15.  The running statistics are the statistics of the samples.  Started
    from zero and fed [xs], the accumulator has counted [len(xs)]
    samples, its mean times the count is the sum of the samples (the mean
    is their arithmetic mean), and the squared-deviation sum [m2] is
    never negative and never decreases from one sample to the next. *)
Theorem welford_mean_is_average xs ys :
  let w := welford_all xs (MkWelford 0 0 0) in
  w_n w = Z.of_nat (length xs)
  /\ w_mean w * inject_Z (Z.of_nat (length xs)) == Qsum xs
  /\ 0 <= w_m2 w
  /\ w_m2 w <= w_m2 (welford_all ys w).
Proof.
  cbv zeta.
  destruct (welford_all_inv xs (MkWelford 0 0 0) 0) as [H1 [H2 H3]];
    [cbn; lia | cbn; ring | cbn; lra |].
  cbn [w_n w_m2] in *.
  assert (H1' : w_n (welford_all xs (MkWelford 0 0 0)) = Z.of_nat (length xs))
    by lia.
  split; [exact H1'|]. split; [rewrite <- H1', H2; ring|].
  split; [exact H3|].
  destruct (welford_all_inv ys (welford_all xs (MkWelford 0 0 0)) (0 + Qsum xs))
    as [_ [_ H4]]; [lia | exact H2 | exact H3 | exact H4].
Qed.

End WelfordFacts.
(** ** The edge pairer of rd03e_scope.py over several calls *)

Section EdgeSequences.
Import Scope Reader ScopeStats.
Local Open Scope Q_scope.

Lemma emit_dir_edge_flags s now eh le d st0 :
  ta (snd (emit_dir_edge s now eh le d st0)) = ta st0
  /\ tb (snd (emit_dir_edge s now eh le d st0)) = tb st0.
Proof.
  destruct (emit_dir_edge_state s now eh le d st0) as [-> | [evt [cls [ev ->]]]];
    split; reflexivity.
Qed.

(** The result of a call that pairs the new edge with the pending one. *)
Lemma emit_dir_edge_paired s now eh le d st0 pend :
  pending d = Some pend -> side_eqb pend s = false ->
  5#100 <= now - le -> refract_until d <= now ->
  now - ts d <= pair (params st0) -> minsep (params st0) <= now - last_ts d ->
  let evt := match pend with A => A2B | B => B2A end in
  let rise := set_rise s now (rise_ts d) in
  let ev := classify (params st0) eh evt now (fst rise) (snd rise) in
  emit_dir_edge s now eh le d st0
  = (now,
     MkDir None 0 (now + refract (params st0)) (Some evt) now (Some rise),
     set_counts (count_event evt (match e_class ev with Some Car => Car | _ => Other end)
                             ev (counts st0)) st0).
Proof.
  intros Hp Hs Hdeb Href Hpair Hsep. unfold emit_dir_edge.
  rewrite (proj2 (Qltb_false _ _) Hdeb), (proj2 (Qltb_false _ _) Href), Hp, Hs.
  cbn [negb andb]. rewrite (proj2 (Qleb_true _ _) Hpair), (proj2 (Qleb_true _ _) Hsep).
  reflexivity.
Qed.

(** X16.  Refractory time after a counted event.  Once a call has paired
    two edges into a direction event at time [now], every later call
    (from either reader, whatever its debounce stamp) at a time before
    [now + refract] leaves [DIR] and [STATE] exactly as the event left
    them: no edge is recorded as pending and nothing is counted. *)
Theorem no_edge_recorded_before_refract_ends
        s now eh le d st0 pend s2 now2 eh2 le2 :
  pending d = Some pend -> side_eqb pend s = false ->
  5#100 <= now - le -> refract_until d <= now ->
  now - ts d <= pair (params st0) -> minsep (params st0) <= now - last_ts d ->
  now2 < now + refract (params st0) ->
  let r := emit_dir_edge s now eh le d st0 in
  let r2 := emit_dir_edge s2 now2 eh2 le2 (snd (fst r)) (snd r) in
  snd (fst r2) = snd (fst r) /\ snd r2 = snd r
  /\ refract_until (snd (fst r)) == now + refract (params st0).
Proof.
  intros Hp Hs Hdeb Href Hpair Hsep Hlt r r2. subst r2 r.
  rewrite (emit_dir_edge_paired s now eh le d st0 pend Hp Hs Hdeb Href Hpair Hsep).
  cbn [fst snd].
  split; [|split; [|reflexivity]].
  - unfold emit_dir_edge at 1.
    destruct (Qltb (now2 - le2) (5 # 100)); [reflexivity|].
    cbn [refract_until]. rewrite (proj2 (Qltb_true _ _) Hlt). reflexivity.
  - unfold emit_dir_edge at 1.
    destruct (Qltb (now2 - le2) (5 # 100)); [reflexivity|].
    cbn [refract_until]. rewrite (proj2 (Qltb_true _ _) Hlt). reflexivity.
Qed.

Lemma no_edge_recorded_before_refract_ends_witness :
  let r := emit_dir_edge B (104#10) strong_hist 0 (snd (fst after_A)) (snd after_A) in
  let r2 := emit_dir_edge A 11 strong_hist 10 (snd (fst r)) (snd r) in
  snd (fst r2) = snd (fst r) /\ snd r2 = snd r
  /\ refract_until (snd (fst r)) == (104#10) + refract (params (snd after_A)).
Proof.
  apply (no_edge_recorded_before_refract_ends
           B (104#10) strong_hist 0 (snd (fst after_A)) (snd after_A) A
           A 11 strong_hist 10); vm_compute; try reflexivity; discriminate.
Defined.

(** X17.  A second edge from the same side restarts the pairing.  With no
    edge pending, an edge from side [s1] at [t1], a second edge from
    the same side at [t2] and then an edge from the other side at [t3]
    within [pair] of [t2] give one direction event [s1 -> s2] at the
    third call, classified on the rise times [t2] and [t3]: the first
    edge plays no part, however long before [t2] it came. *)
Theorem same_side_edge_restarts_pairing s1 s2 t1 t2 t3 eh1 eh2 eh3 le1 le3 d st0 :
  pending d = None -> side_eqb s1 s2 = false ->
  5#100 <= t1 - le1 -> 5#100 <= t2 - t1 -> 5#100 <= t3 - le3 ->
  refract_until d <= t1 -> t2 <= t3 ->
  t3 - t2 <= pair (params st0) -> minsep (params st0) <= t3 - last_ts d ->
  let r1 := emit_dir_edge s1 t1 eh1 le1 d st0 in
  let r2 := emit_dir_edge s1 t2 eh2 (fst (fst r1)) (snd (fst r1)) (snd r1) in
  let r3 := emit_dir_edge s2 t3 eh3 le3 (snd (fst r2)) (snd r2) in
  let evt := match s1 with A => A2B | B => B2A end in
  let ev := match s1 with
            | A => classify (params st0) eh3 evt t3 (Some t2) (Some t3)
            | B => classify (params st0) eh3 evt t3 (Some t3) (Some t2)
            end in
  snd r1 = st0 /\ snd r2 = st0
  /\ pending (snd (fst r2)) = Some s1 /\ ts (snd (fst r2)) = t2
  /\ snd r3 = set_counts (count_event evt
                            (match e_class ev with Some Car => Car | _ => Other end)
                            ev (counts st0)) st0
  /\ last (snd (fst r3)) = Some evt
  /\ pending (snd (fst r3)) = None.
Proof.
  intros Hp Hs H1 H2 H3 Hr H23 Hpair Hsep. cbv zeta.
  assert (E1 : emit_dir_edge s1 t1 eh1 le1 d st0
               = (t1, MkDir (Some s1) t1 (refract_until d) (last d) (last_ts d)
                            (Some (set_rise s1 t1 (rise_ts d))), st0)).
  { unfold emit_dir_edge.
    rewrite (proj2 (Qltb_false _ _) H1), (proj2 (Qltb_false _ _) Hr), Hp.
    reflexivity. }
  rewrite E1. cbn [fst snd].
  assert (Hr2 : refract_until d <= t2) by lra.
  set (d1 := MkDir (Some s1) t1 (refract_until d) (last d) (last_ts d)
                   (Some (set_rise s1 t1 (rise_ts d)))).
  set (d2 := MkDir (Some s1) t2 (refract_until d) (last d) (last_ts d)
                   (Some (set_rise s1 t2 (Some (set_rise s1 t1 (rise_ts d)))))).
  assert (E2 : emit_dir_edge s1 t2 eh2 t1 d1 st0 = (t2, d2, st0)).
  { unfold emit_dir_edge, d1, d2.
    rewrite (proj2 (Qltb_false _ _) H2). cbn [refract_until pending ts rise_ts last last_ts].
    rewrite (proj2 (Qltb_false _ _) Hr2).
    assert (Hss : side_eqb s1 s1 = true) by (destruct s1; reflexivity).
    rewrite Hss. reflexivity. }
  rewrite E2. cbn [fst snd].
  assert (Hr3 : refract_until d <= t3) by lra.
  pose proof (emit_dir_edge_paired s2 t3 eh3 le3 d2 st0 s1 eq_refl Hs H3 Hr3 Hpair Hsep)
    as E3.
  cbv zeta in E3. rewrite E3. cbn [fst snd pending ts last rise_ts d2].
  repeat split.
  destruct s1, s2; try discriminate Hs;
    destruct (rise_ts d) as [[ra rb]|]; reflexivity.
Qed.

Lemma same_side_edge_restarts_pairing_witness :
  let st0 := set_params demo_params initial_state in
  let r1 := emit_dir_edge A 10 strong_hist 0 initial_dir st0 in
  let r2 := emit_dir_edge A 20 strong_hist (fst (fst r1)) (snd (fst r1)) (snd r1) in
  let r3 := emit_dir_edge B (204#10) weak_hist 0 (snd (fst r2)) (snd r2) in
  let evt := A2B in
  let ev := classify (params st0) weak_hist evt (204#10) (Some 20) (Some (204#10)) in
  snd r1 = st0 /\ snd r2 = st0
  /\ pending (snd (fst r2)) = Some A /\ ts (snd (fst r2)) = 20
  /\ snd r3 = set_counts (count_event evt
                            (match e_class ev with Some Car => Car | _ => Other end)
                            ev (counts st0)) st0
  /\ last (snd (fst r3)) = Some evt
  /\ pending (snd (fst r3)) = None.
Proof.
  apply (same_side_edge_restarts_pairing A B 10 20 (204#10)
           strong_hist strong_hist weak_hist 0 0 initial_dir
           (set_params demo_params initial_state));
    vm_compute; try reflexivity; discriminate.
Defined.

End EdgeSequences.
(** ** One sample through the reader of rd03e_scope.py *)

Section SampleFacts.
Import Scope Reader ScopeStats.
Local Open Scope Q_scope.
Variable sqrt : Q -> Q.

Lemma decision_prev s now me_s w :
  d_prev (decision sqrt s now me_s w) = trig_on (rs w).
Proof.
  unfold decision. cbn [d_prev].
  destruct (s_move_dist (ld_s_of s (st w)));
    destruct (Qltb me_s _); reflexivity.
Qed.

Lemma count_event_steps evt cls ev c :
  let c' := count_event evt cls ev c in
  (count_A2B c' + count_B2A c' = count_A2B c + count_B2A c + 1)%Z
  /\ (count_total c' + count_other c' = count_total c + count_other c + 1)%Z
  /\ (count_A2B c <= count_A2B c' <= count_A2B c + 1)%Z
  /\ (count_B2A c <= count_B2A c' <= count_B2A c + 1)%Z
  /\ (count_total c <= count_total c' <= count_total c + 1)%Z
  /\ (count_other c <= count_other c' <= count_other c + 1)%Z.
Proof. destruct evt, cls; cbn; lia. Qed.

Lemma update_trigger_counts s now borrowed eh me_s w :
  let w' := update_trigger sqrt s now borrowed eh me_s w in
  counts (st w') = counts (st w)
  \/ (borrowed = false /\ trig_on (rs w) = false /\ trig_on (rs w') = true
      /\ exists evt cls ev,
          counts (st w') = count_event evt cls ev (counts (st w))).
Proof.
  cbv zeta. unfold update_trigger.
  pose proof (decision_prev s now me_s w) as Hprev.
  destruct borrowed; [left; reflexivity|].
  destruct (negb (d_prev (decision sqrt s now me_s w))
            && d_new_on (decision sqrt s now me_s w)
            && d_m_on (decision sqrt s now me_s w)) eqn:G.
  - apply andb_prop in G as [G Hm]. apply andb_prop in G as [Hp Hn].
    apply negb_true_iff in Hp. rewrite Hprev in Hp.
    destruct (emit_dir_edge s now eh
                (last_emit_ts (d_reader (decision sqrt s now me_s w)))
                (dir w) (st w)) as [[le d'] st'] eqn:E.
    pose proof (emit_dir_edge_state s now eh
                  (last_emit_ts (d_reader (decision sqrt s now me_s w)))
                  (dir w) (st w)) as Hst.
    rewrite E in Hst. cbn [snd] in Hst. cbn [st rs trig_on].
    destruct Hst as [-> | [evt [cls [ev ->]]]].
    + left. destruct s; reflexivity.
    + right. repeat split; try assumption.
      exists evt, cls, ev. destruct s; reflexivity.
  - left. cbn [st]. destruct s; reflexivity.
Qed.

(** X18.  One sample, at most one event.  Processing a decoded report
    (publish, smooth, trigger) either leaves the four counters and
    [last_event] as they were, or counts exactly one event: one
    direction counter and one of [count_total]/[count_other] go up by
    one, none goes down.  The second case needs the port not to be
    borrowed and the reader's own trigger to rise with this sample. *)
Theorem sample_counts_at_most_one_event s now borrowed eh rep w :
  let w' := fst (process_report sqrt s now borrowed eh rep w) in
  let c := counts (st w) in
  let c' := counts (st w') in
  c' = c
  \/ (borrowed = false /\ trig_on (rs w) = false /\ trig_on (rs w') = true
      /\ (count_A2B c' + count_B2A c' = count_A2B c + count_B2A c + 1)%Z
      /\ (count_total c' + count_other c' = count_total c + count_other c + 1)%Z
      /\ (count_A2B c <= count_A2B c' <= count_A2B c + 1)%Z
      /\ (count_B2A c <= count_B2A c' <= count_B2A c + 1)%Z
      /\ (count_total c <= count_total c' <= count_total c + 1)%Z
      /\ (count_other c <= count_other c' <= count_other c + 1)%Z).
Proof.
  cbv zeta. unfold process_report. cbn [fst].
  assert (Ec : forall x y, counts (set_ld_s s x (set_ld s y (st w))) = counts (st w))
    by (intros; destruct s; reflexivity).
  destruct (smooth_ok _ _ _); [|left; cbn [st]; apply Ec].
  match goal with
  | |- context [update_trigger sqrt s now borrowed eh ?m ?w0] =>
      pose proof (update_trigger_counts s now borrowed eh m w0) as H;
      set (w1 := update_trigger sqrt s now borrowed eh m w0) in *
  end.
  cbv zeta in H. cbn [st rs] in H.
  rewrite Ec in H.
  destruct H as [H | [Hb [Hp [Hn [evt [cls [ev H]]]]]]]; [left; exact H|].
  right. rewrite H.
  split; [exact Hb|]. split; [exact Hp|]. split; [exact Hn|].
  apply count_event_steps.
Qed.

(** X19.  The published trigger flag follows the reader.  After a sample
    is run through [_update_trigger] with the port not borrowed,
    [STATE[ta]] (for reader A, [tb] for B) equals the reader's
    [trig_on], which is the decided [new_on]; the other reader's flag
    is not touched.  With the port borrowed neither flag nor [trig_on]
    changes. *)
Theorem trigger_flag_follows_reader s now borrowed eh me_s w :
  let w' := update_trigger sqrt s now borrowed eh me_s w in
  let other := match s with A => B | B => A end in
  trig_of other (st w') = trig_of other (st w)
  /\ (borrowed = false ->
      trig_of s (st w') = trig_on (rs w')
      /\ trig_on (rs w') = d_new_on (decision sqrt s now me_s w)
      /\ last_me (rs w') = me_s)
  /\ (borrowed = true ->
      trig_of s (st w') = trig_of s (st w)
      /\ trig_on (rs w') = trig_on (rs w)
      /\ dir w' = dir w /\ st w' = st w).
Proof.
  cbv zeta. unfold update_trigger.
  pose proof (decision_prev s now me_s w) as Hprev.
  destruct borrowed.
  - cbn [st rs dir]. split; [reflexivity|]. split; [discriminate|].
    intros _. repeat split.
    unfold decision in *. cbn [d_reader d_prev] in *. exact Hprev.
  - set (dc := decision sqrt s now me_s w) in *.
    destruct (if negb (d_prev dc) && d_new_on dc && d_m_on dc
              then emit_dir_edge s now eh (last_emit_ts (d_reader dc)) (dir w) (st w)
              else (last_emit_ts (d_reader dc), dir w, st w))
      as [[le d'] st'] eqn:E.
    assert (Hf : ta st' = ta (st w) /\ tb st' = tb (st w)).
    { destruct (negb (d_prev dc) && d_new_on dc && d_m_on dc).
      - pose proof (emit_dir_edge_flags s now eh (last_emit_ts (d_reader dc))
                      (dir w) (st w)) as F.
        rewrite E in F. exact F.
      - injection E as _ _ <-. split; reflexivity. }
    destruct Hf as [Ha Hb]. cbn [st rs trig_on last_me].
    split; [destruct s; cbn; assumption|].
    split; [|discriminate].
    intros _. split; [destruct s; reflexivity|]. split; reflexivity.
Qed.

(** The moving logic in level mode, written out. *)
Lemma level_moving_logic s now p se_s me_s r lv prev :
  trig_mode p = ModeLevel ->
  m_on_of (signals sqrt s now p se_s me_s r) lv prev
  = (prev && negb (Qltb me_s (Qmax' 0 (mov_trig_of s p - mov_hys_of s p))
                   && Qltb (mov_hold_of s p) (now - lv)))
    || (negb prev && Qleb (mov_trig_of s p) me_s).
Proof.
  intros Hm. unfold signals. cbn [m_on_of]. rewrite Hm.
  destruct s; reflexivity.
Qed.

Lemma level_active_sample s now p se_s me_s r :
  trig_mode p = ModeLevel -> trig_source p = SrcMoving ->
  active_sample (signals sqrt s now p se_s me_s r)
  = Qleb (inject_Z (min_energy p)) me_s.
Proof.
  intros Hm Hs. unfold signals. cbn [active_sample]. rewrite Hm, Hs.
  cbn [andb orb]. rewrite orb_false_r. reflexivity.
Qed.

(** X20.  Hysteresis of the level trigger.  With [trig_mode = "level"]
    and [trig_source = "moving"]: an off trigger turns on exactly when
    the smoothed move energy reaches the side's threshold; an on
    trigger turns off only when the energy is below
    [max(0, trig - hys)] and more than [hold] seconds have passed since
    the last active sample; and while the energy is at least
    [min_energy] (an active sample) and [hold] is not negative, an on
    trigger stays on. *)
Theorem level_trigger_hysteresis s now me_s w :
  let p := params (st w) in
  let dc := decision sqrt s now me_s w in
  trig_mode p = ModeLevel -> trig_source p = SrcMoving ->
  (trig_on (rs w) = false ->
   (d_new_on dc = true <-> mov_trig_of s p <= me_s))
  /\ (trig_on (rs w) = true -> d_new_on dc = false ->
      me_s < Qmax' 0 (mov_trig_of s p - mov_hys_of s p)
      /\ mov_hold_of s p < now - d_last_valid dc)
  /\ (trig_on (rs w) = true -> 0 <= mov_hold_of s p ->
      inject_Z (min_energy p) <= me_s -> d_new_on dc = true).
Proof.
  cbv zeta. intros Hm Hs.
  pose proof (decision_prev s now me_s w) as Hprev.
  unfold decision in *. cbn [d_prev d_new_on d_last_valid] in *.
  rewrite Hs.
  match goal with
  | |- context [signals sqrt s now ?p ?e me_s ?r] =>
      set (r2 := r) in *; set (se := e) in *
  end.
  rewrite (level_active_sample s now _ se me_s r2 Hm Hs).
  rewrite (level_moving_logic s now _ se me_s r2 _ _ Hm).
  rewrite Hprev.
  split; [|split].
  - intros ->. cbn [andb orb negb]. apply Qleb_true.
  - intros -> Hoff. cbn [andb orb negb] in Hoff. rewrite orb_false_r in Hoff.
    apply negb_false_iff in Hoff. apply andb_prop in Hoff as [H1 H2].
    apply Qltb_true in H1, H2. split; assumption.
  - intros -> Hh Hact. cbn [andb orb negb]. rewrite orb_false_r.
    rewrite (proj2 (Qleb_true _ _) Hact).
    apply negb_true_iff. apply andb_false_iff. right.
    apply Qltb_false. lra.
Qed.

End SampleFacts.
(** ** Smoothing and the classifier's look-back *)

Section SmoothingFacts.
Import Scope Reader ScopeStats.
Local Open Scope Q_scope.

Lemma convex_between a x y lo hi :
  0 <= a <= 1 -> lo <= x <= hi -> lo <= y <= hi ->
  lo <= (1 - a) * x + a * y <= hi.
Proof.
  intros Ha Hx Hy.
  assert (L1 : 0 <= (1 - a) * (x - lo)) by (apply Qmult_le_0_compat; lra).
  assert (L2 : 0 <= a * (y - lo)) by (apply Qmult_le_0_compat; lra).
  assert (U1 : 0 <= (1 - a) * (hi - x)) by (apply Qmult_le_0_compat; lra).
  assert (U2 : 0 <= a * (hi - y)) by (apply Qmult_le_0_compat; lra).
  split.
  - assert (E : (1 - a) * x + a * y - lo == (1 - a) * (x - lo) + a * (y - lo)) by ring.
    lra.
  - assert (E : hi - ((1 - a) * x + a * y) == (1 - a) * (hi - x) + a * (hi - y)) by ring.
    lra.
Qed.

Lemma in_range_Q (z lo hi : Z) :
  (lo <= z <= hi)%Z -> inject_Z lo <= inject_Z z <= inject_Z hi.
Proof. intros [H1 H2]. split; rewrite <- Zle_Qle; assumption. Qed.

(** The distance [int(...)] cuts out stays in the sensor's range. *)
Lemma fl_dist_in_range alpha md d :
  0 <= alpha <= 1 -> (0 <= md <= 6000)%Z -> (0 <= d <= 6000)%Z ->
  exists r, Binary64.fl_dist alpha md d = Some r /\ (0 <= r <= 6000)%Z.
Proof.
  intros Ha Hm Hd.
  destruct (fl_dist_close alpha md d Ha Hm Hd) as [s [F C]].
  exists (Qtrunc s). split; [exact F|].
  apply (Qtrunc_near_range s 6000 ((1 - alpha) * inject_Z md + alpha * inject_Z d));
    [lia | | exact C].
  apply (convex_between _ _ _ (inject_Z 0) (inject_Z 6000));
    [exact Ha | apply in_range_Q, Hm | apply in_range_Q, Hd].
Qed.

(** Smoothing a distance with itself gives it back, or one less. *)
Lemma fl_dist_same alpha d :
  0 <= alpha <= 1 -> (0 <= d <= 6000)%Z ->
  exists r, Binary64.fl_dist alpha d d = Some r /\ (d - 1 <= r <= d)%Z /\ (0 <= r)%Z.
Proof.
  intros Ha Hd.
  destruct (fl_dist_close alpha d d Ha Hd Hd) as [s [F C]].
  exists (Qtrunc s). split; [exact F|].
  apply Qtrunc_near_int; [lia|].
  assert (E : (1 - alpha) * inject_Z d + alpha * inject_Z d == inject_Z d) by ring.
  rewrite <- E. exact C.
Qed.

Lemma b64_unit alpha : 0 <= alpha <= 1 -> exists a0, Binary64.b64 alpha = Some a0.
Proof.
  intros Ha. destruct (b64_near alpha 0) as [a0 [B _]]; [|lia|eauto].
  change (Binary64.pow2 0) with 1. apply Qabs_Qle_condition. lra.
Qed.

(** With [ld_alpha] in [0, 1] the smoothing step raises nothing and
    keeps the smoothed values in the sensor's ranges. *)
Lemma smooth_step_in_range p rep cur :
  0 <= ld_alpha p <= 1 -> ReportWire.in_range rep -> smoothed_in_range cur ->
  smooth_ok p rep cur = true /\ smoothed_in_range (smooth p rep cur).
Proof.
  intros Ha [[d1 [d2 [Hd1 [Hd2 [R1 R2]]]]] [Re1 Re2]] [Cm [Cs [Cmd Csd]]].
  unfold smooth_ok, smooth, smooth_step. rewrite Hd1, Hd2.
  destruct (b64_unit _ Ha) as [a0 ->].
  pose proof (or_zero_Some (s_move_energy cur)) as Om.
  assert (I1 : exists cur1,
             (if (min_energy p <=? Report.move_energy rep)%Z
              then match Binary64.fl_dist (ld_alpha p) (default d1 (s_move_dist cur)) d1 with
                   | Some md1 =>
                       (MkLdS ((1 - ld_alpha p) * or_zero (Some (s_move_energy cur))
                               + ld_alpha p * inject_Z (Report.move_energy rep))
                              (Some md1) (s_still_energy cur) (s_still_dist cur), true)
                   | None =>
                       (MkLdS ((1 - ld_alpha p) * or_zero (Some (s_move_energy cur))
                               + ld_alpha p * inject_Z (Report.move_energy rep))
                              (s_move_dist cur) (s_still_energy cur) (s_still_dist cur),
                        false)
                   end
              else (cur, true)) = (cur1, true)
             /\ smoothed_in_range cur1).
  { destruct (_ <=? _)%Z; [|exists cur; split;
                            [reflexivity | exact (conj Cm (conj Cs (conj Cmd Csd)))]].
    destruct (fl_dist_in_range (ld_alpha p) (default d1 (s_move_dist cur)) d1 Ha)
      as [r [-> Hr]]; [|exact R1|].
    { destruct (s_move_dist cur) as [m|] eqn:Em; cbn; [apply (Cmd m eq_refl) | exact R1]. }
    eexists. split; [reflexivity|].
    unfold smoothed_in_range. cbn [s_move_energy s_move_dist s_still_energy s_still_dist].
    split; [|split; [exact Cs|split; [|exact Csd]]].
    - apply convex_between; [exact Ha| lra |].
      change 0 with (inject_Z 0). change 100 with (inject_Z 100).
      apply in_range_Q, Re1.
    - intros d [= <-]. exact Hr. }
  destruct I1 as [cur1 [-> [Cm1 [Cs1 [Cmd1 Csd1]]]]]. cbn [negb].
  pose proof (or_zero_Some (s_still_energy cur1)) as Os.
  destruct (_ <=? Report.still_energy rep)%Z;
    [|split; [reflexivity | exact (conj Cm1 (conj Cs1 (conj Cmd1 Csd1)))]].
  destruct (fl_dist_in_range (ld_alpha p) (default d2 (s_still_dist cur1)) d2 Ha)
    as [r [-> Hr]]; [|exact R2|].
  { destruct (s_still_dist cur1) as [m|] eqn:Em; cbn; [apply (Csd1 m eq_refl) | exact R2]. }
  split; [reflexivity|].
  unfold smoothed_in_range. cbn [fst s_move_energy s_move_dist s_still_energy s_still_dist].
  split; [exact Cm1|]. split; [|split; [exact Cmd1|]].
  - apply convex_between; [exact Ha| lra |].
    change 0 with (inject_Z 0). change 100 with (inject_Z 100).
    apply in_range_Q, Re2.
  - intros d [= <-]. exact Hr.
Qed.

(** X21.  Smoothed values stay in the sensor's ranges.  With
    [0 <= ld_alpha <= 1], a report whose energies are in [0, 100] and
    whose distances are in [0, 6000] (every decoded report is), and
    smoothed values in those ranges, the smoothing step leaves the
    smoothed energies in [0, 100] and the smoothed distances in
    [0, 6000]. *)
Theorem smoothed_values_stay_in_range p rep cur :
  0 <= ld_alpha p <= 1 -> ReportWire.in_range rep -> smoothed_in_range cur ->
  smoothed_in_range (smooth p rep cur).
Proof.
  intros Ha Hr Hc. exact (proj2 (smooth_step_in_range p rep cur Ha Hr Hc)).
Qed.

(** X22.  The first accepted sample.  While a channel has no smoothed
    move distance yet, a report with a move distance [d] in [0, 6000]
    and a move energy of at least [min_energy] sets the smoothed
    distance, for [ld_alpha] in [0, 1], to [d] or to [d - 1]: the code
    cuts [(1-alpha)*d + alpha*d] out of a float, and that float can lie
    just below [d].  The smoothed energy is not set to the sample's but
    moved toward it by the usual step. *)
Theorem first_sample_distance_within_one p rep cur d :
  s_move_dist cur = None -> Report.move_dist_cm rep = Some d ->
  (min_energy p <= Report.move_energy rep)%Z ->
  0 <= ld_alpha p <= 1 -> (0 <= d <= 6000)%Z ->
  (exists r, s_move_dist (smooth p rep cur) = Some r
             /\ (d - 1 <= r <= d)%Z /\ (0 <= r)%Z)
  /\ s_move_energy (smooth p rep cur)
     == (1 - ld_alpha p) * s_move_energy cur
        + ld_alpha p * inject_Z (Report.move_energy rep).
Proof.
  intros Hn Hd He Ha Hr. unfold smooth, smooth_step. rewrite Hd, Hn.
  destruct (b64_unit _ Ha) as [a0 ->].
  apply Z.leb_le in He. rewrite He. cbn [default from_option].
  pose proof (or_zero_Some (s_move_energy cur)) as Om.
  destruct (fl_dist_same (ld_alpha p) d Ha Hr) as [r [-> Hrr]]. cbn [negb].
  assert (G : forall c : LdS * bool,
             s_move_dist (fst c) = Some r ->
             s_move_energy (fst c)
             = (1 - ld_alpha p) * or_zero (Some (s_move_energy cur))
               + ld_alpha p * inject_Z (Report.move_energy rep) ->
             (exists r0, s_move_dist (fst c) = Some r0
                         /\ (d - 1 <= r0 <= d)%Z /\ (0 <= r0)%Z)
             /\ s_move_energy (fst c)
                == (1 - ld_alpha p) * s_move_energy cur
                   + ld_alpha p * inject_Z (Report.move_energy rep)).
  { intros c G1 G2. split; [exists r; split; [exact G1 | exact Hrr]|].
    rewrite G2, Om. reflexivity. }
  destruct (Report.still_dist_cm rep) as [sd|]; [|apply G; reflexivity].
  destruct (_ <=? Report.still_energy rep)%Z; [|apply G; reflexivity].
  destruct (Binary64.fl_dist _ _ _); apply G; reflexivity.
Qed.

End SmoothingFacts.

Section SmoothingWitnesses.
Import Scope Reader ScopeStats.
Local Open Scope Q_scope.

Lemma first_sample_distance_within_one_witness :
  let rep := Report.Ld2410 59 (Some 13%Z) 0 (Some 300%Z) in
  let cur := MkLdS 0 None 0 None in
  (exists r, s_move_dist (smooth default_params rep cur) = Some r
             /\ (13 - 1 <= r <= 13)%Z /\ (0 <= r)%Z)
  /\ s_move_energy (smooth default_params rep cur)
     == (1 - ld_alpha default_params) * s_move_energy cur
        + ld_alpha default_params * inject_Z (Report.move_energy rep).
Proof.
  apply (first_sample_distance_within_one default_params
           (Report.Ld2410 59 (Some 13%Z) 0 (Some 300%Z)) (MkLdS 0 None 0 None) 13%Z);
    [reflexivity | reflexivity | vm_compute; discriminate
    | vm_compute; split; discriminate | lia].
Defined.

(** At the default [ld_alpha = 0.15] a first sample of 13 cm is stored
    as 12 cm, one of 81 cm as 81 cm. *)
Example first_sample_13_is_stored_as_12 :
  s_move_dist (smooth default_params (Report.Ld2410 59 (Some 13%Z) 0 (Some 300%Z))
                      (MkLdS 0 None 0 None)) = Some 12%Z
  /\ s_move_dist (smooth default_params (Report.Ld2410 59 (Some 81%Z) 0 (Some 300%Z))
                         (MkLdS 0 None 0 None)) = Some 81%Z.
Proof. split; vm_compute; reflexivity. Qed.

Lemma smoothed_values_stay_in_range_witness :
  smoothed_in_range (smooth default_params (Report.Ld2410 59 (Some 81%Z) 0 (Some 300%Z))
                            (MkLdS 0 None 0 None)).
Proof.
  apply (smoothed_values_stay_in_range default_params
           (Report.Ld2410 59 (Some 81%Z) 0 (Some 300%Z)) (MkLdS 0 None 0 None)).
  - vm_compute. split; discriminate.
  - split; [exists 81%Z, 300%Z; repeat split; try reflexivity; lia|].
    cbn; lia.
  - repeat split; try discriminate; cbn; lra.
Defined.

End SmoothingWitnesses.
(** ** Witnesses on the level-mode bench *)

Section LevelWitness.
Import Scope Reader ScopeStats LevelBench.
Local Open Scope Q_scope.

Lemma level_trigger_hysteresis_witness :
  let p := params (st level_world) in
  let dc := decision (fun x => x) A 10 40 level_world in
  (trig_on (rs level_world) = false ->
   (d_new_on dc = true <-> mov_trig_of A p <= 40))
  /\ (trig_on (rs level_world) = true -> d_new_on dc = false ->
      40 < Qmax' 0 (mov_trig_of A p - mov_hys_of A p)
      /\ mov_hold_of A p < 10 - d_last_valid dc)
  /\ (trig_on (rs level_world) = true -> 0 <= mov_hold_of A p ->
      inject_Z (min_energy p) <= 40 -> d_new_on dc = true).
Proof.
  apply (level_trigger_hysteresis (fun x => x) A 10 40 level_world); reflexivity.
Defined.

End LevelWitness.

(** ** The classifier's look-back *)

Section LookBack.
Import Scope.
Local Open Scope Q_scope.

Lemma last_n_app {T} (n : nat) (old recent : list T) :
  length recent = n -> last_n n (old ++ recent) = recent.
Proof.
  intros <-. unfold last_n. rewrite length_app.
  replace (length old + length recent - length recent)%nat with (length old) by lia.
  apply drop_app_length.
Qed.

Lemma last_n_short {T} (n : nat) (l : list T) :
  (length l <= n)%nat -> last_n n l = l.
Proof.
  intros H. unfold last_n.
  replace (length l - n)%nat with 0%nat by lia. reflexivity.
Qed.

Lemma fold_Qmax'_bounds l : forall x,
  x <= fold_left Qmax' l x
  /\ (forall y, In y l -> y <= fold_left Qmax' l x)
  /\ In (fold_left Qmax' l x) (x :: l).
Proof.
  induction l as [|a l IH]; intros x; cbn [fold_left].
  - split; [lra|]. split; [intros y []|left; reflexivity].
  - destruct (IH (Qmax' x a)) as [I1 [I2 I3]].
    destruct (Qmax'_cases x a) as [[Hc Hm] | [Hc Hm]]; rewrite Hm in *.
    + split; [lra|]. split.
      * intros y [<- | Hy]; [exact I1 | exact (I2 y Hy)].
      * destruct I3 as [<- | I3]; [right; left; reflexivity | right; right; exact I3].
    + split; [exact I1|]. split.
      * intros y [<- | Hy]; [lra | exact (I2 y Hy)].
      * destruct I3 as [<- | I3]; [left; reflexivity | right; right; exact I3].
Qed.

Lemma fold_Zmin_bounds l : forall x : Z,
  (fold_left Z.min l x <= x)%Z
  /\ (forall y, In y l -> (fold_left Z.min l x <= y)%Z)
  /\ In (fold_left Z.min l x) (x :: l).
Proof.
  induction l as [|a l IH]; intros x; cbn [fold_left].
  - split; [lia|]. split; [intros y []|left; reflexivity].
  - destruct (IH (Z.min x a)) as [I1 [I2 I3]].
    split; [lia|]. split.
    + intros y [<- | Hy]; [lia | exact (I2 y Hy)].
    + destruct I3 as [E | I3]; [|right; right; exact I3].
      rewrite <- E.
      destruct (Z.min_spec x a) as [[_ Hm] | [_ Hm]]; rewrite Hm.
      * left. reflexivity.
      * right. left. reflexivity.
Qed.

Lemma In_omap_id (l : list (option Z)) (z : Z) :
  In z (omap id l) <-> In (Some z) l.
Proof.
  induction l as [|[a|] l IH]; cbn.
  - tauto.
  - unfold id at 1. rewrite IH. split; intros [H | H]; auto; left; congruence.
  - rewrite IH. split; [auto|]. intros [H | H]; [discriminate | exact H].
Qed.

(** X23.  What the classifier looks back at.  [feat] sees only the last
    five entries of each history: older entries do not change its
    result.  Its peak energy is one of those entries and no entry
    among them is larger; its minimum distance, when there is one, is
    one of the integer entries among the last five and no integer
    entry among them is smaller; with no integer entry among them
    there is no minimum distance. *)
Theorem feat_looks_back_five old_me me5 old_md md5 :
  length me5 = 5%nat -> length md5 = 5%nat ->
  let f := feat (MkHist (old_me ++ me5) (old_md ++ md5)) in
  f = feat (MkHist me5 md5)
  /\ (exists pk, fst f = Some pk /\ In pk me5 /\ forall x, In x me5 -> x <= pk)
  /\ (forall m, snd f = Some m ->
      In (Some m) md5 /\ forall x, In (Some x) md5 -> (m <= x)%Z)
  /\ (snd f = None <-> forall x, ~ In (Some x) md5).
Proof.
  intros Hme Hmd. cbv zeta. unfold feat. cbn [me md].
  rewrite !last_n_app by assumption.
  rewrite !last_n_short by lia.
  split; [reflexivity|]. cbn [fst snd]. split; [|split].
  - destruct me5 as [|x l]; [discriminate|]. cbn [max_list].
    destruct (fold_Qmax'_bounds l x) as [B1 [B2 B3]].
    eexists. split; [reflexivity|]. split; [exact B3|].
    intros y [<- | Hy]; [exact B1 | exact (B2 y Hy)].
  - intros m Hm.
    destruct (omap id md5) as [|x l] eqn:E; [discriminate|].
    cbn [min_list] in Hm. injection Hm as <-.
    destruct (fold_Zmin_bounds l x) as [B1 [B2 B3]].
    split.
    + apply In_omap_id. rewrite E. exact B3.
    + intros y Hy. apply In_omap_id in Hy. rewrite E in Hy.
      destruct Hy as [<- | Hy]; [exact B1 | exact (B2 y Hy)].
  - destruct (omap id md5) as [|x l] eqn:E; cbn [min_list].
    + split; [|reflexivity]. intros _ y Hy.
      apply In_omap_id in Hy. rewrite E in Hy. exact Hy.
    + split; [discriminate|]. intros H. exfalso.
      apply (H x). apply In_omap_id. rewrite E. left. reflexivity.
Qed.

Lemma feat_looks_back_five_witness :
  let f := feat (MkHist ([90; 80] ++ [10; 50; 20; 5; 7])
                        ([Some 3%Z] ++ [Some 120%Z; None; Some 90%Z; None; None])) in
  f = feat (MkHist [10; 50; 20; 5; 7] [Some 120%Z; None; Some 90%Z; None; None])
  /\ (exists pk, fst f = Some pk /\ In pk [10; 50; 20; 5; 7]
                 /\ forall x, In x [10; 50; 20; 5; 7] -> x <= pk)
  /\ (forall m, snd f = Some m ->
      In (Some m) [Some 120%Z; None; Some 90%Z; None; None]
      /\ forall x, In (Some x) [Some 120%Z; None; Some 90%Z; None; None] -> (m <= x)%Z)
  /\ (snd f = None <-> forall x, ~ In (Some x) [Some 120%Z; None; Some 90%Z; None; None]).
Proof.
  apply (feat_looks_back_five [90; 80] [10; 50; 20; 5; 7]
           [Some 3%Z] [Some 120%Z; None; Some 90%Z; None; None]); reflexivity.
Defined.

End LookBack.
(** ** The state endpoints of rd03e_scope.py *)

Section EndpointFacts.
Import Command Endpoints.

(** X24.  Patches compose.  Two [/state] posts one after the other leave
    [STATE] as a single post of the two bodies merged, the later body
    winning where both give a key; posting the same body twice is the
    same as posting it once. *)
Theorem state_posts_compose (b1 b2 STATE : gmap string json) :
  state_post b2 (state_post b1 STATE) = state_post (b2 ∪ b1) STATE
  /\ state_post b1 (state_post b1 STATE) = state_post b1 STATE.
Proof.
  split; apply map_eq; intros k; rewrite !state_post_lookup;
    destruct (decide (k ∈ PUB_KEYS)); try reflexivity.
  - rewrite lookup_union. destruct (b2 !! k), (b1 !! k); reflexivity.
  - destruct (b1 !! k); reflexivity.
Qed.

Lemma reset_fold (D : gmap string json) (ks : list string) :
  forall M : gmap string json,
  (forall k, k ∈ ks -> is_Some (M !! k)) ->
  exists M',
    reset_loop D ks M = Some M'
    /\ forall k, M' !! k = if decide (k ∈ ks)
                           then match D !! k with Some v => Some v | None => M !! k end
                           else M !! k.
Proof.
  induction ks as [|a ks IH]; intros M Hk.
  - exists M. split; [reflexivity|]. intros k.
    destruct (decide (k ∈ [])) as [H|]; [|reflexivity].
    apply elem_of_nil in H. contradiction.
  - unfold reset_loop. cbn [foldl].
    destruct (Hk a) as [cur Hcur]; [left|]. rewrite Hcur.
    fold (reset_loop D ks (<[a := default cur (D !! a)]> M)).
    destruct (IH (<[a := default cur (D !! a)]> M)) as [M' [E HS']].
    { intros k Hin. destruct (decide (k = a)) as [->|Hne].
      - rewrite lookup_insert_eq. eexists. reflexivity.
      - rewrite lookup_insert_ne by congruence. apply Hk. right. exact Hin. }
    exists M'. split; [exact E|]. intros k. rewrite HS'.
    destruct (decide (k = a)) as [->|Hne].
    + rewrite lookup_insert_eq.
      rewrite (decide_True (P := a ∈ a :: ks)) by left.
      destruct (decide (a ∈ ks)); destruct (D !! a); cbn; congruence.
    + rewrite lookup_insert_ne by congruence.
      destruct (decide (k ∈ ks)) as [Hin|Hin].
      * rewrite (decide_True (P := k ∈ a :: ks)) by (right; exact Hin). reflexivity.
      * rewrite (decide_False (P := k ∈ a :: ks)); [reflexivity|].
        intros H. apply elem_of_cons in H as [?|?]; contradiction.
Qed.

(** X25.  [/reset] undoes [/state].  When every public key is present in
    [STATE], [reset] returns normally and leaves [STATE] exactly as a
    [/state] post of the defaults would: every public key that has a
    default holds it, every other key is unchanged; so after any
    [/state] post, a reset gives the same state as a reset without
    that post wherever a default exists. *)
Theorem reset_restores_defaults (D body STATE : gmap string json) :
  (forall k, k ∈ PUB_KEYS -> is_Some (STATE !! k)) ->
  exists M',
    reset_post D (state_post body STATE) = Some M'
    /\ M' = state_post D (state_post body STATE)
    /\ (forall k v, k ∈ PUB_KEYS -> D !! k = Some v -> M' !! k = Some v)
    /\ (forall k, k ∉ PUB_KEYS -> M' !! k = STATE !! k).
Proof.
  intros Hk.
  destruct (reset_fold D PUB_KEYS (state_post body STATE)) as [M' [E HS']].
  { intros k Hin. rewrite state_post_lookup.
    destruct (decide (k ∈ PUB_KEYS)); [|contradiction].
    destruct (body !! k); [eexists; reflexivity | apply Hk, Hin]. }
  exists M'. split; [exact E|].
  assert (ES : M' = state_post D (state_post body STATE)).
  { apply map_eq. intros k. rewrite HS', (state_post_lookup D).
    destruct (decide (k ∈ PUB_KEYS)); reflexivity. }
  split; [exact ES|]. split.
  - intros k v Hin Hv. rewrite HS'.
    destruct (decide (k ∈ PUB_KEYS)); [|contradiction]. rewrite Hv. reflexivity.
  - intros k Hin. rewrite HS', state_post_lookup.
    destruct (decide (k ∈ PUB_KEYS)); [contradiction|]. reflexivity.
Qed.

Lemma blank_state_has_public_keys k :
  k ∈ PUB_KEYS -> is_Some (blank_state !! k).
Proof.
  intros Hin.
  assert (Hin' : k ∈ STATE_KEYS).
  { unfold PUB_KEYS in Hin. apply list_elem_of_filter in Hin as [_ H]. exact H. }
  destruct (blank_state !! k) eqn:E; [eexists; reflexivity|].
  exfalso. apply not_elem_of_list_to_map in E. apply E.
  rewrite <- list_fmap_compose, list_fmap_id. exact Hin'.
Qed.

Lemma reset_restores_defaults_witness :
  exists M',
    reset_post two_defaults (state_post pair_patch blank_state) = Some M'
    /\ M' = state_post two_defaults (state_post pair_patch blank_state)
    /\ (forall k v, k ∈ PUB_KEYS -> two_defaults !! k = Some v -> M' !! k = Some v)
    /\ (forall k, k ∉ PUB_KEYS -> M' !! k = blank_state !! k).
Proof.
  apply (reset_restores_defaults two_defaults pair_patch blank_state).
  exact blank_state_has_public_keys.
Defined.

Section CfgLists.
Variable int_of_str : string -> option Z.
Variable float_of_str : string -> option json.

Lemma cast_int_is_int x y :
  cast_int int_of_str x = Some y -> exists z, y = JInt z.
Proof.
  destruct x; cbn; try discriminate; try (intros [= <-]; eexists; reflexivity).
  destruct (int_of_str s); cbn; [intros [= <-]; eexists; reflexivity | discriminate].
Qed.

Lemma upd_list_other (body cfg : gmap string json) k v :
  body !! k = Some v -> (forall l, v <> JList l) -> upd_list int_of_str body k cfg = Some cfg.
Proof.
  intros Hb Hv. unfold upd_list. rewrite Hb.
  destruct v; try reflexivity. exfalso. exact (Hv l eq_refl).
Qed.

Lemma scalars_keep_lists (body cfg : gmap string json) k :
  k = "moving_thresholds"%string \/ k = "still_thresholds"%string ->
  upd body "still_max_rg" (cast_int int_of_str)
    (upd body "moving_max_rg" (cast_int int_of_str)
      (upd body "stat_time_s" (cast_int int_of_str)
        (upd body "report_delay_ms" (cast_int int_of_str)
          (upd body "rg_resolution_m" (cast_float float_of_str) cfg)))) !! k
  = cfg !! k.
Proof.
  intros [-> | ->]; rewrite !upd_lookup_ne by discriminate; reflexivity.
Qed.

(** X26.  The threshold lists of [/ld2410/<side>/cfg].  When
    [moving_thresholds] is a list whose elements all convert with
    [int], the stored value is the list of the first nine converted
    elements: at most nine entries, all integers.  When some element
    does not convert, wherever it stands in the list (also beyond the
    ninth place), the handler raises and the stored list is the one
    from before the request. *)
Theorem threshold_list_converted_then_cut (body cfg : gmap string json) l :
  body !! "moving_thresholds"%string = Some (JList l) ->
  let r := ld2410_cfg_post int_of_str float_of_str body cfg in
  (forall l', mapM (cast_int int_of_str) l = Some l' ->
     fst r !! "moving_thresholds"%string = Some (JList (take 9 l'))
     /\ (length (take 9 l') <= 9)%nat
     /\ Forall (fun y => exists z, y = JInt z) (take 9 l'))
  /\ (forall x, x ∈ l -> cast_int int_of_str x = None ->
       snd r = false
       /\ fst r !! "moving_thresholds"%string = cfg !! "moving_thresholds"%string).
Proof.
  intros Hb. cbv zeta. unfold ld2410_cfg_post.
  set (c5 := upd body "still_max_rg" _ _).
  assert (E5 : c5 !! "moving_thresholds"%string = cfg !! "moving_thresholds"%string)
    by (apply scalars_keep_lists; left; reflexivity).
  assert (E6 : upd_list int_of_str body "moving_thresholds" c5
               = (fun v => <["moving_thresholds"%string := v]> c5)
                   <$> ((fun l' => JList (take 9 l')) <$> mapM (cast_int int_of_str) l))
    by (unfold upd_list; rewrite Hb; reflexivity).
  rewrite E6. clear E6.
  split.
  - intros l' Hl'. rewrite Hl'. cbn [fmap option_fmap option_map].
    split; [|split].
    + destruct (upd_list int_of_str body "still_thresholds" _) as [c7|] eqn:E7;
        cbn [fst].
      * assert (Hne : "still_thresholds"%string <> "moving_thresholds"%string)
          by discriminate.
        rewrite (upd_list_lookup_ne _ _ _ _ _ _ Hne E7).
        apply lookup_insert_eq.
      * apply lookup_insert_eq.
    + rewrite length_take. lia.
    + apply Forall_take. apply mapM_Some in Hl'.
      clear -Hl'. induction Hl' as [|x y l1 l2 Hxy _ IH]; constructor; [|exact IH].
      exact (cast_int_is_int x y Hxy).
  - intros x Hin Hx.
    assert (En : mapM (cast_int int_of_str) l = None).
    { apply mapM_None. apply Exists_exists. exists x. split; assumption. }
    rewrite En. cbn [fmap option_fmap option_map fst snd].
    split; [reflexivity | exact E5].
Qed.

End CfgLists.

Lemma threshold_list_converted_then_cut_witness :
  let r := ld2410_cfg_post no_int no_float ten_thresholds default_cfg in
  (forall l', mapM (cast_int no_int)
                   ((JInt <$> [65;60;55;50;45;40;35;30;30]%Z) ++ [JNull]) = Some l' ->
     fst r !! "moving_thresholds"%string = Some (JList (take 9 l'))
     /\ (length (take 9 l') <= 9)%nat
     /\ Forall (fun y => exists z, y = JInt z) (take 9 l'))
  /\ (forall x, x ∈ (JInt <$> [65;60;55;50;45;40;35;30;30]%Z) ++ [JNull] ->
       cast_int no_int x = None ->
       snd r = false
       /\ fst r !! "moving_thresholds"%string = default_cfg !! "moving_thresholds"%string).
Proof.
  apply (threshold_list_converted_then_cut no_int no_float ten_thresholds default_cfg).
  reflexivity.
Defined.

End EndpointFacts.
(** ** The fallback activity measure *)

Section ActivityFacts.
Import Report ScopeStats.
Local Open Scope Q_scope.

Lemma byte_to_Z_range b : (0 <= byte_to_Z b < 256)%Z.
Proof.
  unfold byte_to_Z. pose proof (Byte.to_N_bounded b) as H.
  lia.
Qed.

Lemma activity_sum_bounds chunk : forall acc : Z,
  (acc <= fold_left (fun ssum b => ssum + Z.abs (byte_to_Z b - 128)) chunk acc
   <= acc + 128 * Z.of_nat (length chunk))%Z.
Proof.
  induction chunk as [|b chunk IH]; intros acc; cbn [fold_left length].
  - lia.
  - pose proof (byte_to_Z_range b).
    specialize (IH (acc + Z.abs (byte_to_Z b - 128))%Z). lia.
Qed.

(** X27.  [_activity_from_bytes] is a mean deviation from mid-scale: for
    every chunk it lies between 0 and 128, it is 0 for the empty chunk,
    and a chunk of identical bytes [b] gives exactly [|b - 128|]. *)
Theorem activity_between_0_and_128 chunk b n :
  0 <= activity_from_bytes chunk <= 128
  /\ activity_from_bytes [] == 0
  /\ activity_from_bytes (repeat b (S n)) == inject_Z (Z.abs (byte_to_Z b - 128)).
Proof.
  split; [|split; [reflexivity|]].
  - unfold activity_from_bytes. destruct chunk as [|x chunk]; [lra|].
    set (l := x :: chunk).
    set (ssum := fold_left _ l 0%Z).
    pose proof (activity_sum_bounds l 0%Z) as Hs. fold ssum in Hs.
    assert (Hn : (0 < Z.of_nat (length l))%Z) by (subst l; cbn [length]; lia).
    assert (Hn' : 0 < inject_Z (Z.of_nat (length l)))
      by (change 0 with (inject_Z 0); rewrite <- Zlt_Qlt; exact Hn).
    split.
    + apply Qle_shift_div_l; [exact Hn'|].
      assert (E0 : 0 * inject_Z (Z.of_nat (length l)) == inject_Z 0) by ring.
      rewrite E0, <- Zle_Qle. lia.
    + apply Qle_shift_div_r; [exact Hn'|].
      change 128 with (inject_Z 128). rewrite <- inject_Z_mult, <- Zle_Qle. lia.
  - unfold activity_from_bytes. cbn [repeat].
    change (b :: repeat b n) with (repeat b (S n)).
    assert (Hs : forall m acc,
               fold_left (fun ssum x => (ssum + Z.abs (byte_to_Z x - 128))%Z)
                         (repeat b m) acc
               = (acc + Z.of_nat m * Z.abs (byte_to_Z b - 128))%Z).
    { induction m as [|m IH]; intros acc; cbn [repeat fold_left]; [lia|].
      rewrite IH. lia. }
    rewrite Hs, repeat_length. rewrite Z.add_0_l, inject_Z_mult.
    field. change 0 with (inject_Z 0). rewrite inject_Z_injective. lia.
Qed.

End ActivityFacts.

(** ** Reading in chunks: the buffered reader of the counter *)

Section ChunkedReads.
Import Bytes BufferedReader Report Chunks.

Ltac len_solve :=
  rewrite ?length_app, ?length_drop in *; cbn [length] in *; lia.

Lemma starts_with_app_l pat : forall x c,
  (length pat <= length x)%nat -> starts_with pat (x ++ c) = starts_with pat x.
Proof.
  induction pat as [|p pat IH]; intros [|b x] c H; cbn in *;
    try lia; try reflexivity.
  rewrite IH by lia. reflexivity.
Qed.

Lemma starts_with_drop_app pat j b c :
  (j + length pat <= length b)%nat ->
  starts_with pat (drop j (b ++ c)) = starts_with pat (drop j b).
Proof.
  intros H. rewrite drop_app_le by lia.
  apply starts_with_app_l. rewrite length_drop. lia.
Qed.

Lemma find_unique pat buf s :
  starts_with pat (drop s buf) = true ->
  (forall j, (j < s)%nat -> starts_with pat (drop j buf) = false) ->
  find pat buf = Some s.
Proof.
  intros Ho Hn. destruct (find_first pat buf s Ho) as [s' [F [Hle Hs']]].
  destruct (Nat.eq_dec s' s) as [->|Hne]; [exact F|].
  unfold occurs_at in Hs'. rewrite Hn in Hs' by lia. discriminate.
Qed.

Lemma find_app_l pat b c i :
  pat <> [] -> find pat b = Some i -> find pat (b ++ c) = Some i.
Proof.
  intros Hp F. destruct (find_Some _ _ _ F) as [Ho Hn].
  pose proof (occurs_at_length pat i b Ho Hp) as Hl.
  apply find_unique.
  - rewrite starts_with_drop_app by lia. exact Ho.
  - intros j Hj. rewrite starts_with_drop_app by lia. apply Hn, Hj.
Qed.

Lemma find_skip_prefix pat buf n :
  (forall j, (j < n)%nat -> starts_with pat (drop j buf) = false) ->
  find pat buf = (fun k => (n + k)%nat) <$> find pat (drop n buf).
Proof.
  intros Hn. destruct (find pat (drop n buf)) as [k|] eqn:F; cbn.
  - destruct (find_Some _ _ _ F) as [Ho Hb]. apply find_unique.
    + rewrite drop_drop in Ho. exact Ho.
    + intros j Hj. destruct (le_lt_dec n j) as [Hge|Hlt]; [|apply Hn, Hlt].
      specialize (Hb (j - n)%nat ltac:(lia)). rewrite drop_drop in Hb.
      replace (n + (j - n))%nat with j in Hb by lia. exact Hb.
  - destruct (find pat buf) as [s|] eqn:G; [|reflexivity].
    destruct (find_Some _ _ _ G) as [Ho _].
    destruct (le_lt_dec n s) as [Hge|Hlt].
    + pose proof (find_None _ _ F (s - n)%nat) as Hc. rewrite drop_drop in Hc.
      replace (n + (s - n))%nat with s in Hc by lia. congruence.
    + rewrite Hn in Ho by exact Hlt. discriminate.
Qed.

Lemma drain_S fuel want_id buf i :
  find SYNC buf = Some i -> (length buf - i <? 7)%nat = false ->
  drain (S fuel) want_id buf
  = match drain fuel want_id (drop (i + 7) buf) with
    | None => None
    | Some (vs, rest) => Some (frame_vals want_id (take 7 (drop i buf)) vs, rest)
    end.
Proof.
  intros F E. cbn [drain]. rewrite F, E. unfold frame_vals.
  destruct (take 7 (drop i buf)) as [|f0 [|f1 [|f2 [|f3 [|f4 [|f5 [|f6 [|f7 tl]]]]]]]];
    try (destruct (drain fuel want_id (drop (i + 7) buf)) as [[vs rest]|]; reflexivity).
Qed.

Lemma drain_0 want_id buf i :
  find SYNC buf = Some i -> (length buf - i <? 7)%nat = false ->
  drain 0 want_id buf = None.
Proof. intros F E. cbn [drain]. rewrite F, E. reflexivity. Qed.

Lemma drain_stop fuel want_id buf :
  find SYNC buf = None
  \/ (exists i, find SYNC buf = Some i /\ (length buf - i <? 7)%nat = true) ->
  drain fuel want_id buf
  = Some ([], match find SYNC buf with
              | None => drop (length buf - 1) buf
              | Some i => drop i buf
              end).
Proof.
  intros [F | [i [F E]]]; destruct fuel; cbn [drain]; rewrite F; try reflexivity;
    rewrite E; destruct i; reflexivity.
Qed.

Lemma drain_fuel_irrelevant want_id f : forall f' buf,
  (length buf <= f)%nat -> (length buf <= f')%nat ->
  drain f want_id buf = drain f' want_id buf.
Proof.
  induction f as [|f IH]; intros f' buf H1 H2.
  - destruct buf; [|cbn in H1; lia]. destruct f'; reflexivity.
  - destruct (find SYNC buf) as [i|] eqn:F.
    + destruct (length buf - i <? 7)%nat eqn:E.
      * rewrite !drain_stop by (right; eauto). reflexivity.
      * apply Nat.ltb_ge in E as E'.
        destruct f' as [|f']; [lia|].
        rewrite !(drain_S _ _ _ i F E).
        rewrite (IH f') by (rewrite length_drop; lia). reflexivity.
    + rewrite !drain_stop by (left; exact F). reflexivity.
Qed.

(** Bytes before the first place a sync can start do not matter. *)
Lemma drain_prefix want_id buf n fuel :
  (n <= length buf)%nat ->
  (forall j, (j < n)%nat -> starts_with SYNC (drop j buf) = false) ->
  (n < length buf)%nat \/ n = 0%nat ->
  drain fuel want_id buf = drain fuel want_id (drop n buf).
Proof.
  intros Hl Hn Hne.
  pose proof (find_skip_prefix SYNC buf n Hn) as F.
  destruct (find SYNC (drop n buf)) as [k|] eqn:G; cbn in F.
  - assert (El : (length buf - (n + k) = length (drop n buf) - k)%nat)
      by (rewrite length_drop; lia).
    destruct (length buf - (n + k) <? 7)%nat eqn:E.
    + rewrite (drain_stop _ _ buf) by (right; eauto).
      rewrite El in E.
      rewrite (drain_stop _ _ (drop n buf)) by (right; eauto).
      rewrite F, G, drop_drop. reflexivity.
    + destruct fuel as [|fuel].
      * rewrite (drain_0 _ _ _ F E). rewrite El in E.
        rewrite (drain_0 _ _ _ G E). reflexivity.
      * rewrite (drain_S _ _ _ _ F E). rewrite El in E.
        rewrite (drain_S _ _ _ _ G E).
        rewrite !drop_drop. replace (n + k + 7)%nat with (n + (k + 7))%nat by lia.
        reflexivity.
  - rewrite (drain_stop _ _ buf) by (left; exact F).
    rewrite (drain_stop _ _ (drop n buf)) by (left; exact G).
    rewrite F, G, drop_drop, length_drop.
    replace (n + (length buf - n - 1))%nat with (length buf - 1)%nat
      by (destruct Hne; lia).
    reflexivity.
Qed.

Lemma drain_app want_id fuel : forall b c v1 r1 f2 f3,
  drain fuel want_id b = Some (v1, r1) ->
  (length (b ++ c) <= f2)%nat -> (length (r1 ++ c) <= f3)%nat ->
  drain f2 want_id (b ++ c)
  = match drain f3 want_id (r1 ++ c) with
    | None => None
    | Some (v2, r2) => Some (v1 ++ v2, r2)
    end.
Proof.
  assert (Hp : SYNC <> []) by discriminate.
  assert (Hid : forall x : option (list byte * list byte),
             x = match x with None => None | Some (v2, r2) => Some ([] ++ v2, r2) end)
    by (intros [[? ?]|]; reflexivity).
  induction fuel as [|fuel IH]; intros b c v1 r1 f2 f3 D H2 H3.
  - destruct (find SYNC b) as [i|] eqn:F.
    + destruct (length b - i <? 7)%nat eqn:E; [|rewrite (drain_0 _ _ _ F E) in D; discriminate].
      rewrite drain_stop in D by (right; eauto). rewrite F in D. injection D as <- <-.
      rewrite <- Hid.
      destruct (find_Some _ _ _ F) as [Ho Hn].
      pose proof (occurs_at_length SYNC i b Ho Hp) as Hl. cbn [length SYNC] in Hl.
      rewrite (drain_prefix want_id (b ++ c) i f2).
      * rewrite drop_app_le by lia. apply drain_fuel_irrelevant; [|exact H3].
        len_solve.
      * rewrite length_app. lia.
      * intros j Hj. rewrite starts_with_drop_app by (cbn [length SYNC]; lia).
        apply Hn, Hj.
      * left. rewrite length_app. lia.
    + rewrite drain_stop in D by (left; exact F). rewrite F in D. injection D as <- <-.
      rewrite <- Hid.
      rewrite (drain_prefix want_id (b ++ c) (length b - 1) f2).
      * rewrite drop_app_le by lia. apply drain_fuel_irrelevant; [|exact H3].
        len_solve.
      * rewrite length_app. lia.
      * intros j Hj. rewrite starts_with_drop_app by (cbn [length SYNC]; lia).
        apply (find_None _ _ F).
      * destruct b; [right; reflexivity|left; rewrite length_app; cbn [length]; lia].
  - destruct (find SYNC b) as [i|] eqn:F.
    + destruct (length b - i <? 7)%nat eqn:E.
      * rewrite drain_stop in D by (right; eauto). rewrite F in D. injection D as <- <-.
        rewrite <- Hid.
        destruct (find_Some _ _ _ F) as [Ho Hn].
        pose proof (occurs_at_length SYNC i b Ho Hp) as Hl. cbn [length SYNC] in Hl.
        rewrite (drain_prefix want_id (b ++ c) i f2).
        -- rewrite drop_app_le by lia. apply drain_fuel_irrelevant; [|exact H3].
           len_solve.
        -- rewrite length_app. lia.
        -- intros j Hj. rewrite starts_with_drop_app by (cbn [length SYNC]; lia).
           apply Hn, Hj.
        -- left. rewrite length_app. lia.
      * rewrite (drain_S _ _ _ _ F E) in D.
        destruct (drain fuel want_id (drop (i + 7) b)) as [[vs rest]|] eqn:D';
          [|discriminate].
        injection D as <- <-.
        apply Nat.ltb_ge in E as E'.
        assert (F2 : find SYNC (b ++ c) = Some i) by (apply find_app_l; assumption).
        assert (E2 : (length (b ++ c) - i <? 7)%nat = false)
          by (apply Nat.ltb_ge; rewrite length_app; lia).
        destruct f2 as [|f2]; [len_solve|].
        rewrite (drain_S _ _ _ _ F2 E2).
        rewrite !drop_app_le by lia.
        rewrite take_app_le by (rewrite length_drop; lia).
        rewrite (IH (drop (i + 7) b) c vs rest f2 f3 D');
          [| len_solve | exact H3].
        destruct (drain f3 want_id (rest ++ c)) as [[v2 r2]|]; [|reflexivity].
        f_equal. f_equal. unfold frame_vals.
        destruct (take 7 (drop i b)) as [|f0 [|f1 [|f2' [|f3' [|f4 [|f5 [|f6 [|f7 tl]]]]]]]];
          try reflexivity.
        destruct (_ && _); reflexivity.
    + rewrite drain_stop in D by (left; exact F). rewrite F in D. injection D as <- <-.
      rewrite <- Hid.
      rewrite (drain_prefix want_id (b ++ c) (length b - 1) f2).
      * rewrite drop_app_le by lia. apply drain_fuel_irrelevant; [|exact H3].
        len_solve.
      * rewrite length_app. lia.
      * intros j Hj. rewrite starts_with_drop_app by (cbn [length SYNC]; lia).
        apply (find_None _ _ F).
      * destruct b; [right; reflexivity|left; rewrite length_app; cbn [length]; lia].
Qed.

(** X28.  The stored values do not depend on how the reads are cut.
    Feeding the buffered reader a chunk [c1] and then, with the buffer
    it left, a chunk [c2] stores the same values, in the same order,
    and leaves the same buffer as feeding it [c1 ++ c2] in one read. *)
Theorem feed_in_two_reads want_id buf c1 c2 v1 r1 v2 r2 :
  feed want_id buf c1 = Some (v1, r1) ->
  feed want_id r1 c2 = Some (v2, r2) ->
  feed want_id buf (c1 ++ c2) = Some (v1 ++ v2, r2).
Proof.
  unfold feed. intros D1 D2.
  rewrite app_assoc.
  rewrite (drain_app want_id _ (buf ++ c1) c2 v1 r1 _ (length (r1 ++ c2)) D1);
    [|lia|lia].
  rewrite D2. reflexivity.
Qed.

Lemma feed_in_two_reads_witness :
  feed x01 [x00] ([xaa; xaa; x01; x2a] ++ [x00; x55; x55; xaa]) = Some ([] ++ [x2a], [xaa]).
Proof.
  apply (feed_in_two_reads x01 [x00] [xaa; xaa; x01; x2a] [x00; x55; x55; xaa]
           [] [xaa; xaa; x01; x2a] [x2a] [xaa]); reflexivity.
Defined.

End ChunkedReads.
(** ** Reading in chunks: report frames *)

Section ChunkedReports.
Import Bytes Report Chunks.

Ltac len_tac :=
  rewrite ?length_app, ?length_drop in *; cbn [length] in *; lia.

(** One turn of the extraction loop, by what the two searches find. *)
Lemma extract_no_header fuel buf :
  find HDR_RPT buf = None ->
  extract_loop fuel buf
  = Some ([], if (4096 <? length buf)%nat then drop (length buf - 64) buf else buf).
Proof. intros F. destruct fuel; cbn [extract_loop]; rewrite F; reflexivity. Qed.

Lemma extract_open fuel buf s :
  find HDR_RPT buf = Some s -> find_from FTR_RPT (drop s buf) 4 = None ->
  extract_loop fuel buf = Some ([], drop s buf).
Proof.
  intros F G.
  assert (E : (if (0 <? s)%nat then drop s buf else buf) = drop s buf)
    by (destruct s; reflexivity).
  destruct fuel; cbn [extract_loop]; rewrite F, E, G; reflexivity.
Qed.

Lemma extract_frame fuel buf s e :
  find HDR_RPT buf = Some s -> find_from FTR_RPT (drop s buf) 4 = Some e ->
  extract_loop fuel buf
  = match fuel with
    | O => None
    | S fuel' =>
        match extract_loop fuel' (drop (e + 4) (drop s buf)) with
        | None => None
        | Some (frames, rest) => Some (take (e + 4) (drop s buf) :: frames, rest)
        end
    end.
Proof.
  intros F G.
  assert (E : (if (0 <? s)%nat then drop s buf else buf) = drop s buf)
    by (destruct s; reflexivity).
  destruct fuel; cbn [extract_loop]; rewrite F, E, G; reflexivity.
Qed.

Lemma frame_end_in_buffer buf1 e :
  find_from FTR_RPT buf1 4 = Some e -> (8 <= e + 4 <= length buf1)%nat.
Proof.
  intros G. apply find_from_Some in G as [Hle Ho].
  apply occurs_at_length in Ho; [|discriminate]. cbn [length FTR_RPT] in Ho. lia.
Qed.

Lemma extract_fuel_irrelevant f : forall f' buf,
  (length buf <= f)%nat -> (length buf <= f')%nat ->
  extract_loop f buf = extract_loop f' buf.
Proof.
  induction f as [|f IH]; intros f' buf H1 H2.
  - destruct buf; [|cbn in H1; lia]. destruct f'; reflexivity.
  - destruct (find HDR_RPT buf) as [s|] eqn:F.
    + destruct (find_from FTR_RPT (drop s buf) 4) as [e|] eqn:G.
      * rewrite !(extract_frame _ _ _ _ F G).
        pose proof (frame_end_in_buffer _ _ G) as He.
        destruct f' as [|f']; [len_tac|].
        rewrite (IH f') by len_tac. reflexivity.
      * rewrite !(extract_open _ _ _ F G). reflexivity.
    + rewrite !extract_no_header by exact F. reflexivity.
Qed.

(** Bytes before the first place a header can start do not change the
    frames, and do not change the buffer left either when a header
    follows. *)
Lemma extract_prefix buf n fuel :
  (forall j, (j < n)%nat -> starts_with HDR_RPT (drop j buf) = false) ->
  match find HDR_RPT (drop n buf) with
  | Some _ => extract_loop fuel buf = extract_loop fuel (drop n buf)
  | None => exists r r', extract_loop fuel buf = Some ([], r)
                         /\ extract_loop fuel (drop n buf) = Some ([], r')
  end.
Proof.
  intros Hn. pose proof (find_skip_prefix HDR_RPT buf n Hn) as F.
  destruct (find HDR_RPT (drop n buf)) as [k|] eqn:G; cbn in F.
  - assert (Ed : drop k (drop n buf) = drop (n + k) buf) by apply drop_drop.
    destruct (find_from FTR_RPT (drop (n + k) buf) 4) as [e|] eqn:G2.
    + rewrite (extract_frame _ _ _ _ F G2).
      rewrite <- Ed in G2. rewrite (extract_frame _ _ _ _ G G2), Ed. reflexivity.
    + rewrite (extract_open _ _ _ F G2).
      rewrite <- Ed in G2. rewrite (extract_open _ _ _ G G2), Ed. reflexivity.
  - rewrite !extract_no_header by assumption. eauto.
Qed.

Lemma drop_no_header buf n :
  find HDR_RPT buf = None -> find HDR_RPT (drop n buf) = None.
Proof.
  intros F. destruct (find HDR_RPT (drop n buf)) as [k|] eqn:G; [|reflexivity].
  apply find_Some in G as [Ho _]. rewrite drop_drop in Ho.
  rewrite (find_None _ _ F) in Ho. discriminate.
Qed.

Lemma extract_rest_no_header fuel : forall buf fs r,
  extract_loop fuel buf = Some (fs, r) ->
  find HDR_RPT r = None \/ starts_with HDR_RPT r = true.
Proof.
  induction fuel as [|fuel IH]; intros buf fs r E;
    (destruct (find HDR_RPT buf) as [s|] eqn:F;
     [destruct (find_from FTR_RPT (drop s buf) 4) as [e|] eqn:G;
      [rewrite (extract_frame _ _ _ _ F G) in E
      |rewrite (extract_open _ _ _ F G) in E; injection E as <- <-; right;
       exact (proj1 (find_Some _ _ _ F))]
     |rewrite extract_no_header in E by exact F; injection E as <- <-; left;
      destruct (_ <? _)%nat; [apply drop_no_header, F | exact F]]).
  - discriminate.
  - destruct (extract_loop fuel _) as [[fr rest]|] eqn:E'; [|discriminate].
    injection E as <- <-. exact (IH _ _ _ E').
Qed.

Lemma same_outcome_prefix buf n f2 f3 :
  (forall j, (j < n)%nat -> starts_with HDR_RPT (drop j buf) = false) ->
  (length buf <= f2)%nat -> (length (drop n buf) <= f3)%nat ->
  same_outcome (extract_loop f2 buf) [] (extract_loop f3 (drop n buf)).
Proof.
  intros Hn H2 H3.
  pose proof (extract_prefix buf n f2 Hn) as P.
  rewrite (extract_fuel_irrelevant f3 f2 (drop n buf)) by len_tac.
  destruct (find HDR_RPT (drop n buf)) as [k|] eqn:G.
  - rewrite P. unfold same_outcome.
    destruct (extract_loop f2 (drop n buf)) as [[fs2 r2]|]; [|reflexivity].
    exists r2. split; [reflexivity | left; reflexivity].
  - destruct P as [r [r' [E1 E2]]]. rewrite E1, E2. unfold same_outcome.
    exists r. split; [reflexivity|]. right.
    rewrite !extract_no_header in * by
        (first [exact G | destruct (find HDR_RPT buf) eqn:F; [|reflexivity];
                rewrite (find_skip_prefix HDR_RPT buf n Hn), G in F; discriminate]).
    injection E1 as <-. injection E2 as <-.
    assert (F : find HDR_RPT buf = None)
      by (rewrite (find_skip_prefix HDR_RPT buf n Hn), G; reflexivity).
    split; destruct (_ <? _)%nat; try apply drop_no_header; assumption.
Qed.

Lemma extract_app fuel : forall b c fs1 r1 f2 f3,
  extract_loop fuel b = Some (fs1, r1) ->
  (length (b ++ c) <= f2)%nat -> (length (r1 ++ c) <= f3)%nat ->
  same_outcome (extract_loop f2 (b ++ c)) fs1 (extract_loop f3 (r1 ++ c)).
Proof.
  assert (Hh : HDR_RPT <> []) by discriminate.
  assert (Hf : FTR_RPT <> []) by discriminate.
  assert (Stop : forall b c s r1 f2 f3,
             find HDR_RPT b = Some s -> r1 = drop s b ->
             (length (b ++ c) <= f2)%nat -> (length (r1 ++ c) <= f3)%nat ->
             same_outcome (extract_loop f2 (b ++ c)) [] (extract_loop f3 (r1 ++ c))).
  { intros b c s r1 f2 f3 F -> H2 H3.
    destruct (find_Some _ _ _ F) as [Ho Hn].
    pose proof (occurs_at_length HDR_RPT s b Ho Hh) as Hl. cbn [length HDR_RPT] in Hl.
    rewrite <- (drop_app_le b c s) by lia.
    apply same_outcome_prefix; [|exact H2|rewrite drop_app_le by lia; exact H3].
    intros j Hj. rewrite starts_with_drop_app by (cbn [length HDR_RPT]; lia).
    apply Hn, Hj. }
  assert (Quiet : forall b c r1 f2 f3,
             find HDR_RPT b = None ->
             r1 = (if (4096 <? length b)%nat then drop (length b - 64) b else b) ->
             (length (b ++ c) <= f2)%nat -> (length (r1 ++ c) <= f3)%nat ->
             same_outcome (extract_loop f2 (b ++ c)) [] (extract_loop f3 (r1 ++ c))).
  { intros b c r1 f2 f3 F -> H2 H3.
    destruct (4096 <? length b)%nat eqn:E.
    - apply Nat.ltb_lt in E.
      rewrite <- (drop_app_le b c (length b - 64)) by lia.
      apply same_outcome_prefix; [|exact H2|rewrite drop_app_le by lia; exact H3].
      intros j Hj. rewrite starts_with_drop_app by (cbn [length HDR_RPT]; lia).
      apply (find_None _ _ F).
    - change (b ++ c) with (drop 0 (b ++ c)) at 2.
      apply same_outcome_prefix; [intros j Hj; lia | exact H2 | exact H3]. }
  induction fuel as [|fuel IH]; intros b c fs1 r1 f2 f3 D H2 H3.
  - destruct (find HDR_RPT b) as [s|] eqn:F.
    + destruct (find_from FTR_RPT (drop s b) 4) as [e|] eqn:G.
      * rewrite (extract_frame _ _ _ _ F G) in D. discriminate.
      * rewrite (extract_open _ _ _ F G) in D. injection D as <- <-.
        exact (Stop b c s _ f2 f3 F eq_refl H2 H3).
    + rewrite extract_no_header in D by exact F. injection D as <- <-.
      exact (Quiet b c _ f2 f3 F eq_refl H2 H3).
  - destruct (find HDR_RPT b) as [s|] eqn:F.
    + destruct (find_from FTR_RPT (drop s b) 4) as [e|] eqn:G.
      * rewrite (extract_frame _ _ _ _ F G) in D.
        destruct (extract_loop fuel (drop (e + 4) (drop s b))) as [[frames rest]|] eqn:D';
          [|discriminate].
        injection D as <- <-.
        pose proof (frame_end_in_buffer _ _ G) as He. rewrite length_drop in He.
        destruct (find_Some _ _ _ F) as [Ho _].
        pose proof (occurs_at_length HDR_RPT s b Ho Hh) as Hl. cbn [length HDR_RPT] in Hl.
        assert (F2 : find HDR_RPT (b ++ c) = Some s) by (apply find_app_l; assumption).
        assert (G2 : find_from FTR_RPT (drop s (b ++ c)) 4 = Some e).
        { unfold find_from in *. rewrite drop_app_le by lia.
          rewrite drop_app_le by len_tac.
          destruct (find FTR_RPT (drop 4 (drop s b))) as [k|] eqn:K; [|discriminate].
          rewrite (find_app_l _ _ c _ Hf K). exact G. }
        rewrite (extract_frame _ _ _ _ F2 G2).
        destruct f2 as [|f2]; [len_tac|].
        rewrite (drop_app_le b c s) by lia.
        rewrite (drop_app_le (drop s b) c) by len_tac.
        rewrite (take_app_le (drop s b) c) by len_tac.
        pose proof (IH (drop (e + 4) (drop s b)) c frames rest f2 f3 D'
                       ltac:(len_tac) H3) as I.
        unfold same_outcome in *.
        destruct (extract_loop f3 (rest ++ c)) as [[fs2 r2]|].
        -- destruct I as [r [-> Hr]]. exists r. split; [reflexivity | exact Hr].
        -- rewrite I. reflexivity.
      * rewrite (extract_open _ _ _ F G) in D. injection D as <- <-.
        exact (Stop b c s _ f2 f3 F eq_refl H2 H3).
    + rewrite extract_no_header in D by exact F. injection D as <- <-.
      exact (Quiet b c _ f2 f3 F eq_refl H2 H3).
Qed.

(** X29.  The frames do not depend on how the reads are cut.  Extracting
    from the buffer after a chunk [c1] and then, with the buffer left,
    after a chunk [c2] gives the same frames, in the same order, as
    extracting once after [c1 ++ c2]; the buffer left is the same too,
    except that two buffers without any header may differ (the 64-byte
    cut is taken at different times). *)
Theorem extract_in_two_reads buf c1 c2 fs1 r1 fs2 r2 :
  extract_report_frames (buf ++ c1) = Some (fs1, r1) ->
  extract_report_frames (r1 ++ c2) = Some (fs2, r2) ->
  exists r, extract_report_frames (buf ++ c1 ++ c2) = Some (fs1 ++ fs2, r)
            /\ (r = r2 \/ (find HDR_RPT r = None /\ find HDR_RPT r2 = None)).
Proof.
  unfold extract_report_frames. intros D1 D2.
  rewrite app_assoc.
  pose proof (extract_app _ (buf ++ c1) c2 fs1 r1
                (length ((buf ++ c1) ++ c2)) (length (r1 ++ c2)) D1
                (le_n _) (le_n _)) as H.
  rewrite D2 in H. exact H.
Qed.

Lemma extract_in_two_reads_witness :
  exists r, extract_report_frames
              ([x11] ++ [xf4; xf3; xf2; xf1; xaa; x02]
                     ++ [x51; x00; xf8; xf7; xf6; xf5; xf4; xf3])
            = Some ([] ++ [[xf4; xf3; xf2; xf1; xaa; x02; x51; x00; xf8; xf7; xf6; xf5]], r)
            /\ (r = [xf4; xf3]
                \/ (find HDR_RPT r = None /\ find HDR_RPT [xf4; xf3] = None)).
Proof.
  apply (extract_in_two_reads [x11] [xf4; xf3; xf2; xf1; xaa; x02]
           [x51; x00; xf8; xf7; xf6; xf5; xf4; xf3]
           [] [xf4; xf3; xf2; xf1; xaa; x02]); reflexivity.
Defined.

End ChunkedReports.

(** ** The buffered reader on a whole stream, read in two chunks *)

Section BufferedStream.
Import Bytes BufferedReader Chunks.

(** X30.  The buffered reader loses no frame to the way the stream is
    read.  For a stream of frames, each preceded by a calm garbage run
    and followed by one more, cut anywhere into two reads [c1] and
    [c2]: both reads return, and the values stored by the first read
    followed by those stored by the second are the values of all frames
    of the wanted id, in order. *)
Theorem buffered_reader_decodes_cut_stream want_id segs tail c1 c2 :
  c1 ++ c2 = SimpleShape.stream segs tail ->
  Forall (fun gf => SimpleShape.calm (fst gf) = true) segs ->
  SimpleShape.calm tail = true ->
  exists v1 r1 v2 r2,
    feed want_id [] c1 = Some (v1, r1)
    /\ feed want_id r1 c2 = Some (v2, r2)
    /\ v1 ++ v2 = SimpleShape.fval <$> SimpleShape.samples want_id (snd <$> segs).
Proof.
  intros Hcut Hs Ht.
  destruct (feed_total want_id [] c1) as [v1 [r1 E1]].
  destruct (feed_total want_id r1 c2) as [v2 [r2 E2]].
  exists v1, r1, v2, r2. split; [exact E1|]. split; [exact E2|].
  destruct (drain_stream want_id tail segs (length (SimpleShape.stream segs tail)))
    as [rest D]; [apply le_n | exact Hs | exact Ht |].
  unfold feed in E1, E2. cbn [app] in E1.
  pose proof (drain_app want_id _ c1 c2 v1 r1 (length (c1 ++ c2)) (length (r1 ++ c2))
                E1 (le_n _) (le_n _)) as H.
  rewrite E2, Hcut, D in H. injection H as -> _. reflexivity.
Qed.

Lemma buffered_reader_decodes_cut_stream_witness :
  exists v1 r1 v2 r2,
    feed x02 [] [x01; xaa; x13; xaa; xaa; x02; x07; x00] = Some (v1, r1)
    /\ feed x02 r1 [x55; x55; xaa; xaa; x02; xaa; x00; x55; x55; xff] = Some (v2, r2)
    /\ v1 ++ v2
       = SimpleShape.fval
           <$> SimpleShape.samples x02
                 (snd <$> [([x01; xaa; x13], SimpleShape.Frame x02 x07);
                           ([], SimpleShape.Frame x02 xaa)]).
Proof.
  apply (buffered_reader_decodes_cut_stream x02
           [([x01; xaa; x13], SimpleShape.Frame x02 x07); ([], SimpleShape.Frame x02 xaa)]
           [xff]
           [x01; xaa; x13; xaa; xaa; x02; x07; x00]
           [x55; x55; xaa; xaa; x02; xaa; x00; x55; x55; xff]).
  - reflexivity.
  - repeat constructor.
  - reflexivity.
Defined.

End BufferedStream.
